(** * Inline TEI rendering of PAGE annotations (page2tei.py)

    A shallow embedding of the inline renderer of [page2tei.py]:
    [parse_custom_ops], [slice_text_nodes], [append_text],
    [build_styled_nodes] and [build_inline_nodes_for_line] with its local
    helpers, followed by the properties of the renderer; then the
    standalone element builders, [detect_edition_type], and the parts of
    [convert_page_to_tei] that place a line ([get_y]) and fill its [ab]
    element, and the re-ordering of the lines of a [div] in
    [fix_tractatus_order.py].  The last part, on lines of any shape, holds
    the properties of style spans, of the whitespace around wrappers and of
    the nesting of wrapper elements that do not depend on the other
    operations of the line.

    Python [str] values are modelled by [string]; a character is one of the
    256 codes of [ascii], classified as Python classifies the code points
    0..255.  An [xml.etree.ElementTree.Element] is a value of [Element]; the
    in-place updates of the source become functions returning the updated
    element.  An operation of the renderer is a record [op] whose [offset],
    [length] and [end] are integers. *)

From Stdlib Require Import ZArith Ascii String Sorted DecimalString.
From Stdlib Require DecimalPos.
From stdpp Require Import base list gmap strings.

Local Open Scope Z_scope.
#[local] Arguments String.append !_ _ / : simpl nomatch.

(** ** Python strings *)

Module Str.

Definition code (c : ascii) : N := N_of_ascii c.

(** [str.isspace] / regex [\s] on the code points 0..255. *)
Definition isspace (c : ascii) : bool :=
  let n := code c in
  ((9 <=? n) && (n <=? 13) || (28 <=? n) && (n <=? 32)
   || (n =? 133) || (n =? 160))%N.

(** Membership in [string.punctuation]. *)
Definition ispunct (c : ascii) : bool :=
  let n := code c in
  ((33 <=? n) && (n <=? 47) || (58 <=? n) && (n <=? 64)
   || (91 <=? n) && (n <=? 96) || (123 <=? n) && (n <=? 126))%N.

Definition is_empty (s : string) : bool :=
  match s with EmptyString => true | String _ _ => false end.

(** Truth value of a Python string: [bool(s)]. *)
Definition truthy (s : string) : bool := negb (is_empty s).

Fixpoint all (p : ascii → bool) (s : string) : bool :=
  match s with
  | EmptyString => true
  | String c s' => p c && all p s'
  end.

Fixpoint take (n : nat) (s : string) : string :=
  match n, s with
  | S n', String c s' => String c (take n' s')
  | _, _ => EmptyString
  end.

Fixpoint drop (n : nat) (s : string) : string :=
  match n, s with
  | S n', String _ s' => drop n' s'
  | _, _ => s
  end.

Definition len (s : string) : Z := Z.of_nat (String.length s).

(** [s[lo:hi]] with Python's treatment of negative and out-of-range
    indices. *)
Definition norm_index (n i : Z) : Z :=
  if i <? 0 then Z.max 0 (i + n) else Z.min i n.

Definition slice (s : string) (lo hi : Z) : string :=
  let a := norm_index (len s) lo in
  let b := norm_index (len s) hi in
  take (Z.to_nat (b - a)) (drop (Z.to_nat a) s).

Fixpoint lstrip (s : string) : string :=
  match s with
  | EmptyString => EmptyString
  | String c s' => if isspace c then lstrip s' else s
  end.

Fixpoint rstrip (s : string) : string :=
  match s with
  | EmptyString => EmptyString
  | String c s' =>
      let r := rstrip s' in
      if is_empty r && isspace c then EmptyString else String c r
  end.

(** [s.strip()] *)
Definition strip (s : string) : string := rstrip (lstrip s).

(** The maximal leading run of whitespace of [s]. *)
Fixpoint lspace (s : string) : string :=
  match s with
  | EmptyString => EmptyString
  | String c s' => if isspace c then String c (lspace s') else EmptyString
  end.

(** The maximal trailing run of whitespace of [s]. *)
Definition rspace (s : string) : string :=
  drop (String.length (rstrip s)) s.

(** The first regular expression of [populate_target_with_nodes], matched
    with DOTALL against [s]: a non-empty greedy run of whitespace at the
    start (group 1) and everything after it (group 2).  [None] stands for
    no match. *)
Definition match_lead (s : string) : option (string * string) :=
  if truthy (lspace s) then Some (lspace s, lstrip s) else None.

(** The second regular expression of [populate_target_with_nodes],
    matched with DOTALL against [s]: the shortest prefix (group 1)
    followed by a non-empty run of whitespace that reaches the end
    (group 2).  [None] stands for no match. *)
Definition match_trail (s : string) : option (string * string) :=
  if truthy (rspace s) then Some (rstrip s, rspace s) else None.

(** [sep.join(l)] *)
Fixpoint join (sep : string) (l : list string) : string :=
  match l with
  | [] => EmptyString
  | [x] => x
  | x :: l' => x +:+ sep +:+ join sep l'
  end.

Fixpoint concat (l : list string) : string :=
  match l with
  | [] => EmptyString
  | x :: l' => x +:+ concat l'
  end.

(** [x or ''] for an optional string. *)
Definition or_empty (o : option string) : string :=
  match o with Some s => s | None => EmptyString end.

(** Truth value of an optional string ([None] and the empty string are
    false). *)
Definition truthy_opt (o : option string) : bool :=
  match o with Some s => truthy s | None => false end.

End Str.

(** ** ElementTree elements *)

#[local] Unset Elimination Schemes.
Inductive Element : Type :=
  Elem { tag : string;
         attrib : list (string * string);
         text : option string;
         subelems : list Element;
         tail : option string }.
#[local] Set Elimination Schemes.

(** A rendered inline node: a plain string or an element. *)
Inductive Node : Type :=
  | NStr (s : string)
  | NElem (e : Element).

Definition TEI_NS : string := "http://www.tei-c.org/ns/1.0".

(** [qn(name)]: the tag in Clark notation. *)
Definition qn (name : string) : string := "{" +:+ TEI_NS +:+ "}" +:+ name.

(** [ET.Element(tag)] *)
Definition new_element (t : string) : Element := Elem t [] None [] None.

Definition set_text (e : Element) (t : option string) : Element :=
  Elem (tag e) (attrib e) t (subelems e) (tail e).

Definition set_tail (e : Element) (t : option string) : Element :=
  Elem (tag e) (attrib e) (text e) (subelems e) t.

Definition set_subelems (e : Element) (cs : list Element) : Element :=
  Elem (tag e) (attrib e) (text e) cs (tail e).

(** [e.append(c)] *)
Definition append_child (e c : Element) : Element :=
  set_subelems e (subelems e ++ [c]).

(** Assignment [d[k] = v] in an insertion-ordered dictionary. *)
Fixpoint dict_set (k v : string) (d : list (string * string))
  : list (string * string) :=
  match d with
  | [] => [(k, v)]
  | (k', v') :: d' =>
      if String.eqb k' k then (k, v) :: d' else (k', v') :: dict_set k v d'
  end.

Fixpoint dict_get (k : string) (d : list (string * string)) : option string :=
  match d with
  | [] => None
  | (k', v') :: d' => if String.eqb k' k then Some v' else dict_get k d'
  end.

(** [e.set(k, v)] *)
Definition set_attr (e : Element) (k v : string) : Element :=
  Elem (tag e) (dict_set k v (attrib e)) (text e) (subelems e) (tail e).

(** Apply [f] to the last element of a list. *)
Fixpoint map_last {A} (f : A → A) (l : list A) : list A :=
  match l with
  | [] => []
  | [x] => [f x]
  | x :: l' => x :: map_last f l'
  end.

(** [append_text(parent, s)] *)
Definition append_text (parent : Element) (s : string) : Element :=
  if Str.is_empty s then parent
  else
    match text parent, subelems parent with
    | None, [] => set_text parent (Some s)
    | _, [] => set_text parent (Some (Str.or_empty (text parent) +:+ s))
    | _, _ :: _ =>
        set_subelems parent
          (map_last (λ last, set_tail last (Some (Str.or_empty (tail last) +:+ s)))
             (subelems parent))
    end.

(** ** Annotation spans *)

(** An operation dictionary whose keys [kind], [offset], [length] and [end]
    hold a string and three integers; [op_attrs] holds the remaining keys in
    insertion order. *)
Record op : Type :=
  Op { op_kind : string;
       op_offset : Z;
       op_length : Z;
       op_end : Z;
       op_attrs : list (string * string) }.

(** [o.get(k)] and [k in o] for an attribute key [k]. *)
Definition op_get (o : op) (k : string) : option string := dict_get k (op_attrs o).
Definition op_has (o : op) (k : string) : bool := bool_decide (is_Some (op_get o k)).

(** An operation as [parse_custom_ops] builds it: [end] is
    [offset + length]. *)
Definition span (kind : string) (off len : Z) (a : list (string * string)) : op :=
  Op kind off len (off + len) a.

(** ** Styled text *)

(** [sorted(l, key=...)]: a stable sort, [le x y] comparing the keys of [x]
    and [y]. *)
Fixpoint insert_by {A} (le : A → A → bool) (x : A) (l : list A) : list A :=
  match l with
  | [] => [x]
  | y :: l' => if le x y then x :: l else y :: insert_by le x l'
  end.

Fixpoint sorted_by {A} (le : A → A → bool) (l : list A) : list A :=
  match l with
  | [] => []
  | x :: l' => insert_by le x (sorted_by le l')
  end.

Definition sorted_Z (l : list Z) : list Z := sorted_by Z.leb l.
Definition sorted_str (l : list string) : list string := sorted_by String.leb l.

Definition clamp (n i : Z) : Z := Z.max 0 (Z.min n i).

(** [slice_text_nodes(text, ranges)] *)
Definition cut_points (n : Z) (ranges : list (Z * Z * string)) : gset Z :=
  foldl (λ cp r, cp ∪ {[clamp n r.1.1]} ∪ {[clamp n r.1.2]}) {[0; n]} ranges.

Definition labels_of (ranges : list (Z * Z * string)) (s e : Z) : gset string :=
  list_to_set
    (omap (λ r : Z * Z * string,
             let '(ss, ee, lab) := r in
             if (ss <=? s) && (e <=? ee) && (ss <? ee) then Some lab else None)
          ranges).

Fixpoint adjacent {A} (l : list A) : list (A * A) :=
  match l with
  | x :: (y :: _) as l' => (x, y) :: adjacent l'
  | _ => []
  end.

Definition slice_text_nodes (t : string) (ranges : list (Z * Z * string))
  : list (Z * Z * string * gset string) :=
  let cuts := sorted_Z (elements (cut_points (Str.len t) ranges)) in
  omap (λ se : Z * Z,
          let '(s, e) := se in
          if s =? e then None
          else Some (s, e, Str.slice t s e, labels_of ranges s e))
       (adjacent cuts).


(** The [rend] labels of a style operation, in the order of the source. *)
Definition flag_on (o : op) (k : string) : bool :=
  String.eqb (default "false" (op_get o k)) "true".

Definition rend_of (o : op) : list string :=
  filter (λ k, flag_on o k = true)
         ["bold"; "italic"; "underline"; "superscript"; "subscript"].

Definition style_ranges (style_ops : list op) : list (Z * Z * string) :=
  omap (λ o, match rend_of o with
             | [] => None
             | rend => Some (op_offset o, op_end o, Str.join " " rend)
             end)
       style_ops.

(** The [hi] element of a labelled segment. *)
Definition hi_element (labels : gset string) (seg_text : string) : Element :=
  set_text
    (set_attr (new_element (qn "hi")) "rend"
       (Str.join " " (sorted_str (elements labels))))
    (Some seg_text).

(** A segment consisting only of punctuation once its surrounding whitespace
    is removed. *)
Definition punctuation_only (seg_text : string) : bool :=
  let seg_stripped := Str.strip seg_text in
  Str.truthy seg_stripped && Str.all Str.ispunct seg_stripped.

(** The body of the loop of [build_styled_nodes]. *)
Definition styled_segment (parent : Element) (seg_text : string)
    (labels : gset string) : Element :=
  if decide (labels = ∅) then append_text parent seg_text
  else if punctuation_only seg_text then append_text parent seg_text
  else append_child parent (hi_element labels seg_text).

(** [build_styled_nodes(parent, text, style_ops)] *)
Definition build_styled_nodes (parent : Element) (t : string)
    (style_ops : list op) : Element :=
  match style_ranges style_ops with
  | [] => append_text parent t
  | ranges =>
      foldl (λ p seg, styled_segment p seg.1.2 seg.2)
            parent (slice_text_nodes t ranges)
  end.

(** The nodes read back from the temporary holder at the end of
    [render_plain_segment]: its text, then every child followed by its
    tail, which is cleared. *)
Definition child_nodes (ch : Element) : list Node :=
  if Str.truthy_opt (tail ch)
  then [NElem (set_tail ch None); NStr (Str.or_empty (tail ch))]
  else [NElem ch].

Definition holder_nodes (tmp : Element) : list Node :=
  (if Str.truthy_opt (text tmp) then [NStr (Str.or_empty (text tmp))] else [])
  ++ concat (map child_nodes (subelems tmp)).

(** [render_plain_segment(seg_start, seg_end)] for the line [t] and its
    style operations. *)
Definition render_plain_segment (t : string) (style_ops : list op)
    (seg_start seg_end : Z) : list Node :=
  let seg_text := Str.slice t seg_start seg_end in
  if Str.is_empty seg_text then []
  else
    let seg_styles :=
      filter (λ s, seg_start ≤ op_offset s ∧ op_end s ≤ seg_end) style_ops in
    holder_nodes (build_styled_nodes (new_element "tmp") seg_text seg_styles).


(** ** Wrapper elements *)

(** The value returned by [build_wrapper_element]: an element, or a tuple
    [(lead, element, trail)]. *)
Inductive Built : Type :=
  | BElem (e : Element)
  | BTuple (lead : string) (e : Element) (trail : string).

(** One step of the loop that fills the temporary holder. *)
Definition insert_node (tmp : Element) (n : Node) : Element :=
  match n with
  | NStr s => append_text tmp s
  | NElem e => append_child tmp e
  end.

(** Extraction of the leading whitespace of the holder's text. *)
Definition extract_lead (tmp : Element) : string * Element :=
  if Str.truthy_opt (text tmp) then
    match Str.match_lead (Str.or_empty (text tmp)) with
    | Some (g1, g2) => (g1, set_text tmp (Some g2))
    | None => (EmptyString, tmp)
    end
  else (EmptyString, tmp).

(** Extraction of the trailing whitespace of the last child's tail, or of
    the holder's text when it has no child. *)
Definition extract_trail (tmp : Element) : string * Element :=
  match last (subelems tmp) with
  | Some l =>
      if Str.truthy_opt (tail l) then
        match Str.match_trail (Str.or_empty (tail l)) with
        | Some (g1, g2) =>
            (g2, set_subelems tmp
                   (map_last (λ l, set_tail l (Some g1)) (subelems tmp)))
        | None => (EmptyString, tmp)
        end
      else (EmptyString, tmp)
  | None =>
      if Str.truthy_opt (text tmp) then
        match Str.match_trail (Str.or_empty (text tmp)) with
        | Some (g1, g2) => (g2, set_text tmp (Some g1))
        | None => (EmptyString, tmp)
        end
      else (EmptyString, tmp)
  end.

(** [populate_target_with_nodes(target, nodes_to_insert)] *)
Definition populate_target_with_nodes (target : Element)
    (nodes_to_insert : list Node) : string * Element * string :=
  let tmp0 := foldl insert_node (new_element "tmp") nodes_to_insert in
  let '(lead, tmp1) := extract_lead tmp0 in
  let '(trail, tmp) := extract_trail tmp1 in
  let target1 :=
    if Str.truthy_opt (text tmp)
    then set_text target
           (Some (Str.or_empty (text target) +:+ Str.or_empty (text tmp)))
    else target in
  (lead, foldl append_child target1 (subelems tmp), trail).

(** [_maybe_wrap_with_edge_whitespace(pop_res, wrap_el)], given the
    whitespace of [pop_res]. *)
Definition maybe_wrap_with_edge_whitespace (lead trail : string)
    (wrap_el : Element) : Built :=
  if Str.truthy lead || Str.truthy trail
  then BTuple lead wrap_el trail
  else BElem wrap_el.

(** [a or b] on optional strings. *)
Definition py_or (a b : option string) : option string :=
  if Str.truthy_opt a then a else b.

(** [if k in w: el.set(name, f(w[k]))] *)
Definition copy_attr (w : op) (k name : string) (f : string → string)
    (el : Element) : Element :=
  match op_get w k with
  | Some v => set_attr el name (f v)
  | None => el
  end.

Definition is_element (n : Node) : option Element :=
  match n with NElem e => Some e | NStr _ => None end.

(** A plain string that equals the witness text once both are stripped. *)
Definition repeats_witness (witness_text : string) (n : Node) : bool :=
  match n with
  | NStr s => String.eqb (Str.strip s) (Str.strip witness_text)
  | NElem _ => false
  end.

(** [ET.SubElement(el, qn(attr))] followed by [child.text = v]. *)
Definition sub_element_with_text (el : Element) (name v : string) : Element :=
  append_child el (set_text (new_element (qn name)) (Some v)).

Definition wikidata_url (v : string) : string :=
  "https://www.wikidata.org/wiki/" +:+ v.

(** The attributes a [persName] receives from a person operation. *)
Definition persName_for (w : op) : Element :=
  let el := new_element (qn "persName") in
  let el := copy_attr w "type" "type" id el in
  let el := copy_attr w "wikiData" "ref" wikidata_url el in
  let el := copy_attr w "firstname" "firstname" id el in
  if bool_decide (op_get w "continued" = Some "true")
  then set_attr el "continued" "true" else el.

(** The [choice] element with the sub-elements [a] and [b]. *)
Definition choice_of (a b : Element) : Element :=
  append_child (append_child (new_element (qn "choice")) a) b.

(** [build_wrapper_element(idx, inner_nodes)] for the line [t], where [w] is
    [wrappers[idx]]. *)
Definition build_wrapper_element (t : string) (w : op)
    (inner_nodes : list Node) : Built :=
  let kind := op_kind w in
  let witness_text := Str.slice t (op_offset w) (op_end w) in
  if bool_decide (kind ∈ ["abbrev"; "sic"; "regularised"]) then
    let '(a_tag, b_tag, alt) :=
      if String.eqb kind "abbrev"
      then ("abbr", "expan", Str.or_empty (op_get w "expansion"))
      else if String.eqb kind "sic"
      then ("sic", "corr", Str.or_empty (op_get w "correction"))
      else ("orig", "reg", Str.or_empty (op_get w "original")) in
    let a := new_element (qn a_tag) in
    let b := new_element (qn b_tag) in
    if String.eqb kind "regularised" then
      let orig_attr := py_or (op_get w "original") (op_get w "orig") in
      let reg_attr := py_or (op_get w "regularised") (op_get w "reg") in
      let a := set_text a (Some (default alt orig_attr)) in
      match reg_attr with
      | Some reg =>
          let filtered_inner :=
            filter (λ n, repeats_witness witness_text n = false) inner_nodes in
          let element_children := omap is_element filtered_inner in
          match element_children with
          | [] => BElem (choice_of a (set_text b (Some reg)))
          | _ =>
              let '(lead, tmp, trail) :=
                populate_target_with_nodes (new_element "tmp")
                  (map NElem element_children) in
              let b := foldl append_child (set_text b (Some reg)) (subelems tmp) in
              maybe_wrap_with_edge_whitespace lead trail (choice_of a b)
          end
      | None =>
          let '(lead, b, trail) := populate_target_with_nodes b inner_nodes in
          maybe_wrap_with_edge_whitespace lead trail (choice_of a b)
      end
    else
      let '(lead, a, trail) := populate_target_with_nodes a inner_nodes in
      maybe_wrap_with_edge_whitespace lead trail
        (choice_of a (set_text b (Some alt)))
  else if String.eqb kind "num" then
    let el := new_element (qn "num") in
    let el := copy_attr w "type" "type" id el in
    let el := copy_attr w "value" "value" id el in
    let '(lead, el, trail) := populate_target_with_nodes el inner_nodes in
    maybe_wrap_with_edge_whitespace lead trail el
  else if String.eqb kind "person" then
    let '(lead, el, trail) :=
      populate_target_with_nodes (persName_for w) inner_nodes in
    maybe_wrap_with_edge_whitespace lead trail el
  else if String.eqb kind "place" then
    let el := new_element (qn "placeName") in
    let '(lead, el, trail) := populate_target_with_nodes el inner_nodes in
    let el :=
      foldl (λ el attr, match op_get w attr with
                        | Some v => sub_element_with_text el attr v
                        | None => el
                        end)
            el ["country"; "region"; "settlement"; "district"] in
    maybe_wrap_with_edge_whitespace lead trail el
  else if String.eqb kind "ref" then
    let el := new_element (qn "ref") in
    let el := copy_attr w "type" "type" id el in
    let el := copy_attr w "target" "target" id el in
    let '(lead, el, trail) := populate_target_with_nodes el inner_nodes in
    maybe_wrap_with_edge_whitespace lead trail el
  else if String.eqb kind "unclear" then
    let el := new_element (qn "unclear") in
    let el := copy_attr w "reason" "reason" id el in
    let '(lead, el, trail) := populate_target_with_nodes el inner_nodes in
    maybe_wrap_with_edge_whitespace lead trail el
  else
    let seg := set_attr (new_element (qn "seg")) "type" kind in
    let seg :=
      foldl (λ seg kv, set_attr seg ("data-" +:+ kv.1) kv.2) seg (op_attrs w) in
    let '(lead, seg, trail) := populate_target_with_nodes seg inner_nodes in
    maybe_wrap_with_edge_whitespace lead trail seg.

(** ** Wrapper order and containment *)

Definition op_priority (kind : string) : Z :=
  if bool_decide (kind ∈ ["person"; "place"; "ref"; "unclear"]) then 0
  else if bool_decide (kind ∈ ["abbrev"; "sic"; "regularised"; "num"]) then 1
  else 2.

(** Comparison of the sort keys [(offset, -end, priority)]. *)
Definition wrapper_key_le (x y : op) : bool :=
  (op_offset x <? op_offset y)
  || (op_offset x =? op_offset y)
     && ((- op_end x <? - op_end y)
         || (- op_end x =? - op_end y)
            && (op_priority (op_kind x) <=? op_priority (op_kind y))).

Definition of_kind (kinds : list string) (ops : list op) : list op :=
  filter (λ o, op_kind o ∈ kinds ∧ 0 < op_length o) ops.

Definition known_kinds : list string :=
  ["abbrev"; "sic"; "regularised"; "num"; "person"; "place"; "ref";
   "unclear"; "textStyle"].

Definition choice_ops (ops : list op) := of_kind ["abbrev"; "sic"; "regularised"] ops.
Definition num_ops (ops : list op) := of_kind ["num"] ops.
Definition person_ops (ops : list op) := of_kind ["person"] ops.
Definition place_ops (ops : list op) := of_kind ["place"] ops.
Definition ref_ops (ops : list op) := of_kind ["ref"] ops.
Definition unclear_ops (ops : list op) := of_kind ["unclear"] ops.
Definition style_ops (ops : list op) := of_kind ["textStyle"] ops.
Definition other_ops (ops : list op) : list op :=
  filter (λ o, op_kind o ∉ known_kinds ∧ 0 < op_length o) ops.

Definition wrappers (ops : list op) : list op :=
  sorted_by wrapper_key_le
    (person_ops ops ++ place_ops ops ++ ref_ops ops ++ unclear_ops ops
     ++ choice_ops ops ++ num_ops ops ++ other_ops ops).

(** [pw] encloses [w]. *)
Definition encloses (pw w : op) : bool :=
  (op_offset pw <=? op_offset w) && (op_end w <=? op_end pw).

(** The search for the nearest enclosing wrapper among the indices below
    [i], from [i - 1] down to [0]. *)
Fixpoint find_parent (ws : list op) (w : op) (i : nat) : option nat :=
  match i with
  | O => None
  | S j =>
      match ws !! j with
      | Some pw => if encloses pw w then Some j else find_parent ws w j
      | None => find_parent ws w j
      end
  end.

(** The containment tree: the dictionary [children] and the list [roots]. *)
Definition empty_children (n : nat) : gmap nat (list nat) :=
  list_to_map (map (λ i, (i, [])) (seq 0 n)).

Definition place_in_tree (ws : list op)
    (st : gmap nat (list nat) * list nat) (iw : nat * op)
  : gmap nat (list nat) * list nat :=
  let '(children, roots) := st in
  let '(i, w) := iw in
  match find_parent ws w i with
  | None => (children, roots ++ [i])
  | Some parent_idx =>
      (<[parent_idx := default [] (children !! parent_idx) ++ [i]]> children,
       roots)
  end.

Definition containment (ws : list op) : gmap nat (list nat) * list nat :=
  foldl (place_in_tree ws) (empty_children (length ws), []) (imap pair ws).

(** ** Rendering *)

Definition built_nodes (b : Built) : list Node :=
  match b with
  | BElem e => [NElem e]
  | BTuple lead el trail =>
      (if Str.truthy lead then [NStr lead] else [])
      ++ [NElem el]
      ++ (if Str.truthy trail then [NStr trail] else [])
  end.

Section Line.

Variable t : string.
Variable styles : list op.
Variable ws : list op.
Variable children : gmap nat (list nat).

(** The body of the loop shared by [render_span] and by the top level of
    [build_inline_nodes_for_line]: the gap before the wrapper [cidx], then
    the wrapper itself around its inner content, which [inner] renders.
    [None] stands for an exception. *)
Definition place_wrapper (inner : Z → Z → list nat → option (list Node))
    (acc : option (list Node * Z)) (cidx : nat) : option (list Node * Z) :=
  '(output, cursor) ← acc;
  cw ← ws !! cidx;
  let cstart := op_offset cw in
  let cend := op_end cw in
  let output :=
    if cursor <? cstart
    then output ++ render_plain_segment t styles cursor cstart
    else output in
  inner_nodes ← inner cstart cend (default [] (children !! cidx));
  Some (output ++ built_nodes (build_wrapper_element t cw inner_nodes), cend).

(** The wrappers [idxs] in the order of their offsets. *)
Definition by_offset (idxs : list nat) : list nat :=
  sorted_by (λ i j, default 0 (op_offset <$> ws !! i)
                    <=? default 0 (op_offset <$> ws !! j)) idxs.

Definition render_wrappers (inner : Z → Z → list nat → option (list Node))
    (start : Z) (idxs : list nat) : option (list Node * Z) :=
  foldl (place_wrapper inner) (Some ([], start)) (by_offset idxs).

Definition render_tail (span_end : Z) (r : list Node * Z) : list Node :=
  let '(output, cursor) := r in
  if cursor <? span_end
  then output ++ render_plain_segment t styles cursor span_end
  else output.

(** [render_span(span_start, span_end, child_idxs)]; [fuel] bounds the
    depth of the recursion and [None] is returned when it is exhausted. *)
Fixpoint render_span (fuel : nat) (span_start span_end : Z)
    (child_idxs : list nat) : option (list Node) :=
  match child_idxs with
  | [] => Some (render_plain_segment t styles span_start span_end)
  | _ =>
      match fuel with
      | O => None
      | S fuel' =>
          render_tail span_end
            <$> render_wrappers (render_span fuel') span_start child_idxs
      end
  end.

(** The top-level sequence over the roots. *)
Definition render_roots (fuel : nat) (roots : list nat) : option (list Node) :=
  match roots with
  | [] => Some (render_plain_segment t styles 0 (Str.len t))
  | _ =>
      render_tail (Str.len t)
        <$> render_wrappers (render_span fuel) 0 roots
  end.

End Line.

(** ** The repair pass for person and choice *)

(** [_wrap_choice_in_persname_in_element(elem, person_op)]: [Some elem'] when
    a wrapping happened, [elem'] being the updated element, and [None] when
    the source returns [False]. *)
Fixpoint wrap_choice_in_persname_in_element (person_op : op) (elem : Element)
  : option Element :=
  match elem with
  | Elem tg at_ tx cs tl =>
      if String.eqb tg (qn "persName") then None
      else
        let fix go (cs : list Element) : option (list Element) :=
          match cs with
          | [] => None
          | child :: rest =>
              if String.eqb (tag child) (qn "persName") then cons child <$> go rest
              else if String.eqb (tag child) (qn "choice") then
                Some (append_child (persName_for person_op) child :: rest)
              else
                match wrap_choice_in_persname_in_element person_op child with
                | Some child' => Some (child' :: rest)
                | None => cons child <$> go rest
                end
          end in
        (λ cs', Elem tg at_ tx cs' tl) <$> go cs
  end.

(** [_wrap_choice_in_nodes_list(nodes_list, person_op)] *)
Fixpoint wrap_choice_in_nodes_list (nodes_list : list Node) (person_op : op)
  : option (list Node) :=
  match nodes_list with
  | [] => None
  | NStr s :: rest => cons (NStr s) <$> wrap_choice_in_nodes_list rest person_op
  | NElem n :: rest =>
      if String.eqb (tag n) (qn "persName")
      then cons (NElem n) <$> wrap_choice_in_nodes_list rest person_op
      else if String.eqb (tag n) (qn "choice") then
        Some (NElem (set_tail (append_child (persName_for person_op)
                                 (set_tail n None)) (tail n)) :: rest)
      else
        match wrap_choice_in_persname_in_element person_op n with
        | Some n' => Some (NElem n' :: rest)
        | None => cons (NElem n) <$> wrap_choice_in_nodes_list rest person_op
        end
  end.

(** Non-empty intersection of the spans of [p] and [c]. *)
Definition overlapping (p c : op) : bool :=
  Z.max (op_offset p) (op_offset c) <? Z.min (op_end p) (op_end c).

(** The inner loop over the choice operations for one person. *)
Fixpoint unify_person (nodes : list Node) (p : op) (cs : list op) : list Node :=
  match cs with
  | [] => nodes
  | c :: cs' =>
      if overlapping p c then
        match wrap_choice_in_nodes_list nodes p with
        | Some nodes' => nodes'
        | None => unify_person nodes p cs'
        end
      else unify_person nodes p cs'
  end.

(** The whole post-processing step. *)
Definition unify (ops : list op) (nodes : list Node) : list Node :=
  foldl (λ nodes p, unify_person nodes p (choice_ops ops)) nodes (person_ops ops).

(** The node sequence before the post-processing step. *)
Definition render_line (t : string) (ops : list op) : option (list Node) :=
  let ws := wrappers ops in
  let '(children, roots) := containment ws in
  render_roots t (style_ops ops) ws children (length ws) roots.

(** [build_inline_nodes_for_line(text, ops)]; [None] stands for an
    exception. *)
Definition build_inline_nodes_for_line (t : string) (ops : list op)
  : option (list Node) :=
  unify ops <$> render_line t ops.


(** ** Text content *)

(** The text of [e] and of its descendants with their tails, in document
    order, leaving out the content of the elements whose tag satisfies
    [skip]. *)
Fixpoint gather (skip : string → bool) (e : Element) : string :=
  match e with
  | Elem tg _ tx cs _ =>
      if skip tg then EmptyString
      else
        Str.or_empty tx
        +:+ (fix go (cs : list Element) : string :=
               match cs with
               | [] => EmptyString
               | c :: cs' => (gather skip c +:+ Str.or_empty (tail c)) +:+ go cs'
               end) cs
  end.

Definition gather_node (skip : string → bool) (n : Node) : string :=
  match n with
  | NStr s => s
  | NElem e => gather skip e +:+ Str.or_empty (tail e)
  end.

Definition gather_nodes (skip : string → bool) (nodes : list Node) : string :=
  Str.concat (map (gather_node skip) nodes).

(** The concatenation of [e.itertext()]. *)
Definition itertext (e : Element) : string := gather (λ _, false) e.

(** The whole text of a node sequence. *)
Definition flatten (nodes : list Node) : string :=
  gather_nodes (λ _, false) nodes.

(** Elements that hold a literal attribute value and no text of the line:
    the second reading of [abbrev] and [sic], the first reading of
    [regularised], and the sub-elements of [placeName]. *)
Definition literal_tags : list string :=
  map qn ["expan"; "corr"; "orig"; "country"; "region"; "settlement"; "district"].

Definition is_literal (tg : string) : bool := bool_decide (tg ∈ literal_tags).

(** The text of a node sequence that comes from the line: as [flatten],
    without the content of the literal elements. *)
Definition flatten_line (nodes : list Node) : string :=
  gather_nodes is_literal nodes.

(** ** PAGE custom parsing *)

Module Parser.

(** Regex class [\w] on the code points 0..255: letters, digits, numeric
    characters and the underscore. *)
Definition isword (c : ascii) : bool :=
  let n := Str.code c in
  ((48 <=? n) && (n <=? 57) || (65 <=? n) && (n <=? 90)
   || (97 <=? n) && (n <=? 122) || (n =? 95)
   || (n =? 170) || (n =? 178) || (n =? 179) || (n =? 181)
   || (n =? 185) || (n =? 186) || (188 <=? n) && (n <=? 190)
   || (192 <=? n) && (n <=? 214) || (216 <=? n) && (n <=? 246)
   || (248 <=? n))%N.

Definition isdigit (c : ascii) : bool :=
  let n := Str.code c in ((48 <=? n) && (n <=? 57))%N.

(** [c.lower()] on the code points 0..255. *)
Definition lower_char (c : ascii) : ascii :=
  let n := Str.code c in
  if ((65 <=? n) && (n <=? 90) || (192 <=? n) && (n <=? 214)
      || (216 <=? n) && (n <=? 222))%N
  then ascii_of_N (n + 32) else c.

Fixpoint lower (s : string) : string :=
  match s with
  | EmptyString => EmptyString
  | String c s' => String (lower_char c) (lower s')
  end.

(** The longest prefix of [s] whose characters satisfy [p], and the rest. *)
Fixpoint span_while (p : ascii → bool) (s : string) : string * string :=
  match s with
  | EmptyString => (EmptyString, EmptyString)
  | String c s' =>
      if p c then let '(a, b) := span_while p s' in (String c a, b)
      else (EmptyString, s)
  end.

(** A value of an operation dictionary. *)
Inductive pyval : Type :=
  | VInt (z : Z)
  | VStr (s : string).

(** [str(v)]; for an integer, its decimal numeral.  Python's [str] raises
    [ValueError] for an integer of more than [sys.int_max_str_digits]
    digits, 4300 by default: the function stands for [str] below that
    limit, and the results about it carry the bound [max_str_digits]. *)
Definition to_str (v : pyval) : string :=
  match v with
  | VStr s => s
  | VInt z => DecimalString.NilZero.string_of_int (Z.to_int z)
  end.

(** [parse_bool(val)] *)
Definition parse_bool (val : pyval) : bool :=
  bool_decide (lower (Str.strip (to_str val)) ∈ ["1"; "true"; "yes"; "y"]).

(** The digits of a decimal literal, single underscores being allowed
    between digits. *)
Fixpoint parse_digits (acc : Z) (after_digit : bool) (s : string) : option Z :=
  match s with
  | EmptyString => if after_digit then Some acc else None
  | String c s' =>
      if isdigit c
      then parse_digits (10 * acc + Z.of_N (Str.code c - 48)) true s'
      else if Ascii.eqb c "_" && after_digit
      then match s' with
           | String c' _ => if isdigit c' then parse_digits acc false s' else None
           | EmptyString => None
           end
      else None
  end.

(** The whitespace that [int] accepts around a numeral: the ASCII
    whitespace and, of the other code points below 256, U+0085 and U+00A0.
    Unlike [str.strip], [int] does not accept U+001C to U+001F. *)
Definition int_space (c : ascii) : bool :=
  let n := Str.code c in
  ((9 <=? n) && (n <=? 13) || (n =? 32) || (n =? 133) || (n =? 160))%N.

(** [s] without its leading, respectively trailing, characters that
    satisfy [p]. *)
Fixpoint lskip (p : ascii → bool) (s : string) : string :=
  match s with
  | EmptyString => EmptyString
  | String c s' => if p c then lskip p s' else s
  end.

Fixpoint rskip (p : ascii → bool) (s : string) : string :=
  match s with
  | EmptyString => EmptyString
  | String c s' =>
      let r := rskip p s' in
      if Str.is_empty r && p c then EmptyString else String c r
  end.

(** The number of digits of a numeral; underscores do not count. *)
Fixpoint count_digits (s : string) : Z :=
  match s with
  | EmptyString => 0
  | String c s' => (if isdigit c then 1 else 0) + count_digits s'
  end.

(** The default of [sys.int_max_str_digits]: [int] refuses a decimal
    numeral with more digits, and [str] an integer with more digits. *)
Definition max_str_digits : Z := 4300.

(** [int(s)] for a string; [None] stands for [ValueError]. *)
Definition py_int (s : string) : option Z :=
  let numeral (d : string) :=
    if count_digits d <=? max_str_digits then parse_digits 0 false d
    else None in
  match rskip int_space (lskip int_space s) with
  | String "-" d => Z.opp <$> numeral d
  | String "+" d => numeral d
  | d => numeral d
  end.

(** [parse_int(val, default)] *)
Definition parse_int (val : string) (default : Z) : Z :=
  match py_int val with Some z => z | None => default end.

(** A match of the key-value pattern at the start of [s] (a word, optional
    whitespace, a colon, optional whitespace, one or more characters other
    than a semicolon, a semicolon): the key, the stripped value, and what
    follows the match.  The value group is the text up to the next
    semicolon without its leading whitespace (or its last character when it
    holds only whitespace); once stripped it is the stripped text up to the
    semicolon. *)
Definition match_pair (s : string) : option (string * string * string) :=
  let '(key, r1) := span_while isword s in
  if Str.is_empty key then None
  else
    match (span_while Str.isspace r1).2 with
    | String ":" r3 =>
        let '(v, r4) := span_while (λ c, negb (Ascii.eqb c ";")) r3 in
        match r4 with
        | String ";" r5 => if Str.is_empty v then None else Some (key, Str.strip v, r5)
        | _ => None
        end
    | _ => None
    end.

(** A match of the token pattern at the start of [s] (a word, optional
    whitespace, an opening brace, any characters other than a closing
    brace, a closing brace): the kind, the body, and what follows the
    match. *)
Definition match_token (s : string) : option (string * string * string) :=
  let '(kind, r1) := span_while isword s in
  if Str.is_empty kind then None
  else
    match (span_while Str.isspace r1).2 with
    | String "{" r3 =>
        let '(body, r4) := span_while (λ c, negb (Ascii.eqb c "}")) r3 in
        match r4 with
        | String "}" r5 => Some (kind, body, r5)
        | _ => None
        end
    | _ => None
    end.

(** [re.finditer]: the successive leftmost matches; [fuel] bounds the number
    of positions tried. *)
Fixpoint finditer {A} (m : string → option (A * string)) (fuel : nat)
    (s : string) : list A :=
  match fuel with
  | O => []
  | S fuel' =>
      match m s with
      | Some (x, rest) => x :: finditer m fuel' rest
      | None =>
          match s with
          | EmptyString => []
          | String _ s' => finditer m fuel' s'
          end
      end
  end.

Definition pairs_of (body : string) : list (string * string) :=
  finditer (λ s, (λ r : string * string * string, (r.1, r.2)) <$> match_pair s)
           (S (String.length body)) body.

Definition tokens_of (custom_str : string) : list (string * string) :=
  finditer (λ s, (λ r : string * string * string, (r.1, r.2)) <$> match_token s)
           (S (String.length custom_str)) custom_str.

(** Assignment and lookup in an insertion-ordered dictionary. *)
Fixpoint dset {V} (k : string) (v : V) (d : list (string * V))
  : list (string * V) :=
  match d with
  | [] => [(k, v)]
  | (k', v') :: d' =>
      if String.eqb k' k then (k, v) :: d' else (k', v') :: dset k v d'
  end.

Fixpoint dget {V} (k : string) (d : list (string * V)) : option V :=
  match d with
  | [] => None
  | (k', v') :: d' => if String.eqb k' k then Some v' else dget k d'
  end.

(** The dictionary [kv] of a token body. *)
Definition kv_of (body : string) : list (string * string) :=
  foldl (λ kv part, dset part.1 part.2 kv) [] (pairs_of body).

(** ["true" if parse_bool(op[k]) else "false"] when [k] is in [op]. *)
Definition normalize_flag (k : string) (op : list (string * pyval))
  : list (string * pyval) :=
  match dget k op with
  | Some v => dset k (VStr (if parse_bool v then "true" else "false")) op
  | None => op
  end.

(** The body of the loop of [parse_custom_ops] for one token. *)
Definition parse_token (kind : string) (kv : list (string * string))
  : list (string * pyval) :=
  let off := parse_int (default "0" (dget "offset" kv)) 0 in
  let length := parse_int (default "0" (dget "length" kv)) 0 in
  let op := [("kind", VStr kind); ("offset", VInt off);
             ("length", VInt length); ("end", VInt (off + length))] in
  let op :=
    foldl (λ op (kv : string * string),
             if bool_decide (kv.1 ∈ ["offset"; "length"]) then op
             else dset kv.1 (VStr kv.2) op)
          op kv in
  let op :=
    if String.eqb kind "textStyle"
    then foldl (λ op k, normalize_flag k op) op
           ["bold"; "italic"; "underline"; "superscript"; "subscript"]
    else op in
  normalize_flag "continued" op.

(** [parse_custom_ops(custom_str)] *)
Definition parse_custom_ops (custom_str : string)
  : list (list (string * pyval)) :=
  map (λ tok : string * string, parse_token tok.1 (kv_of tok.2))
      (tokens_of custom_str).

End Parser.

(** ** The standalone element builders *)

(** The list [adj_styles] of the builders: the style operations that lie
    inside the span of [witness_text], which starts at [global_offset] in
    the line, with [offset] and [end] counted from the start of the span. *)
Definition adjust_styles (witness_text : string) (inner_style_ops : list op)
    (global_offset : Z) : list op :=
  omap (λ o,
          if (global_offset <=? op_offset o)
             && (op_end o <=? global_offset + Str.len witness_text)
          then Some (Op (op_kind o) (op_offset o - global_offset) (op_length o)
                        (op_end o - global_offset) (op_attrs o))
          else None)
       inner_style_ops.

(** [build_choice_with_styles(kind, witness_text, alt_text, inner_style_ops,
    global_offset)] *)
Definition build_choice_with_styles (kind witness_text alt_text : string)
    (inner_style_ops : list op) (global_offset : Z) : Element :=
  let '(a_tag, b_tag, first_text, second_text) :=
    if String.eqb kind "abbrev" then ("abbr", "expan", witness_text, alt_text)
    else if String.eqb kind "sic" then ("sic", "corr", witness_text, alt_text)
    else if String.eqb kind "regularised"
    then ("orig", "reg", alt_text, witness_text)
    else ("orig", "reg", witness_text, alt_text) in
  let a := new_element (qn a_tag) in
  let adj_styles := adjust_styles witness_text inner_style_ops global_offset in
  if String.eqb kind "regularised" then
    let a := set_text a (Some first_text) in
    let b := build_styled_nodes (new_element (qn b_tag)) second_text adj_styles in
    choice_of a b
  else
    let a := build_styled_nodes a first_text adj_styles in
    let b := set_text (new_element (qn b_tag)) (Some second_text) in
    choice_of a b.

(** [build_num_with_styles(witness_text, num_op, inner_style_ops,
    global_offset)] *)
Definition build_num_with_styles (witness_text : string) (num_op : op)
    (inner_style_ops : list op) (global_offset : Z) : Element :=
  let num := new_element (qn "num") in
  let num := copy_attr num_op "type" "type" id num in
  let num := copy_attr num_op "value" "value" id num in
  build_styled_nodes num witness_text
    (adjust_styles witness_text inner_style_ops global_offset).

(** ["true" if parse_bool(v) else "false"] *)
Definition normalized_bool (v : string) : string :=
  if Parser.parse_bool (Parser.VStr v) then "true" else "false".

(** [build_persName(witness_text, person_op, inner_style_ops,
    global_offset)] *)
Definition build_persName (witness_text : string) (person_op : op)
    (inner_style_ops : list op) (global_offset : Z) : Element :=
  let persName := new_element (qn "persName") in
  let persName := copy_attr person_op "type" "type" id persName in
  let persName := copy_attr person_op "wikiData" "ref" wikidata_url persName in
  let persName := copy_attr person_op "firstname" "firstname" id persName in
  let persName :=
    copy_attr person_op "continued" "continued" normalized_bool persName in
  build_styled_nodes persName witness_text
    (adjust_styles witness_text inner_style_ops global_offset).

(** [build_placeName(witness_text, place_op, inner_style_ops,
    global_offset)] *)
Definition build_placeName (witness_text : string) (place_op : op)
    (inner_style_ops : list op) (global_offset : Z) : Element :=
  let placeName :=
    build_styled_nodes (new_element (qn "placeName")) witness_text
      (adjust_styles witness_text inner_style_ops global_offset) in
  foldl (λ el attr, match op_get place_op attr with
                    | Some v => sub_element_with_text el attr v
                    | None => el
                    end)
        placeName ["country"; "region"; "settlement"; "district"].

(** [build_ref(witness_text, ref_op, inner_style_ops, global_offset)] *)
Definition build_ref (witness_text : string) (ref_op : op)
    (inner_style_ops : list op) (global_offset : Z) : Element :=
  let ref := new_element (qn "ref") in
  let ref := copy_attr ref_op "type" "type" id ref in
  let ref := copy_attr ref_op "target" "target" id ref in
  build_styled_nodes ref witness_text
    (adjust_styles witness_text inner_style_ops global_offset).

(** [build_unclear(witness_text, unclear_op, inner_style_ops,
    global_offset)] *)
Definition build_unclear (witness_text : string) (unclear_op : op)
    (inner_style_ops : list op) (global_offset : Z) : Element :=
  let unclear := new_element (qn "unclear") in
  let unclear := copy_attr unclear_op "reason" "reason" id unclear in
  build_styled_nodes unclear witness_text
    (adjust_styles witness_text inner_style_ops global_offset).

(** [build_fallback_seg(witness_text, op, inner_style_ops, global_offset)],
    up to its [return]; the statements after it are never run. *)
Definition build_fallback_seg (witness_text : string) (o : op)
    (inner_style_ops : list op) (global_offset : Z) : Element :=
  let seg := set_attr (new_element (qn "seg")) "type" (op_kind o) in
  let seg :=
    foldl (λ seg kv, set_attr seg ("data-" +:+ kv.1) kv.2) seg (op_attrs o) in
  build_styled_nodes seg witness_text
    (adjust_styles witness_text inner_style_ops global_offset).

(** ** Lines of a page *)

(** The record [op] of an operation dictionary of [parse_custom_ops]:
    [kind] holds a string, [offset] and [length] hold integers, and the
    attributes of the token are strings.  The renderer reads [end] as an
    integer, and [None] is returned for a dictionary that holds a string
    under [end], the case of a token with an attribute named [end] of its
    own: such a dictionary has no record. *)
Definition op_of_dict (d : list (string * Parser.pyval)) : option op :=
  match Parser.dget "kind" d, Parser.dget "offset" d,
        Parser.dget "length" d, Parser.dget "end" d with
  | Some (Parser.VStr k), Some (Parser.VInt o),
    Some (Parser.VInt l), Some (Parser.VInt e) =>
      Op k o l e <$>
        mapM (λ kv : string * Parser.pyval,
                match kv.2 with
                | Parser.VStr s => Some (kv.1, s)
                | Parser.VInt _ => None
                end)
             (filter (λ kv, kv.1 ∉ ["kind"; "offset"; "length"; "end"]) d)
  | _, _, _, _ => None
  end.

(** [o["length"] > 0] for a dictionary of [parse_custom_ops]. *)
Definition has_length (d : list (string * Parser.pyval)) : bool :=
  match Parser.dget "length" d with
  | Some (Parser.VInt l) => 0 <? l
  | _ => false
  end.

(** The operations a line is rendered from.  Every list that
    [build_inline_nodes_for_line] makes of its argument keeps the
    operations with a positive length only, and nothing else reads the
    argument: a dictionary without a positive length is left out here,
    whatever it holds under [end].  [None] is returned when an operation
    with a positive length holds a string under [end]; the renderer then
    raises [TypeError] where it reads that value (for a wrapper, in the
    sort key), which is not modelled. *)
Definition ops_of_dicts (ds : list (list (string * Parser.pyval)))
  : option (list op) :=
  mapM op_of_dict (filter (λ d, has_length d = true) ds).

(** The [ab] element of a line in [convert_page_to_tei]: the inline nodes
    are put into a new [ab], strings with [append_text] and elements with
    [append]; an [ab] left without text and without child receives the
    text of the line. *)
Definition fill_ab (inline_nodes : list Node) (text_val : string) : Element :=
  let ab := foldl insert_node (new_element (qn "ab")) inline_nodes in
  match text ab, subelems ab with
  | None, [] => set_text ab (Some text_val)
  | _, _ => ab
  end.

(** ** Splitting strings *)

Module Split.

(** [s.split()]: the maximal runs of characters that are not whitespace. *)
Fixpoint split_ws (s : string) : list string :=
  match s with
  | EmptyString => []
  | String c s' =>
      let rest := split_ws s' in
      if Str.isspace c then rest
      else
        let run_ends :=
          match s' with
          | String c' _ => Str.isspace c'
          | EmptyString => true
          end in
        match rest with
        | w :: ws => if run_ends then String c EmptyString :: rest else String c w :: ws
        | [] => [String c EmptyString]
        end
  end.

(** [s.split(sep)] for a separator of one character. *)
Fixpoint split_on (sep : ascii) (s : string) : list string :=
  match s with
  | EmptyString => [EmptyString]
  | String c s' =>
      if Ascii.eqb c sep then EmptyString :: split_on sep s'
      else
        match split_on sep s' with
        | w :: ws => String c w :: ws
        | [] => [String c EmptyString]
        end
  end.

(** [sub in s] *)
Fixpoint contains (sub s : string) : bool :=
  String.prefix sub s
  || match s with
     | EmptyString => false
     | String _ s' => contains sub s'
     end.

(** [os.path.basename(p)] with the separator [/]: what follows the last
    slash. *)
Fixpoint basename (p : string) : string :=
  match p with
  | EmptyString => EmptyString
  | String c p' =>
      if contains "/" p' then basename p'
      else if Ascii.eqb c "/" then p' else p
  end.

End Split.

(** [detect_edition_type(filename)] *)
Definition detect_edition_type (filename : string) : option string :=
  let basename := Parser.lower (Split.basename filename) in
  if Split.contains "_dip" basename || Split.contains "diplomatic" basename
  then Some "diplomatic"
  else if Split.contains "_trad" basename
          || Split.contains "translation" basename
          || Split.contains "trans" basename
  then Some "translation"
  else None.

(** The list [y_vals] of [get_y]: the integer after the first comma of
    every coordinate pair.  [None] stands for an exception (a pair without
    a comma, a value that is not an integer). *)
Definition y_values (coords : string) : option (list Z) :=
  mapM (λ c, Split.split_on "," c !! 1%nat ≫= Parser.py_int)
       (Split.split_ws coords).

(** [sum(y_vals) // len(y_vals)]; [None] stands for [ZeroDivisionError]. *)
Definition mean_floor (y_vals : list Z) : option Z :=
  match y_vals with
  | [] => None
  | _ => Some (foldr Z.add 0 y_vals `div` Z.of_nat (length y_vals))
  end.

(** [min(y_vals)]; [None] stands for [ValueError]. *)
Definition minimum (y_vals : list Z) : option Z :=
  match y_vals with
  | [] => None
  | y :: ys => Some (foldl Z.min y ys)
  end.

(** [get_y(baseline, points)] of [convert_page_to_tei] *)
Definition get_y (baseline points : option string) : Z :=
  let from_baseline :=
    if Str.truthy_opt baseline
    then y_values (Str.or_empty baseline) ≫= mean_floor
    else None in
  match from_baseline with
  | Some y => y
  | None =>
      let from_points :=
        if Str.truthy_opt points
        then y_values (Str.or_empty points) ≫= minimum
        else None in
      default 999999 from_points
  end.

(** ** Line order of a TEI file (fix_tractatus_order.py) *)

(** [s.replace(c, "")] for a single character [c]. *)
Fixpoint remove_char (c : ascii) (s : string) : string :=
  match s with
  | EmptyString => EmptyString
  | String c' s' =>
      if Ascii.eqb c' c then remove_char c s' else String c' (remove_char c s')
  end.

Section LineOrder.

(** The type of the vertical positions (floating-point numbers in the
    source), its comparison [<], and the two constants of [fix_file]: the
    position [999999.0] of a line without zone and the initial value [-1]
    of [prev_y].  [sorted] is modelled by the stable sort [sorted_by],
    which is what it computes when [<] is a strict weak order on the
    positions. *)
Context {K : Type}.
Variable lt : K → K → bool.
Variable far : K.
Variable minus_one : K.

(** An entry of the list [lines]. *)
Record line : Type :=
  Line { line_lb : Element;
         line_ab : option Element;
         line_zone_id : option string;
         line_avg_y : K }.

(** The entry built for an [lb] element and the [ab] element that follows
    it, if any; [zones] maps the identifier of a zone to its position. *)
Definition line_of (zones : gmap string K) (lb_elem : Element)
    (ab_elem : option Element) : line :=
  let facs := default "" (dict_get "facs" (attrib lb_elem)) in
  let zone_id := if Str.truthy facs then Some (remove_char "#" facs) else None in
  let avg_y :=
    match zone_id with
    | Some z => if Str.truthy z then default far (zones !! z) else far
    | None => far
    end in
  Line lb_elem ab_elem zone_id avg_y.

(** The loop that collects the [lb]/[ab] pairs among the children of the
    [div]. *)
Fixpoint collect_lines (zones : gmap string K) (children : list Element)
  : list line :=
  match children with
  | [] => []
  | elem :: rest =>
      if String.eqb (tag elem) (qn "lb") then
        match rest with
        | next :: rest' =>
            if String.eqb (tag next) (qn "ab")
            then line_of zones elem (Some next) :: collect_lines zones rest'
            else line_of zones elem None :: collect_lines zones rest
        | [] => [line_of zones elem None]
        end
      else collect_lines zones rest
  end.

(** The number of lines that lie above the line before them. *)
Fixpoint out_of_order (prev_y : K) (lines : list line) : nat :=
  match lines with
  | [] => 0
  | l :: lines' =>
      (if lt (line_avg_y l) prev_y then 1 else 0)
      + out_of_order (line_avg_y l) lines'
  end.

Definition sorted_lines (lines : list line) : list line :=
  sorted_by (λ x y, negb (lt (line_avg_y y) (line_avg_y x))) lines.

(** The elements appended for the line at position [i] of the sorted list:
    its [lb] with the new number, then its [ab] if it has one. *)
Definition numbered (i : nat) (l : line) : list Element :=
  set_attr (line_lb l) "n" (Parser.to_str (Parser.VInt (Z.of_nat (S i))))
  :: match line_ab l with Some ab_elem => [ab_elem] | None => [] end.

(** The children of the [div] after [fix_file]. *)
Definition fix_div (zones : gmap string K) (children : list Element)
  : list Element :=
  let lines := collect_lines zones children in
  if Nat.eqb (out_of_order minus_one lines) 0 then children
  else
    filter (λ child, tag child ∉ [qn "lb"; qn "ab"]) children
    ++ concat (imap numbered (sorted_lines lines)).

End LineOrder.

Arguments line : clear implicits.

(** * Properties *)

(** ** Strings *)

Module StrFacts.
Import Str.

Lemma app_nil_r s : s +:+ "" = s.
Proof. induction s; simpl; congruence. Qed.

Lemma app_assoc a b c : (a +:+ b) +:+ c = a +:+ b +:+ c.
Proof. induction a; simpl; congruence. Qed.

Lemma is_empty_true s : is_empty s = true ↔ s = "".
Proof. destruct s; simpl; naive_solver. Qed.

Lemma is_empty_false s : is_empty s = false ↔ s ≠ "".
Proof. destruct s; simpl; naive_solver. Qed.

Lemma truthy_true s : truthy s = true ↔ s ≠ "".
Proof. destruct s; simpl; naive_solver. Qed.

Lemma truthy_false s : truthy s = false ↔ s = "".
Proof. destruct s; simpl; naive_solver. Qed.

Lemma length_app a b :
  String.length (a +:+ b) = (String.length a + String.length b)%nat.
Proof. induction a; simpl; congruence. Qed.

Lemma take_drop n s : take n s +:+ drop n s = s.
Proof.
  revert s; induction n as [|n IH]; intros [|c s]; simpl; try done.
  by rewrite IH.
Qed.

Lemma take_0 s : take 0 s = "".
Proof. by destruct s. Qed.

Lemma take_all n s : (String.length s ≤ n)%nat → take n s = s.
Proof.
  revert s; induction n as [|n IH]; intros [|c s]; simpl; try done.
  - lia.
  - intros. rewrite IH; [done|lia].
Qed.

Lemma drop_all n s : (String.length s ≤ n)%nat → drop n s = "".
Proof.
  revert s; induction n as [|n IH]; intros [|c s]; simpl; try done.
  - lia.
  - intros. apply IH. lia.
Qed.

Lemma length_drop n s :
  String.length (drop n s) = (String.length s - n)%nat.
Proof.
  revert s; induction n as [|n IH]; intros [|c s]; simpl; try done.
Qed.

Lemma length_take n s :
  String.length (take n s) = (n `min` String.length s)%nat.
Proof.
  revert s; induction n as [|n IH]; intros [|c s]; simpl; try done.
  by rewrite IH.
Qed.

Lemma drop_drop n m s : drop n (drop m s) = drop (m + n) s.
Proof.
  revert s; induction m as [|m IH]; intros [|c s]; simpl; try done.
  by destruct n.
Qed.

Lemma take_plus n m s : take (n + m) s = take n s +:+ take m (drop n s).
Proof.
  revert s; induction n as [|n IH]; intros [|c s]; simpl; try done.
  - by destruct m.
  - by rewrite IH.
Qed.

(** Slices with indices inside the string. *)
Lemma slice_inside s a b :
  0 ≤ a → a ≤ b → b ≤ len s →
  slice s a b = take (Z.to_nat (b - a)) (drop (Z.to_nat a) s).
Proof.
  intros Ha Hab Hb. unfold slice, norm_index.
  destruct (Z.ltb_spec a 0), (Z.ltb_spec b 0); try lia.
  by rewrite !Z.min_l by lia.
Qed.

Lemma slice_full s : slice s 0 (len s) = s.
Proof.
  rewrite slice_inside by (unfold len; lia).
  simpl. rewrite Z.sub_0_r. unfold len. rewrite Nat2Z.id.
  by apply take_all.
Qed.

Lemma slice_app s a b c :
  0 ≤ a → a ≤ b → b ≤ c → c ≤ len s →
  slice s a b +:+ slice s b c = slice s a c.
Proof.
  intros. rewrite !slice_inside by lia.
  replace (Z.to_nat (c - a)) with (Z.to_nat (b - a) + Z.to_nat (c - b))%nat
    by lia.
  rewrite take_plus, drop_drop. do 3 f_equal. lia.
Qed.

Lemma slice_nil s a : 0 ≤ a → slice s a a = "".
Proof.
  intros. unfold slice, norm_index.
  destruct (Z.ltb_spec a 0); [lia|].
  by rewrite Z.sub_diag, take_0.
Qed.

Lemma length_slice s a b :
  0 ≤ a → a ≤ b → b ≤ len s → len (slice s a b) = b - a.
Proof.
  intros. rewrite slice_inside by done. unfold len in *.
  rewrite length_take, length_drop. lia.
Qed.

Lemma slice_empty_iff s a b :
  0 ≤ a → a ≤ b → b ≤ len s → slice s a b = "" ↔ a = b.
Proof.
  intros Ha Hab Hb. split.
  - intros Hs. pose proof (length_slice s a b Ha Hab Hb) as Hl.
    rewrite Hs in Hl. unfold len in Hl. simpl in Hl. lia.
  - intros ->. by apply slice_nil.
Qed.

(** Whitespace at both ends. *)
Lemma lspace_lstrip s : lspace s +:+ lstrip s = s.
Proof.
  induction s as [|c s IH]; simpl; [done|].
  destruct (isspace c); simpl; [by rewrite IH|done].
Qed.

Lemma rstrip_prefix s : take (String.length (rstrip s)) s = rstrip s.
Proof.
  induction s as [|c s IH]; simpl; [done|].
  destruct (is_empty (rstrip s) && isspace c) eqn:E; simpl; [done|].
  by rewrite IH.
Qed.

Lemma rstrip_rspace s : rstrip s +:+ rspace s = s.
Proof.
  unfold rspace. rewrite <- (rstrip_prefix s) at 1. apply take_drop.
Qed.

Lemma all_app p a b : all p (a +:+ b) = all p a && all p b.
Proof. induction a; simpl; [done|]. rewrite IHa. by rewrite andb_assoc. Qed.

Lemma lspace_all s : all isspace (lspace s) = true.
Proof. induction s as [|c s IH]; simpl; [done|]. destruct (isspace c) eqn:E; simpl; [|done]. by rewrite E. Qed.

Lemma rstrip_all_space s : all isspace s = true → rstrip s = "".
Proof.
  induction s as [|c s IH]; simpl; [done|].
  intros [Hc Hs]%andb_true_iff. by rewrite (IH Hs), Hc.
Qed.

Lemma rstrip_empty_all s : rstrip s = "" → all isspace s = true.
Proof.
  induction s as [|c s IH]; simpl; [done|].
  destruct (is_empty (rstrip s)) eqn:E; simpl.
  - apply is_empty_true in E. destruct (isspace c); [|done].
    intros _. by apply IH.
  - done.
Qed.

Lemma rspace_all s : all isspace (rspace s) = true.
Proof.
  unfold rspace. induction s as [|c s IH]; simpl; [done|].
  destruct (is_empty (rstrip s) && isspace c) eqn:E; simpl; [|done].
  apply andb_true_iff in E as [E Hc]. rewrite Hc. simpl.
  apply is_empty_true in E. by apply rstrip_empty_all.
Qed.

(** The first and the last character of a string. *)
Definition first_char (s : string) : option ascii :=
  match s with String c _ => Some c | EmptyString => None end.

Fixpoint last_char (s : string) : option ascii :=
  match s with
  | EmptyString => None
  | String c EmptyString => Some c
  | String _ s' => last_char s'
  end.

Definition starts_with_space (s : string) : bool :=
  match first_char s with Some c => isspace c | None => false end.

Definition ends_with_space (s : string) : bool :=
  match last_char s with Some c => isspace c | None => false end.

Lemma lstrip_no_lead s : starts_with_space (lstrip s) = false.
Proof.
  induction s as [|c s IH]; simpl; [done|].
  destruct (isspace c) eqn:E; [done|]. unfold starts_with_space. simpl. done.
Qed.

Lemma rstrip_no_trail s : ends_with_space (rstrip s) = false.
Proof.
  unfold ends_with_space.
  induction s as [|c s IH]; simpl; [done|].
  destruct (is_empty (rstrip s)) eqn:E; simpl.
  - apply is_empty_true in E. rewrite E. destruct (isspace c) eqn:Ec; simpl; [done|].
    by rewrite Ec.
  - destruct (rstrip s); [done|]. done.
Qed.

Lemma lspace_empty s : lspace s = "" ↔ starts_with_space s = false.
Proof.
  destruct s as [|c s]; simpl; [done|]. unfold starts_with_space. simpl.
  destruct (isspace c); split; congruence.
Qed.

Lemma lstrip_id s : starts_with_space s = false → lstrip s = s.
Proof.
  destruct s as [|c s]; simpl; [done|]. unfold starts_with_space. simpl.
  by intros ->.
Qed.

Lemma rstrip_id s : ends_with_space s = false → rstrip s = s.
Proof.
  unfold ends_with_space.
  induction s as [|c s IH]; simpl; [done|].
  destruct s as [|c' s].
  - simpl. by intros ->.
  - intros H. rewrite (IH H). simpl. done.
Qed.

Lemma rspace_empty s : rspace s = "" ↔ ends_with_space s = false.
Proof.
  split.
  - intros H. pose proof (rstrip_rspace s) as E. rewrite H, app_nil_r in E.
    rewrite <- E. apply rstrip_no_trail.
  - intros H. unfold rspace. rewrite (rstrip_id _ H). by apply drop_all.
Qed.

End StrFacts.

(** ** Plain segments *)

Lemma append_text_empty parent : append_text parent "" = parent.
Proof. done. Qed.

Lemma append_text_new tg s :
  s ≠ "" → append_text (new_element tg) s = set_text (new_element tg) (Some s).
Proof. intros H. unfold append_text. by destruct s. Qed.

Lemma build_styled_nodes_no_style parent t :
  build_styled_nodes parent t [] = append_text parent t.
Proof. done. Qed.

Lemma render_plain_segment_no_style t a b :
  render_plain_segment t [] a b =
  if Str.is_empty (Str.slice t a b) then [] else [NStr (Str.slice t a b)].
Proof.
  unfold render_plain_segment.
  destruct (Str.slice t a b) as [|c s] eqn:E; [done|].
  by rewrite filter_nil, build_styled_nodes_no_style.
Qed.

(** C8 (as amended): with an empty span list the line is rendered as the
    single plain run [t] when [t] is not empty, and as the empty sequence
    when [t] is empty. *)
Theorem render_no_spans t :
  build_inline_nodes_for_line t [] =
  Some (if Str.is_empty t then [] else [NStr t]).
Proof.
  unfold build_inline_nodes_for_line, render_line. simpl.
  rewrite render_plain_segment_no_style, StrFacts.slice_full.
  by destruct t.
Qed.

(** C8 (as stated) fails for the empty text: no run at all is produced,
    instead of a single run holding the empty string. *)
Lemma render_no_spans_empty_text :
  build_inline_nodes_for_line "" [] = Some []
  ∧ build_inline_nodes_for_line "" [] ≠ Some [NStr ""].
Proof. split; [reflexivity|discriminate]. Qed.

(** ** Stable sorting *)

Section Sorting.
Context {A : Type} (le : A → A → bool).

Lemma insert_by_Permutation x l : insert_by le x l ≡ₚ x :: l.
Proof.
  induction l as [|y l IH]; simpl; [done|].
  destruct (le x y); [done|]. rewrite IH. apply Permutation_swap.
Qed.

Lemma sorted_by_Permutation l : sorted_by le l ≡ₚ l.
Proof.
  induction l as [|x l IH]; simpl; [done|].
  by rewrite insert_by_Permutation, IH.
Qed.

Lemma sorted_by_length l : length (sorted_by le l) = length l.
Proof. by rewrite sorted_by_Permutation. Qed.

Lemma sorted_by_elem x l : x ∈ sorted_by le l ↔ x ∈ l.
Proof. by rewrite sorted_by_Permutation. Qed.

Hypothesis le_total : ∀ x y, le x y = true ∨ le y x = true.
Hypothesis le_trans : ∀ x y z, le x y = true → le y z = true → le x z = true.

Lemma insert_by_sorted x l :
  StronglySorted (λ a b, le a b = true) l →
  StronglySorted (λ a b, le a b = true) (insert_by le x l).
Proof.
  induction 1 as [|y l Hs IH Hy]; simpl.
  - repeat constructor.
  - destruct (le x y) eqn:E.
    + constructor; [by constructor|].
      constructor; [done|]. eapply Forall_impl; [exact Hy|]. eauto.
    + constructor; [done|].
      rewrite insert_by_Permutation. constructor; [|done].
      destruct (le_total x y); congruence.
Qed.

Lemma sorted_by_sorted l :
  StronglySorted (λ a b, le a b = true) (sorted_by le l).
Proof.
  induction l; simpl; [constructor|]. by apply insert_by_sorted.
Qed.

End Sorting.

Lemma StronglySorted_lookup {A} (R : A → A → Prop) l i j x y :
  StronglySorted R l → l !! i = Some x → l !! j = Some y → (i < j)%nat → R x y.
Proof.
  intros Hs. revert i j. induction Hs as [|z l Hs IH Hz]; intros i j Hi Hj Hij.
  - done.
  - destruct j as [|j]; [lia|]. destruct i as [|i]; simpl in *.
    + simplify_eq. rewrite Forall_forall in Hz. apply Hz.
      by eapply list_elem_of_lookup_2.
    + eapply IH; eauto. lia.
Qed.

(** Two strictly increasing lists with the same elements are equal. *)
Lemma strictly_sorted_unique (l1 l2 : list Z) :
  StronglySorted Z.lt l1 → StronglySorted Z.lt l2 →
  (∀ x, x ∈ l1 ↔ x ∈ l2) → l1 = l2.
Proof.
  intros H1. revert l2. induction H1 as [|x l1 H1 IH Hx]; intros l2 H2 Hel.
  - destruct l2 as [|y l2]; [done|].
    exfalso. eapply not_elem_of_nil. apply Hel. left.
  - destruct H2 as [|y l2 H2 Hy].
    { exfalso. eapply not_elem_of_nil. apply Hel. left. }
    rewrite Forall_forall in Hx, Hy.
    assert (x = y) as ->.
    { assert (x ∈ y :: l2) as Hxy by (apply Hel; left).
      assert (y ∈ x :: l1) as Hyx by (apply Hel; left).
      apply elem_of_cons in Hxy as [?|Hxy]; [done|].
      apply elem_of_cons in Hyx as [?|Hyx]; [done|].
      apply Hy in Hxy. apply Hx in Hyx. lia. }
    f_equal. apply IH; [done|]. intros z. split; intros Hz.
    + assert (z ∈ y :: l2) as Hz' by (apply Hel; by right).
      apply elem_of_cons in Hz' as [->|?]; [|done].
      apply Hx in Hz. lia.
    + assert (z ∈ y :: l1) as Hz' by (apply Hel; by right).
      apply elem_of_cons in Hz' as [->|?]; [|done].
      apply Hy in Hz. lia.
Qed.

Lemma Zleb_total x y : (x <=? y) = true ∨ (y <=? x) = true.
Proof. lia. Qed.

Lemma Zleb_trans x y z : (x <=? y) = true → (y <=? z) = true → (x <=? z) = true.
Proof. lia. Qed.

Lemma sorted_Z_strict (l : list Z) :
  NoDup l → StronglySorted Z.lt (sorted_Z l).
Proof.
  intros Hnd.
  assert (NoDup (sorted_Z l)) as Hnd'.
  { unfold sorted_Z. by rewrite sorted_by_Permutation. }
  pose proof (sorted_by_sorted Z.leb Zleb_total Zleb_trans l) as Hs.
  fold (sorted_Z l) in Hs. clear Hnd.
  induction Hs as [|x l' Hs IH Hx]; [constructor|].
  apply NoDup_cons in Hnd' as [Hx' Hnd'].
  constructor; [by apply IH|].
  rewrite Forall_forall in *. intros y Hy.
  specialize (Hx y Hy). assert (x ≠ y) by (intros ->; done). lia.
Qed.

(** The sorted cut points are the strictly increasing enumeration of the
    set. *)
Lemma sorted_elements (X : gset Z) (l : list Z) :
  StronglySorted Z.lt l → (∀ x, x ∈ X ↔ x ∈ l) →
  sorted_Z (elements X) = l.
Proof.
  intros Hl Hel. apply strictly_sorted_unique; [|done|].
  - apply sorted_Z_strict, NoDup_elements.
  - intros x. unfold sorted_Z. rewrite sorted_by_elem, elem_of_elements.
    by rewrite Hel.
Qed.

(** ** Elements *)

Lemma Element_ind (P : Element → Prop) :
  (∀ tg at_ tx cs tl, Forall P cs → P (Elem tg at_ tx cs tl)) →
  ∀ e, P e.
Proof.
  intros H. fix IH 1. intros [tg at_ tx cs tl]. apply H.
  induction cs as [|c cs IHcs]; constructor; [apply IH|apply IHcs].
Qed.

Section Gather.
Variable skip : string → bool.

Definition gather_list (cs : list Element) : string :=
  Str.concat (map (λ c, gather skip c +:+ Str.or_empty (tail c)) cs).

Lemma gather_unfold e :
  gather skip e =
  if skip (tag e) then ""
  else Str.or_empty (text e) +:+ gather_list (subelems e).
Proof.
  destruct e as [tg at_ tx cs tl]. simpl.
  destruct (skip tg); [done|]. f_equal.
  induction cs as [|c cs IH]; simpl; [done|]. by rewrite IH.
Qed.

Lemma gather_set_tail e tl : gather skip (set_tail e tl) = gather skip e.
Proof. by destruct e. Qed.

#[local] Arguments gather : simpl never.

Lemma concat_app l1 l2 :
  Str.concat (l1 ++ l2) = Str.concat l1 +:+ Str.concat l2.
Proof.
  induction l1 as [|x l1 IH]; simpl; [done|].
  by rewrite IH, StrFacts.app_assoc.
Qed.

Lemma gather_list_app cs1 cs2 :
  gather_list (cs1 ++ cs2) = gather_list cs1 +:+ gather_list cs2.
Proof. unfold gather_list. by rewrite map_app, concat_app. Qed.

Lemma gather_nodes_app n1 n2 :
  gather_nodes skip (n1 ++ n2) = gather_nodes skip n1 +:+ gather_nodes skip n2.
Proof. unfold gather_nodes. by rewrite map_app, concat_app. Qed.

Lemma gather_list_map_last s cs :
  cs ≠ [] →
  gather_list
    (map_last (λ l, set_tail l (Some (Str.or_empty (tail l) +:+ s))) cs)
  = gather_list cs +:+ s.
Proof.
  induction cs as [|c cs IH]; [done|]. intros _.
  destruct cs as [|c' cs].
  - unfold gather_list. simpl. rewrite !StrFacts.app_nil_r.
    by rewrite gather_set_tail, StrFacts.app_assoc.
  - change (map_last ?f (c :: c' :: cs)) with (c :: map_last f (c' :: cs)).
    change (c :: ?l) with ([c] ++ l). rewrite !gather_list_app.
    rewrite IH by done. by rewrite StrFacts.app_assoc.
Qed.

(** [append_text] appends to the text content of the parent. *)
Lemma gather_append_text parent s :
  skip (tag parent) = false →
  gather skip (append_text parent s) = gather skip parent +:+ s.
Proof.
  intros Hp. unfold append_text.
  destruct s as [|c s]; simpl; [by rewrite StrFacts.app_nil_r|].
  rewrite (gather_unfold parent), Hp.
  destruct parent as [tg at_ tx cs tl]; simpl in *.
  destruct cs as [|c0 cs].
  - destruct tx as [tx|]; rewrite gather_unfold; simpl; rewrite Hp;
      unfold gather_list; simpl; by rewrite ?StrFacts.app_nil_r.
  - assert (∀ tx', gather skip (set_subelems (Elem tg at_ tx' (c0 :: cs) tl)
           (map_last (λ l, set_tail l (Some (Str.or_empty (tail l) +:+ String c s)))
              (c0 :: cs)))
        = Str.or_empty tx' +:+ gather_list (c0 :: cs) +:+ String c s) as H.
    { intros tx'. unfold set_subelems. rewrite gather_unfold.
      cbn [tag text subelems]. rewrite Hp.
      rewrite gather_list_map_last by done. done. }
    destruct tx; rewrite H; by rewrite StrFacts.app_assoc.
Qed.

Lemma gather_append_child parent c :
  skip (tag parent) = false →
  gather skip (append_child parent c) =
  gather skip parent +:+ gather skip c +:+ Str.or_empty (tail c).
Proof.
  intros Hp. rewrite (gather_unfold parent), Hp, gather_unfold. simpl.
  rewrite Hp, gather_list_app. unfold gather_list at 2. simpl.
  by rewrite StrFacts.app_nil_r, !StrFacts.app_assoc.
Qed.

Lemma tag_append_text parent s : tag (append_text parent s) = tag parent.
Proof.
  unfold append_text. destruct (Str.is_empty s); [done|].
  destruct (text parent), (subelems parent); done.
Qed.

End Gather.

#[local] Arguments gather : simpl never.

(** ** Slicing a text at the cut points *)

Lemma clamp_range n i : 0 ≤ n → 0 ≤ clamp n i ≤ n.
Proof. unfold clamp. lia. Qed.

Lemma elem_of_cut_points n ranges x :
  x ∈ cut_points n ranges ↔
  x = 0 ∨ x = n ∨ ∃ r, r ∈ ranges ∧ (x = clamp n r.1.1 ∨ x = clamp n r.1.2).
Proof.
  unfold cut_points.
  assert (∀ X : gset Z,
    x ∈ foldl (λ cp r, cp ∪ {[clamp n r.1.1]} ∪ {[clamp n r.1.2]}) X ranges ↔
    x ∈ X ∨ ∃ r, r ∈ ranges ∧ (x = clamp n r.1.1 ∨ x = clamp n r.1.2)) as H.
  { induction ranges as [|r ranges IH]; intros X; simpl.
    - split; [by left|]. intros [?|(r & Hr & _)]; [done|].
      by apply not_elem_of_nil in Hr.
    - rewrite IH. rewrite !elem_of_union, !elem_of_singleton. split.
      + intros [[[?|?]|?]|(r' & Hr' & ?)]; eauto.
        * right. exists r. split; [left|]; eauto.
        * right. exists r. split; [left|]; eauto.
        * right. exists r'. split; [by right|]; eauto.
      + intros [?|(r' & Hr' & ?)]; eauto.
        apply elem_of_cons in Hr' as [->|?]; [naive_solver|].
        right. eauto. }
  rewrite H. rewrite elem_of_union, !elem_of_singleton. naive_solver.
Qed.

Definition cuts (t : string) (ranges : list (Z * Z * string)) : list Z :=
  sorted_Z (elements (cut_points (Str.len t) ranges)).

Lemma len_nonneg t : 0 ≤ Str.len t.
Proof. unfold Str.len. lia. Qed.

Lemma cuts_sorted t ranges : StronglySorted Z.lt (cuts t ranges).
Proof. apply sorted_Z_strict, NoDup_elements. Qed.

Lemma elem_of_cuts t ranges x :
  x ∈ cuts t ranges ↔ x ∈ cut_points (Str.len t) ranges.
Proof. unfold cuts, sorted_Z. by rewrite sorted_by_elem, elem_of_elements. Qed.

Lemma cuts_range t ranges x : x ∈ cuts t ranges → 0 ≤ x ≤ Str.len t.
Proof.
  rewrite elem_of_cuts, elem_of_cut_points. pose proof (len_nonneg t).
  intros [->|[->|(r & _ & [->| ->])]]; try lia; by apply clamp_range.
Qed.

(** The texts of the segments between consecutive cut points, in order,
    make up the slice between the first and the last cut point. *)
Definition segment_of (t : string) (ranges : list (Z * Z * string))
    (se : Z * Z) : option (Z * Z * string * gset string) :=
  let '(s, e) := se in
  if s =? e then None
  else Some (s, e, Str.slice t s e, labels_of ranges s e).

Lemma slice_text_nodes_unfold t ranges :
  slice_text_nodes t ranges = omap (segment_of t ranges) (adjacent (cuts t ranges)).
Proof. done. Qed.

Lemma segments_cover t ranges x l y :
  StronglySorted Z.lt (x :: l) →
  Forall (λ z, 0 ≤ z ≤ Str.len t) (x :: l) →
  last (x :: l) = Some y →
  Str.concat (map (λ seg, seg.1.2) (omap (segment_of t ranges) (adjacent (x :: l))))
  = Str.slice t x y ∧ x ≤ y.
Proof.
  revert x. induction l as [|z l IH]; intros x Hs Hr Hl.
  - simpl in *. simplify_eq. split; [|lia].
    apply Forall_cons in Hr as [Hx _]. rewrite StrFacts.slice_nil; [done|lia].
  - apply StronglySorted_inv in Hs as [Hs Hx].
    apply Forall_cons in Hr as [Hrx Hr].
    apply Forall_cons in Hx as [Hxz _].
    destruct (IH z Hs Hr) as [IH1 IH2]; [done|].
    assert (y ≤ Str.len t).
    { rewrite Forall_forall in Hr. apply Hr.
      change (last (x :: z :: l)) with (last (z :: l)) in Hl.
      by apply last_Some_elem_of. }
    split; [|lia].
    change (adjacent (x :: z :: l)) with ((x, z) :: adjacent (z :: l)).
    cbn [omap list_omap segment_of].
    destruct (Z.eqb_spec x z); [lia|].
    cbn [map Str.concat fst snd]. rewrite IH1.
    apply StrFacts.slice_app; lia.
Qed.

Lemma cuts_cover t ranges :
  Str.concat (map (λ seg, seg.1.2) (slice_text_nodes t ranges)) = t.
Proof.
  rewrite slice_text_nodes_unfold.
  pose proof (cuts_sorted t ranges) as Hs.
  assert (Forall (λ z, 0 ≤ z ≤ Str.len t) (cuts t ranges)) as Hr.
  { apply Forall_forall. intros z. apply cuts_range. }
  assert (0 ∈ cuts t ranges) as H0.
  { rewrite elem_of_cuts, elem_of_cut_points. by left. }
  assert (Str.len t ∈ cuts t ranges) as Hn.
  { rewrite elem_of_cuts, elem_of_cut_points. right. by left. }
  destruct (cuts t ranges) as [|x l] eqn:E.
  { by apply not_elem_of_nil in H0. }
  destruct (last (x :: l)) as [y|] eqn:El; [|by apply last_None in El].
  destruct (segments_cover t ranges x l y Hs Hr El) as [-> _].
  assert (x = 0) as ->.
  { apply Forall_cons in Hr as [Hx _].
    apply StronglySorted_inv in Hs as [_ Hs]. rewrite Forall_forall in Hs.
    apply elem_of_cons in H0 as [?|H0]; [done|]. apply Hs in H0. lia. }
  assert (y = Str.len t) as ->.
  { assert (y ∈ 0 :: l) as Hy by (by apply last_Some_elem_of).
    rewrite Forall_forall in Hr. pose proof (Hr _ Hy).
    apply list_elem_of_lookup in Hn as [i Hi].
    rewrite last_lookup in El.
    destruct (decide (i = pred (length (0 :: l)))) as [->|Hne]; [congruence|].
    pose proof (lookup_lt_Some _ _ _ Hi).
    pose proof (StronglySorted_lookup _ _ _ _ _ _ Hs Hi El). simpl in *. lia. }
  apply StrFacts.slice_full.
Qed.

(** ** Styled nodes *)

Section GatherStyled.
Variable skip : string → bool.
Hypothesis skip_hi : skip (qn "hi") = false.

Lemma gather_hi_element labels seg :
  gather skip (hi_element labels seg) = seg.
Proof.
  rewrite gather_unfold. cbn [hi_element tag set_text set_attr new_element text subelems].
  rewrite skip_hi. unfold gather_list. simpl. apply StrFacts.app_nil_r.
Qed.

Lemma tag_styled_segment parent seg labels :
  tag (styled_segment parent seg labels) = tag parent.
Proof.
  unfold styled_segment. repeat case_match; by rewrite ?tag_append_text.
Qed.

Lemma gather_styled_segment parent seg labels :
  skip (tag parent) = false →
  gather skip (styled_segment parent seg labels) = gather skip parent +:+ seg.
Proof.
  intros Hp. unfold styled_segment.
  repeat case_match; rewrite ?gather_append_text by done; try done.
  rewrite gather_append_child by done. rewrite gather_hi_element.
  simpl. by rewrite StrFacts.app_nil_r.
Qed.

Lemma gather_styled_segments parent segs :
  skip (tag parent) = false →
  let r := foldl (λ p (seg : Z * Z * string * gset string),
                    styled_segment p seg.1.2 seg.2) parent segs in
  tag r = tag parent ∧
  gather skip r = gather skip parent +:+ Str.concat (map (λ seg, seg.1.2) segs).
Proof.
  revert parent. induction segs as [|seg segs IH]; intros parent Hp; simpl.
  - by rewrite StrFacts.app_nil_r.
  - destruct (IH (styled_segment parent seg.1.2 seg.2)) as [IH1 IH2].
    { by rewrite tag_styled_segment. }
    rewrite IH1, IH2, tag_styled_segment.
    rewrite gather_styled_segment by done.
    by rewrite StrFacts.app_assoc.
Qed.

Lemma tag_build_styled_nodes parent t styles :
  tag (build_styled_nodes parent t styles) = tag parent.
Proof.
  unfold build_styled_nodes. destruct (style_ranges styles) as [|r rs].
  - apply tag_append_text.
  - generalize (slice_text_nodes t (r :: rs)). intros segs.
    revert parent. induction segs as [|seg segs IH]; intros parent; simpl; [done|].
    by rewrite IH, tag_styled_segment.
Qed.

(** [build_styled_nodes] appends exactly the text [t] to the content of
    the parent. *)
Lemma gather_build_styled_nodes parent t styles :
  skip (tag parent) = false →
  gather skip (build_styled_nodes parent t styles) = gather skip parent +:+ t.
Proof.
  intros Hp. unfold build_styled_nodes.
  destruct (style_ranges styles) as [|r rs].
  - by apply gather_append_text.
  - destruct (gather_styled_segments parent (slice_text_nodes t (r :: rs)) Hp)
      as [_ ->].
    by rewrite cuts_cover.
Qed.

End GatherStyled.

(** ** A single style span *)

Lemma labels_of_single a b lab s e :
  labels_of [(a, b, lab)] s e =
  if (a <=? s) && (e <=? b) && (a <? b) then {[lab]} else ∅.
Proof.
  unfold labels_of. simpl.
  destruct ((a <=? s) && (e <=? b) && (a <? b)); simpl; [|done].
  apply set_eq. intros x. set_solver.
Qed.

Lemma slice_text_nodes_single t a b lab :
  0 ≤ a → a < b → b ≤ Str.len t →
  slice_text_nodes t [(a, b, lab)] =
  (if 0 <? a then [(0, a, Str.slice t 0 a, ∅)] else [])
  ++ [(a, b, Str.slice t a b, {[lab]})]
  ++ (if b <? Str.len t then [(b, Str.len t, Str.slice t b (Str.len t), ∅)] else []).
Proof.
  intros Ha Hab Hb. rewrite slice_text_nodes_unfold.
  assert (cuts t [(a, b, lab)] =
          (if 0 <? a then [0] else []) ++ [a; b]
          ++ (if b <? Str.len t then [Str.len t] else [])) as ->.
  { apply sorted_elements.
    - destruct (Z.ltb_spec 0 a), (Z.ltb_spec b (Str.len t)); simpl;
        repeat (constructor; [|repeat constructor; lia]); constructor.
    - intros x. rewrite elem_of_cut_points. split.
      + intros [->|[->|(r & ->%list_elem_of_singleton & Hx)]];
          [| |simpl in Hx; unfold clamp in Hx];
          destruct (Z.ltb_spec 0 a), (Z.ltb_spec b (Str.len t)); simpl;
          rewrite ?elem_of_cons; lia.
      + intros Hx.
        assert (x = 0 ∨ x = Str.len t ∨ x = a ∨ x = b) as Hx'.
        { destruct (Z.ltb_spec 0 a), (Z.ltb_spec b (Str.len t)); simpl in Hx;
            rewrite ?elem_of_cons in Hx; rewrite ?elem_of_nil in Hx; lia. }
        destruct Hx' as [?|[?|Hx']]; [by left|right; by left|].
        right; right. exists (a, b, lab). split; [left|].
        simpl. unfold clamp. lia. }
  destruct (Z.ltb_spec 0 a), (Z.ltb_spec b (Str.len t)); simpl;
    rewrite ?labels_of_single;
    repeat match goal with
      | |- context [?x =? ?y] => destruct (Z.eqb_spec x y); [lia|]
      | |- context [?x <=? ?y] => destruct (Z.leb_spec x y); try lia
      | |- context [?x <? ?y] => destruct (Z.ltb_spec x y); try lia
      end; simpl; try done; destruct a; (done || lia).
Qed.

(** ** Lines without wrappers *)

(** Closed decidable propositions are settled by evaluation. *)
Ltac by_compute := apply (bool_decide_unpack _); vm_compute; exact I.

Lemma filter_none {A} (P : A → Prop) `{∀ x, Decision (P x)} (l : list A) :
  Forall (λ x, ¬ P x) l → filter P l = [].
Proof.
  induction 1 as [|x l Hx _ IH]; [done|].
  rewrite filter_cons. by destruct (decide (P x)).
Qed.

Definition is_wrapper (o : op) : Prop :=
  op_kind o ≠ "textStyle" ∧ 0 < op_length o.

Lemma of_kind_no_wrapper kinds ops :
  "textStyle" ∉ kinds → Forall (λ o, ¬ is_wrapper o) ops → of_kind kinds ops = [].
Proof.
  intros Hk Hops. apply filter_none. eapply Forall_impl; [exact Hops|].
  intros o Ho [Hin Hlen]. apply Ho. split; [|done]. intros E. by rewrite E in Hin.
Qed.

Lemma wrappers_no_wrapper ops :
  Forall (λ o, ¬ is_wrapper o) ops → wrappers ops = [].
Proof.
  intros Hops. unfold wrappers, person_ops, place_ops, ref_ops, unclear_ops,
    choice_ops, num_ops, other_ops.
  rewrite !of_kind_no_wrapper by (done || by_compute).
  rewrite filter_none; [done|].
  eapply Forall_impl; [exact Hops|].
  intros o Ho [Hin Hlen]. apply Ho. split; [|done].
  intros E. apply Hin. rewrite E. by_compute.
Qed.

Lemma person_ops_no_wrapper ops :
  Forall (λ o, ¬ is_wrapper o) ops → person_ops ops = [].
Proof.
  intros. apply of_kind_no_wrapper; [by_compute|done].
Qed.

(** Without wrappers the line is one plain segment. *)
Lemma render_no_wrapper t ops :
  Forall (λ o, ¬ is_wrapper o) ops →
  build_inline_nodes_for_line t ops =
  Some (render_plain_segment t (style_ops ops) 0 (Str.len t)).
Proof.
  intros Hops. unfold build_inline_nodes_for_line, render_line, unify.
  rewrite wrappers_no_wrapper, person_ops_no_wrapper by done. done.
Qed.

(** A run of text as a node list: nothing for the empty string. *)
Definition plain (s : string) : list Node :=
  if Str.is_empty s then [] else [NStr s].

Lemma slice_nonempty_text t a b : Str.slice t a b ≠ "" → t ≠ "".
Proof.
  intros H ->. apply H. unfold Str.slice.
  rewrite StrFacts.drop_all by (simpl; lia).
  by destruct (Z.to_nat _).
Qed.

Lemma style_ranges_single s :
  rend_of s ≠ [] →
  style_ranges [s] = [(op_offset s, op_end s, Str.join " " (rend_of s))].
Proof. intros H. unfold style_ranges. simpl. by destruct (rend_of s). Qed.

Lemma sorted_str_singleton (lab : string) :
  sorted_str (elements ({[lab]} : gset string)) = [lab].
Proof. by rewrite elements_singleton. Qed.



(** The [hi] element of a single style span over the slice [seg]. *)
Definition hi_of (s : op) (seg : string) : Element :=
  Elem (qn "hi") [("rend", Str.join " " (rend_of s))] (Some seg) [] None.

Lemma hi_element_single s seg :
  hi_element {[Str.join " " (rend_of s)]} seg = hi_of s seg.
Proof. unfold hi_element. by rewrite sorted_str_singleton. Qed.


(** ** Whitespace-only style spans *)



(** ** Punctuation-only style spans *)

(** [p] holds of [e] and of all its descendants. *)
Fixpoint every_element (p : Element → bool) (e : Element) : bool :=
  match e with
  | Elem tg at_ tx cs tl =>
      p e && (fix go (cs : list Element) : bool :=
                match cs with
                | [] => true
                | c :: cs' => every_element p c && go cs'
                end) cs
  end.

Definition every_node (p : Element → bool) (nodes : list Node) : bool :=
  forallb (λ n, match n with NStr _ => true | NElem e => every_element p e end)
          nodes.

(** A [hi] element holds a text that is not reduced to punctuation. *)
Definition hi_ok (e : Element) : bool :=
  if String.eqb (tag e) (qn "hi")
  then match text e with
       | Some s => negb (punctuation_only s)
       | None => false
       end
  else true.

Lemma every_element_unfold p e :
  every_element p e = p e && forallb (every_element p) (subelems e).
Proof.
  by destruct e.
Qed.

#[local] Arguments every_element : simpl never.

Lemma every_node_app p n1 n2 :
  every_node p (n1 ++ n2) = every_node p n1 && every_node p n2.
Proof. unfold every_node. apply forallb_app. Qed.

Lemma forallb_map_last {A} (f : A → bool) (g : A → A) l :
  (∀ x, f (g x) = f x) → forallb f (map_last g l) = forallb f l.
Proof.
  intros H. induction l as [|x l IH]; [done|].
  destruct l as [|y l]; simpl in *; [by rewrite H|]. by rewrite IH.
Qed.

Section HiOk.

Definition no_hi (e : Element) : Prop := tag e ≠ qn "hi".

Lemma hi_ok_no_hi e : no_hi e → hi_ok e = true.
Proof.
  unfold no_hi, hi_ok. intros H.
  destruct (String.eqb_spec (tag e) (qn "hi")); done.
Qed.

Lemma every_set_tail e x :
  every_element hi_ok (set_tail e x) = every_element hi_ok e.
Proof. by rewrite !every_element_unfold. Qed.

Lemma every_no_hi e :
  no_hi e →
  every_element hi_ok e = forallb (every_element hi_ok) (subelems e).
Proof. intros H. by rewrite every_element_unfold, hi_ok_no_hi. Qed.

Lemma every_set_text e x :
  no_hi e → every_element hi_ok (set_text e x) = every_element hi_ok e.
Proof. intros H. by rewrite !every_no_hi. Qed.

Lemma every_set_attr e k v :
  every_element hi_ok (set_attr e k v) = every_element hi_ok e.
Proof. by rewrite !every_element_unfold. Qed.

Lemma every_append_text parent s :
  no_hi parent →
  every_element hi_ok (append_text parent s) = every_element hi_ok parent.
Proof.
  intros H. unfold append_text. destruct (Str.is_empty s); [done|].
  destruct (text parent) eqn:Et, (subelems parent) eqn:Ec;
    rewrite ?every_set_text by done; try done.
  all: rewrite every_no_hi by done; rewrite (every_no_hi parent) by done;
    cbn [set_subelems subelems]; rewrite Ec;
    apply forallb_map_last; intros; apply every_set_tail.
Qed.

Lemma every_append_child parent c :
  every_element hi_ok (append_child parent c)
  = every_element hi_ok parent && every_element hi_ok c.
Proof.
  rewrite (every_element_unfold _ (append_child _ _)), (every_element_unfold _ parent).
  cbn [append_child set_subelems subelems]. rewrite forallb_app. simpl.
  rewrite andb_true_r, andb_assoc. done.
Qed.

Lemma no_hi_append_text parent s : no_hi parent → no_hi (append_text parent s).
Proof. unfold no_hi. by rewrite tag_append_text. Qed.

Lemma every_hi_element labels seg :
  punctuation_only seg = false → every_element hi_ok (hi_element labels seg) = true.
Proof. intros H. rewrite every_element_unfold. unfold hi_ok. simpl. by rewrite H. Qed.

Lemma every_styled_segment parent seg labels :
  no_hi parent → every_element hi_ok parent = true →
  every_element hi_ok (styled_segment parent seg labels) = true.
Proof.
  intros Hn Hp. unfold styled_segment.
  destruct (decide (labels = ∅)); [by rewrite every_append_text|].
  destruct (punctuation_only seg) eqn:E; [by rewrite every_append_text|].
  by rewrite every_append_child, Hp, every_hi_element.
Qed.

Lemma every_build_styled_nodes parent t styles :
  no_hi parent → every_element hi_ok parent = true →
  every_element hi_ok (build_styled_nodes parent t styles) = true.
Proof.
  intros Hn Hp. unfold build_styled_nodes.
  destruct (style_ranges styles) as [|r rs]; [by rewrite every_append_text|].
  generalize (slice_text_nodes t (r :: rs)). intros segs.
  revert parent Hn Hp. induction segs as [|seg segs IH]; intros parent Hn Hp; [done|].
  simpl. apply IH.
  - unfold no_hi. by rewrite tag_styled_segment.
  - by apply every_styled_segment.
Qed.

Lemma every_holder_nodes tmp :
  every_element hi_ok tmp = true → every_node hi_ok (holder_nodes tmp) = true.
Proof.
  rewrite every_element_unfold. intros [_ H]%andb_true_iff.
  unfold holder_nodes. rewrite every_node_app.
  apply andb_true_iff. split; [by destruct (Str.truthy_opt (text tmp))|].
  induction (subelems tmp) as [|c cs IH]; [done|].
  simpl in H. apply andb_true_iff in H as [Hc Hcs].
  simpl. rewrite every_node_app, IH by done. rewrite andb_true_r.
  unfold child_nodes. destruct (Str.truthy_opt (tail c)); simpl;
    by rewrite ?every_set_tail, Hc.
Qed.

Lemma every_render_plain_segment t styles a b :
  every_node hi_ok (render_plain_segment t styles a b) = true.
Proof.
  unfold render_plain_segment. destruct (Str.is_empty _); [done|].
  apply every_holder_nodes, every_build_styled_nodes; done.
Qed.

End HiOk.

(** *** Wrapper elements keep the [hi] elements they receive *)

Lemma tag_foldl_insert_node tmp nodes :
  tag (foldl insert_node tmp nodes) = tag tmp.
Proof.
  revert tmp. induction nodes as [|n nodes IH]; intros tmp; [done|].
  simpl. rewrite IH. destruct n; [apply tag_append_text|done].
Qed.

Lemma every_foldl_insert_node tmp nodes :
  no_hi tmp → every_element hi_ok tmp = true → every_node hi_ok nodes = true →
  every_element hi_ok (foldl insert_node tmp nodes) = true.
Proof.
  revert tmp. induction nodes as [|n nodes IH]; intros tmp Hn Ht Hnodes; [done|].
  simpl in *. apply andb_true_iff in Hnodes as [Hn1 Hnodes].
  apply IH; [|  |done].
  - unfold no_hi. destruct n; simpl; [by rewrite tag_append_text|done].
  - destruct n; simpl; [by rewrite every_append_text|].
    by rewrite every_append_child, Ht, Hn1.
Qed.

Lemma tag_extract_lead tmp : tag (extract_lead tmp).2 = tag tmp.
Proof. unfold extract_lead. repeat case_match; done. Qed.

Lemma tag_extract_trail tmp : tag (extract_trail tmp).2 = tag tmp.
Proof. unfold extract_trail. repeat case_match; done. Qed.

Lemma every_extract_lead tmp :
  no_hi tmp →
  every_element hi_ok (extract_lead tmp).2 = every_element hi_ok tmp.
Proof.
  intros H. unfold extract_lead. repeat case_match; try done.
  simpl. by apply every_set_text.
Qed.

Lemma every_extract_trail tmp :
  no_hi tmp →
  every_element hi_ok (extract_trail tmp).2 = every_element hi_ok tmp.
Proof.
  intros H. unfold extract_trail. repeat case_match; try done; simpl.
  - rewrite !every_no_hi by done. cbn [set_subelems subelems].
    apply forallb_map_last. intros. apply every_set_tail.
  - by apply every_set_text.
Qed.

Lemma every_foldl_append_child target cs :
  every_element hi_ok (foldl append_child target cs)
  = every_element hi_ok target && forallb (every_element hi_ok) cs.
Proof.
  revert target. induction cs as [|c cs IH]; intros target; simpl.
  - by rewrite andb_true_r.
  - by rewrite IH, every_append_child, andb_assoc.
Qed.

Lemma tag_foldl_append_child target cs :
  tag (foldl append_child target cs) = tag target.
Proof. revert target. induction cs as [|c cs IH]; intros target; simpl; [done|]. by rewrite IH. Qed.

Lemma populate_tag target nodes :
  tag (populate_target_with_nodes target nodes).1.2 = tag target.
Proof.
  unfold populate_target_with_nodes.
  destruct (extract_lead _) as [lead tmp1].
  destruct (extract_trail tmp1) as [trail tmp]. cbn [fst snd].
  rewrite tag_foldl_append_child. by destruct (Str.truthy_opt (text tmp)).
Qed.

Lemma every_populate target nodes :
  no_hi target → every_element hi_ok target = true →
  every_node hi_ok nodes = true →
  every_element hi_ok (populate_target_with_nodes target nodes).1.2 = true.
Proof.
  intros Hn Ht Hnodes. unfold populate_target_with_nodes.
  pose proof (every_foldl_insert_node (new_element "tmp") nodes) as H0.
  pose proof (tag_foldl_insert_node (new_element "tmp") nodes) as T0.
  set (tmp0 := foldl insert_node (new_element "tmp") nodes) in *.
  pose proof (every_extract_lead tmp0) as H1.
  pose proof (tag_extract_lead tmp0) as T1.
  destruct (extract_lead tmp0) as [lead tmp1]. cbn [fst snd] in *.
  pose proof (every_extract_trail tmp1) as H2.
  destruct (extract_trail tmp1) as [trail tmp]. cbn [fst snd] in *.
  assert (no_hi tmp0) as N0 by (unfold no_hi; by rewrite T0).
  assert (no_hi tmp1) as N1 by (unfold no_hi; by rewrite T1, T0).
  rewrite H1, H0 in H2 by done.
  rewrite every_foldl_append_child.
  rewrite every_element_unfold in H2. apply andb_true_iff in H2 as [_ ->]; [|done].
  rewrite andb_true_r. destruct (Str.truthy_opt (text tmp)); [|done].
  by rewrite every_set_text.
Qed.

Lemma every_built lead trail el :
  every_node hi_ok (built_nodes (maybe_wrap_with_edge_whitespace lead trail el))
  = every_element hi_ok el.
Proof.
  unfold maybe_wrap_with_edge_whitespace.
  destruct (Str.truthy lead) eqn:E1, (Str.truthy trail) eqn:E2; simpl;
    rewrite ?E1, ?E2; simpl; by rewrite ?andb_true_r.
Qed.

Lemma every_copy_attr w k name f el :
  every_element hi_ok (copy_attr w k name f el) = every_element hi_ok el.
Proof. unfold copy_attr. destruct (op_get w k); [apply every_set_attr|done]. Qed.

Lemma tag_copy_attr w k name f el : tag (copy_attr w k name f el) = tag el.
Proof. unfold copy_attr. by destruct (op_get w k). Qed.

Lemma tag_persName_for w : tag (persName_for w) = qn "persName".
Proof. unfold persName_for. case_bool_decide; simpl; by rewrite !tag_copy_attr. Qed.

Lemma every_persName_for w : every_element hi_ok (persName_for w) = true.
Proof.
  unfold persName_for. case_bool_decide; rewrite ?every_set_attr, !every_copy_attr; done.
Qed.

Lemma every_choice_of a b :
  every_element hi_ok (choice_of a b)
  = every_element hi_ok a && every_element hi_ok b.
Proof. unfold choice_of. by rewrite !every_append_child. Qed.

Lemma every_omap_is_element nodes :
  every_node hi_ok nodes = true →
  forallb (every_element hi_ok) (omap is_element nodes) = true.
Proof.
  induction nodes as [|[s|e] nodes IH]; simpl; [done|done|].
  intros [-> H]%andb_true_iff. simpl. by apply IH.
Qed.

Lemma every_node_filter (P : Node → Prop) `{∀ n, Decision (P n)} nodes :
  every_node hi_ok nodes = true → every_node hi_ok (filter P nodes) = true.
Proof.
  induction nodes as [|n nodes IH]; [done|]. simpl.
  intros [Hn Hnodes]%andb_true_iff. rewrite filter_cons.
  destruct (decide (P n)); simpl; rewrite ?Hn; by apply IH.
Qed.

Lemma every_node_map_NElem cs :
  every_node hi_ok (map NElem cs) = forallb (every_element hi_ok) cs.
Proof. induction cs as [|c cs IH]; simpl; [done|]. by rewrite IH. Qed.

Ltac populate_every inner Hinner :=
  match goal with
  | |- context [populate_target_with_nodes ?tg inner] =>
      let Hp := fresh "Hp" in
      let Htag := fresh "Htag" in
      pose proof (every_populate tg inner) as Hp;
      pose proof (populate_tag tg inner) as Htag;
      destruct (populate_target_with_nodes tg inner) as [[? ?] ?];
      cbn [fst snd] in Hp, Htag
  end.

Lemma every_build_wrapper_element t w inner :
  every_node hi_ok inner = true →
  every_node hi_ok (built_nodes (build_wrapper_element t w inner)) = true.
Proof.
  intros Hinner. unfold build_wrapper_element.
  repeat match goal with
  | |- context [if ?b then _ else _] =>
      lazymatch b with
      | bool_decide _ => destruct b
      | String.eqb _ _ => destruct b
      end
  end; cbn zeta beta iota.
  all: try (destruct (py_or (op_get w "regularised") (op_get w "reg")) as [reg|];
            [destruct (omap is_element _) as [|c cs] eqn:Ecs|]).
  all: try (populate_every inner Hinner; rewrite every_built;
            rewrite ?every_choice_of, ?every_foldl_append_child;
            first [ rewrite Hp | idtac ];
            rewrite ?every_set_text, ?every_set_attr, ?every_copy_attr,
              ?every_persName_for; try done;
            unfold no_hi; rewrite ?tag_persName_for, ?tag_copy_attr; done).
  all: try (cbn [built_nodes every_node forallb];
            rewrite andb_true_r, every_choice_of; reflexivity).
  all: try solve [
    match goal with
    | Ecs : omap is_element _ = ?c :: ?cs |- _ =>
        pose proof (every_populate (new_element "tmp") (map NElem (c :: cs))) as Hp;
        destruct (populate_target_with_nodes _ (map NElem (c :: cs)))
          as [[lead tmp] trail];
        cbn [fst snd] in Hp; rewrite every_built, every_choice_of;
        rewrite every_foldl_append_child;
        assert (every_element hi_ok tmp = true) as Htmp
          by (apply Hp; [done|done|]; rewrite every_node_map_NElem, <- Ecs;
              by apply every_omap_is_element, every_node_filter);
        rewrite every_element_unfold in Htmp;
        apply andb_true_iff in Htmp as [_ ->]; done
    end ].
  - populate_every inner Hinner. rewrite every_built. cbn [foldl].
    repeat (destruct (op_get w _)); unfold sub_element_with_text;
      rewrite ?every_append_child, Hp; done.
  - populate_every inner Hinner. rewrite every_built. apply Hp; [|  |done].
    + unfold no_hi. rewrite Htag || idtac.
      generalize (op_attrs w).
      assert (∀ attrs el, tag (foldl (λ seg (kv : string * string),
                 set_attr seg ("data-" +:+ kv.1) kv.2) el attrs) = tag el) as Hf.
      { induction attrs as [|a attrs IH]; intros el; [done|]. simpl. by rewrite IH. }
      intros attrs. by rewrite Hf.
    + generalize (op_attrs w).
      assert (∀ attrs el, every_element hi_ok el = true →
                every_element hi_ok (foldl (λ seg (kv : string * string),
                 set_attr seg ("data-" +:+ kv.1) kv.2) el attrs) = true) as Hf.
      { induction attrs as [|a attrs IH]; intros el Hel; [done|]. simpl.
        apply IH. by rewrite every_set_attr. }
      intros attrs. by apply Hf.
Qed.

(** *** The rendering keeps the invariant *)

Section EveryRender.
Variable t : string.
Variable styles : list op.
Variable ws : list op.
Variable children : gmap nat (list nat).

Lemma foldl_place_wrapper_None inner idxs :
  foldl (place_wrapper t styles ws children inner) None idxs = None.
Proof. induction idxs; simpl; done. Qed.

Lemma every_place_wrappers inner idxs out0 cur0 out cur :
  (∀ a b cs nodes, inner a b cs = Some nodes → every_node hi_ok nodes = true) →
  every_node hi_ok out0 = true →
  foldl (place_wrapper t styles ws children inner) (Some (out0, cur0)) idxs
    = Some (out, cur) →
  every_node hi_ok out = true.
Proof.
  intros Hinner. revert out0 cur0.
  induction idxs as [|i idxs IH]; intros out0 cur0 H0 H; simpl in H.
  - by simplify_eq.
  - destruct (ws !! i) as [cw|] eqn:Ecw; simpl in H;
      [|by rewrite foldl_place_wrapper_None in H].
    destruct (inner (op_offset cw) (op_end cw) (default [] (children !! i)))
      as [nodes|] eqn:Ei; simpl in H;
      [|by rewrite foldl_place_wrapper_None in H].
    eapply IH; [|exact H].
    rewrite every_node_app. apply andb_true_iff. split.
    + destruct (cur0 <? op_offset cw); [|done].
      by rewrite every_node_app, H0, every_render_plain_segment.
    + apply every_build_wrapper_element. eauto.
Qed.

Lemma every_render_tail span_end out cur :
  every_node hi_ok out = true →
  every_node hi_ok (render_tail t styles span_end (out, cur)) = true.
Proof.
  intros H. simpl. destruct (cur <? span_end); [|done].
  by rewrite every_node_app, H, every_render_plain_segment.
Qed.

Lemma every_render_span fuel a b cs nodes :
  render_span t styles ws children fuel a b cs = Some nodes →
  every_node hi_ok nodes = true.
Proof.
  revert a b cs nodes. induction fuel as [|fuel IH]; intros a b cs nodes H.
  - destruct cs; simpl in H; [|done]. simplify_eq.
    apply every_render_plain_segment.
  - destruct cs as [|c cs]; simpl in H.
    { simplify_eq. apply every_render_plain_segment. }
    unfold render_wrappers in H.
    destruct (foldl _ _ _) as [[out cur]|] eqn:E; [|done].
    simpl in H. simplify_eq.
    assert (every_node hi_ok out = true) as Hout.
    { eapply every_place_wrappers; [| |exact E]; [|done]. intros ????. apply IH. }
    destruct (cur <? b); [|done].
    by rewrite every_node_app, every_render_plain_segment, andb_true_r.
Qed.

Lemma every_render_roots fuel roots nodes :
  render_roots t styles ws children fuel roots = Some nodes →
  every_node hi_ok nodes = true.
Proof.
  destruct roots as [|r roots]; simpl; intros H.
  { simplify_eq. apply every_render_plain_segment. }
  unfold render_wrappers in H.
  destruct (foldl _ _ _) as [[out cur]|] eqn:E; [|done].
  simpl in H. simplify_eq.
  assert (every_node hi_ok out = true) as Hout.
  { eapply every_place_wrappers; [| |exact E]; [|done].
    intros ????. apply every_render_span. }
  destruct (cur <? Str.len t); [|done].
  by rewrite every_node_app, every_render_plain_segment, andb_true_r.
Qed.

End EveryRender.

(** *** The repair pass keeps the invariant *)

(** The loop of [_wrap_choice_in_persname_in_element] over the children of
    an element. *)
Definition wrap_children (p : op) : list Element → option (list Element) :=
  fix go (cs : list Element) : option (list Element) :=
    match cs with
    | [] => None
    | child :: rest =>
        if String.eqb (tag child) (qn "persName") then cons child <$> go rest
        else if String.eqb (tag child) (qn "choice") then
          Some (append_child (persName_for p) child :: rest)
        else
          match wrap_choice_in_persname_in_element p child with
          | Some child' => Some (child' :: rest)
          | None => cons child <$> go rest
          end
    end.

Lemma wrap_in_element_unfold p e :
  wrap_choice_in_persname_in_element p e =
  if String.eqb (tag e) (qn "persName") then None
  else set_subelems e <$> wrap_children p (subelems e).
Proof. by destruct e. Qed.

Lemma wrap_children_cons p c cs :
  wrap_children p (c :: cs) =
  if String.eqb (tag c) (qn "persName") then cons c <$> wrap_children p cs
  else if String.eqb (tag c) (qn "choice") then
    Some (append_child (persName_for p) c :: cs)
  else
    match wrap_choice_in_persname_in_element p c with
    | Some c' => Some (c' :: cs)
    | None => cons c <$> wrap_children p cs
    end.
Proof. done. Qed.

#[local] Opaque wrap_children.

Lemma every_wrap_in_element p e e' :
  wrap_choice_in_persname_in_element p e = Some e' →
  every_element hi_ok e = true → every_element hi_ok e' = true.
Proof.
  revert e'. induction e as [tg at_ tx cs tl IH] using Element_ind.
  intros e'. rewrite wrap_in_element_unfold. cbn [tag subelems].
  destruct (String.eqb tg (qn "persName")); [done|].
  destruct (wrap_children p cs) as [cs'|] eqn:E; [|done]. simpl. intros ?; simplify_eq.
  rewrite !every_element_unfold. cbn [set_subelems subelems].
  intros [Hp Hcs]%andb_true_iff. apply andb_true_iff. split; [done|].
  clear Hp. revert cs' E. induction cs as [|c cs IHcs]; intros cs' E; [done|].
  apply Forall_cons in IH as [IHc IH].
  simpl in Hcs. apply andb_true_iff in Hcs as [Hc Hcs].
  rewrite wrap_children_cons in E.
  destruct (String.eqb (tag c) (qn "persName")).
  { destruct (wrap_children p cs) as [cs1|] eqn:E1; [|done]. simpl in E. simplify_eq.
    simpl. rewrite Hc. simpl. by apply IHcs. }
  destruct (String.eqb (tag c) (qn "choice")).
  { simplify_eq. simpl.
    by rewrite every_append_child, every_persName_for, Hc, Hcs. }
  destruct (wrap_choice_in_persname_in_element p c) as [c'|] eqn:Ec.
  { simplify_eq. simpl. rewrite Hcs, andb_true_r. by apply IHc. }
  destruct (wrap_children p cs) as [cs1|] eqn:E1; [|done]. simpl in E. simplify_eq.
  simpl. rewrite Hc. simpl. by apply IHcs.
Qed.

Lemma every_wrap_in_nodes_list p nodes nodes' :
  wrap_choice_in_nodes_list nodes p = Some nodes' →
  every_node hi_ok nodes = true → every_node hi_ok nodes' = true.
Proof.
  revert nodes'. induction nodes as [|n nodes IH]; intros nodes' H; [done|].
  simpl in H. destruct n as [s|e].
  - destruct (wrap_choice_in_nodes_list nodes p) as [r|]; [|done].
    simpl in H. simplify_eq. simpl. by apply IH.
  - simpl. intros [He Hnodes]%andb_true_iff.
    destruct (String.eqb (tag e) (qn "persName")).
    { destruct (wrap_choice_in_nodes_list nodes p) as [r|]; [|done].
      simpl in H. simplify_eq. simpl. rewrite He. by apply IH. }
    destruct (String.eqb (tag e) (qn "choice")).
    { simplify_eq. simpl. rewrite Hnodes, andb_true_r.
      by rewrite every_set_tail, every_append_child, every_persName_for,
        every_set_tail. }
    destruct (wrap_choice_in_persname_in_element p e) as [e'|] eqn:Ee.
    { simplify_eq. simpl. rewrite Hnodes, andb_true_r.
      by eapply every_wrap_in_element. }
    destruct (wrap_choice_in_nodes_list nodes p) as [r|]; [|done].
    simpl in H. simplify_eq. simpl. rewrite He. by apply IH.
Qed.

Lemma every_unify ops nodes :
  every_node hi_ok nodes = true → every_node hi_ok (unify ops nodes) = true.
Proof.
  unfold unify. generalize (person_ops ops) as ps. intros ps. revert nodes.
  induction ps as [|p ps IH]; intros nodes H; [done|].
  simpl. apply IH. clear IH.
  induction (choice_ops ops) as [|c cs IHc]; [done|]. simpl.
  destruct (overlapping p c); [|done].
  destruct (wrap_choice_in_nodes_list nodes p) as [nodes'|] eqn:E; [|done].
  by eapply every_wrap_in_nodes_list.
Qed.

(** No [hi] element of a rendered line holds a text reduced to
    punctuation. *)
Lemma every_hi_ok t ops nodes :
  build_inline_nodes_for_line t ops = Some nodes →
  every_node hi_ok nodes = true.
Proof.
  unfold build_inline_nodes_for_line, render_line.
  destruct (containment (wrappers ops)) as [children roots].
  destruct (render_roots _ _ _ _ _ _) as [nodes0|] eqn:E; [|done].
  simpl. intros ?; simplify_eq.
  apply every_unify. by eapply every_render_roots.
Qed.

(** *** A line with one style span over punctuation *)

Lemma append_text_leaf parent s :
  subelems parent = [] →
  append_text parent s =
  if Str.is_empty s then parent
  else set_text parent (Some (Str.or_empty (text parent) +:+ s)).
Proof.
  intros H. unfold append_text. destruct (Str.is_empty s); [done|].
  rewrite H. by destruct (text parent).
Qed.

Definition plain_segment (seg : Z * Z * string * gset string) : Prop :=
  seg.2 = ∅ ∨ punctuation_only seg.1.2 = true.

Lemma styled_segment_plain parent seg labels :
  labels = ∅ ∨ punctuation_only seg = true →
  styled_segment parent seg labels = append_text parent seg.
Proof.
  intros H. unfold styled_segment. destruct (decide (labels = ∅)); [done|].
  destruct H as [?| ->]; done.
Qed.

Lemma styled_segments_all_plain parent segs :
  subelems parent = [] → Forall plain_segment segs →
  foldl (λ p (seg : Z * Z * string * gset string),
           styled_segment p seg.1.2 seg.2) parent segs =
  let s := Str.concat (map (λ seg, seg.1.2) segs) in
  if Str.is_empty s then parent
  else set_text parent (Some (Str.or_empty (text parent) +:+ s)).
Proof.
  intros Hleaf Hsegs. revert parent Hleaf.
  induction Hsegs as [|seg segs Hseg _ IH]; intros parent Hleaf; [done|].
  cbn [foldl map Str.concat]. rewrite styled_segment_plain by done.
  rewrite append_text_leaf by done.
  destruct (Str.is_empty seg.1.2) eqn:E.
  - apply StrFacts.is_empty_true in E. rewrite E. simpl. by apply IH.
  - rewrite IH by done. cbn zeta.
    destruct seg.1.2 as [|c x]; [done|]. simpl.
    destruct (Str.is_empty (Str.concat _)) eqn:E'.
    + apply StrFacts.is_empty_true in E'. by rewrite E', StrFacts.app_nil_r.
    + unfold set_text. simpl. by rewrite StrFacts.app_assoc.
Qed.

Lemma elem_of_slice_text_nodes t ranges seg :
  seg ∈ slice_text_nodes t ranges →
  seg.1.2 = Str.slice t seg.1.1.1 seg.1.1.2
  ∧ seg.2 = labels_of ranges seg.1.1.1 seg.1.1.2.
Proof.
  rewrite slice_text_nodes_unfold, list_elem_of_omap.
  intros ([a b] & _ & H). unfold segment_of in H.
  destruct (a =? b); [done|]. by simplify_eq.
Qed.

Lemma render_all_plain t styles :
  t ≠ "" →
  Forall plain_segment (slice_text_nodes t (style_ranges styles)) →
  holder_nodes (build_styled_nodes (new_element "tmp") t styles) = [NStr t].
Proof.
  intros Ht Hsegs. unfold build_styled_nodes.
  destruct (style_ranges styles) as [|r rs] eqn:E.
  - rewrite append_text_new by done. unfold holder_nodes. simpl.
    destruct t; done.
  - rewrite styled_segments_all_plain by done. cbn zeta.
    rewrite cuts_cover. destruct t; done.
Qed.

Lemma every_element_impl (p q : Element → bool) e :
  (∀ x, p x = true → q x = true) →
  every_element p e = true → every_element q e = true.
Proof.
  intros Hpq. induction e as [tg at_ tx cs tl IH] using Element_ind.
  rewrite !every_element_unfold. cbn [subelems].
  intros [Hp Hcs]%andb_true_iff. apply andb_true_iff. split; [by apply Hpq|].
  clear Hp. induction IH as [|c cs Hc' _ IHcs]; [done|]. simpl in *.
  apply andb_true_iff in Hcs as [Hc Hcs]. by rewrite Hc', IHcs.
Qed.

Lemma every_node_impl (p q : Element → bool) nodes :
  (∀ x, p x = true → q x = true) →
  every_node p nodes = true → every_node q nodes = true.
Proof.
  intros Hpq. induction nodes as [|[s|e] nodes IH]; simpl; [done|done|].
  intros [He Hn]%andb_true_iff. by rewrite (every_element_impl p q), IH.
Qed.

(** The line whose only operation is a style span over punctuation is
    rendered as the single plain run [t]. *)
Lemma punctuation_style_alone t s :
  op_kind s = "textStyle" →
  punctuation_only (Str.slice t (op_offset s) (op_end s)) = true →
  build_inline_nodes_for_line t [s] = Some [NStr t].
Proof.
  intros Hk Hp.
  assert (t ≠ "") as Ht.
  { apply (slice_nonempty_text t (op_offset s) (op_end s)).
    intros E. by rewrite E in Hp. }
  rewrite render_no_wrapper.
  2:{ constructor; [|done]. by intros [? _]. }
  f_equal. unfold render_plain_segment. rewrite StrFacts.slice_full.
  destruct (Str.is_empty t) eqn:Et; [by apply StrFacts.is_empty_true in Et|].
  apply render_all_plain; [done|].
  apply Forall_forall. intros seg Hseg.
  apply elem_of_slice_text_nodes in Hseg as Hseg'. destruct Hseg' as [Htxt Hlab].
  unfold plain_segment. rewrite Hlab, Htxt.
  (* the styles kept for the segment are [s] or nothing *)
  match goal with
  | H : seg ∈ slice_text_nodes _ (style_ranges ?l) |- _ => set (sty := l) in *
  end.
  assert (sty = [] ∨ (sty = [s] ∧ 0 ≤ op_offset s ∧ op_end s ≤ Str.len t)) as Hsty.
  { unfold sty, style_ops, of_kind. rewrite filter_cons.
    destruct (decide _); [|by left]. rewrite filter_nil, filter_cons.
    destruct (decide _) as [[??]|]; [|by left]. right. by rewrite filter_nil. }
  destruct Hsty as [->|(-> & Ha & Hb)]; [by left|].
  unfold style_ranges in *. cbn [omap list_omap] in *.
  destruct (rend_of s) as [|r0 rs] eqn:Er; [by left|].
  set (lab := Str.join " " (r0 :: rs)) in *.
  rewrite labels_of_single.
  destruct (Z.ltb_spec (op_offset s) (op_end s)) as [Hab|Hab];
    [|left; by rewrite andb_false_r].
  rewrite slice_text_nodes_single in Hseg by done.
  rewrite !elem_of_app in Hseg.
  destruct Hseg as [Hseg|[Hseg|Hseg]].
  - destruct (0 <? op_offset s) eqn:E0; [|by apply not_elem_of_nil in Hseg].
    apply list_elem_of_singleton in Hseg. subst seg. cbn [fst snd].
    left. destruct (Z.leb_spec (op_offset s) 0); [lia|]. done.
  - apply list_elem_of_singleton in Hseg. subst seg. cbn [fst snd]. by right.
  - destruct (op_end s <? Str.len t) eqn:E0; [|by apply not_elem_of_nil in Hseg].
    apply list_elem_of_singleton in Hseg. subst seg. cbn [fst snd].
    left. apply Z.ltb_lt in E0.
    destruct (Z.leb_spec (Str.len t) (op_end s)); [lia|].
    by rewrite andb_false_r.
Qed.

(** ** Whitespace at the edges of a wrapper *)

Section Populate.
Import Str StrFacts.

Lemma rstrip_keeps_start s :
  starts_with_space s = false → starts_with_space (rstrip s) = false.
Proof.
  destruct s as [|c s]; [done|]. unfold starts_with_space. simpl.
  intros Hc. destruct (is_empty (rstrip s) && isspace c); [done|]. done.
Qed.

(** The temporary holder of [populate_target_with_nodes]. *)
Definition holder (nodes : list Node) : Element :=
  foldl insert_node (new_element "tmp") nodes.

(** The last stretch of text of an element: the tail of its last child, or
    its own text when it has no child. *)
Definition last_text (e : Element) : string :=
  match last (subelems e) with
  | Some l => or_empty (tail l)
  | None => or_empty (text e)
  end.

Lemma extract_lead_spec tmp :
  let '(lead, tmp1) := extract_lead tmp in
  all isspace lead = true
  ∧ lead +:+ or_empty (text tmp1) = or_empty (text tmp)
  ∧ starts_with_space (or_empty (text tmp1)) = false
  ∧ subelems tmp1 = subelems tmp ∧ tag tmp1 = tag tmp.
Proof.
  unfold extract_lead, match_lead.
  destruct (text tmp) as [x|] eqn:Ex; simpl; [|by rewrite Ex].
  destruct (truthy x) eqn:Tx; simpl.
  2:{ rewrite Ex. by apply truthy_false in Tx as ->. }
  destruct (truthy (lspace x)) eqn:Tl; simpl.
  - split; [apply lspace_all|]. split; [apply lspace_lstrip|].
    split; [apply lstrip_no_lead|done].
  - rewrite Ex. simpl. apply truthy_false in Tl.
    split; [done|]. split; [done|]. split; [by apply lspace_empty|done].
Qed.

Lemma last_map_last {A} (f : A → A) (l : list A) :
  last (map_last f l) = f <$> last l.
Proof.
  induction l as [|x l IH]; [done|]. destruct l as [|y l]; [done|].
  change (map_last f (x :: y :: l)) with (x :: map_last f (y :: l)).
  rewrite (last_cons x), IH, (last_cons x).
  destruct (last (y :: l)) eqn:E; [done|]. by apply last_None in E.
Qed.

Lemma extract_trail_spec tmp1 :
  let '(trail, tmp) := extract_trail tmp1 in
  all isspace trail = true
  ∧ ends_with_space (last_text tmp) = false
  ∧ last_text tmp +:+ trail = last_text tmp1
  ∧ tag tmp = tag tmp1
  ∧ (subelems tmp1 = [] → subelems tmp = []
       ∧ (starts_with_space (or_empty (text tmp1)) = false →
          starts_with_space (or_empty (text tmp)) = false))
  ∧ (subelems tmp1 ≠ [] → text tmp = text tmp1 ∧ subelems tmp ≠ []).
Proof.
  unfold extract_trail, match_trail, last_text.
  destruct (last (subelems tmp1)) as [l|] eqn:El.
  - assert (subelems tmp1 ≠ []) as Hne by (intros E; by rewrite E in El).
    destruct (tail l) as [x|] eqn:Ex; simpl.
    2:{ rewrite El, Ex. simpl. repeat split; done. }
    destruct (truthy x) eqn:Tx; simpl.
    2:{ rewrite El, Ex. apply truthy_false in Tx as ->. repeat split; done. }
    destruct (truthy (rspace x)) eqn:Tr; simpl.
    + rewrite last_map_last, El. simpl.
      split; [apply rspace_all|]. split; [apply rstrip_no_trail|].
      split; [apply rstrip_rspace|]. split; [done|]. split; [done|].
      intros _. split; [done|]. by destruct (subelems tmp1) as [|?[|??]].
    + rewrite El, Ex. simpl. apply truthy_false in Tr.
      split; [done|]. split; [by apply rspace_empty|].
      split; [apply app_nil_r|]. repeat split; done.
  - apply last_None in El.
    destruct (text tmp1) as [x|] eqn:Ex; simpl.
    2:{ rewrite El, Ex. simpl. repeat split; done. }
    destruct (truthy x) eqn:Tx; simpl.
    2:{ rewrite El, Ex. apply truthy_false in Tx as ->. repeat split; done. }
    destruct (truthy (rspace x)) eqn:Tr; simpl.
    + rewrite El. simpl.
      split; [apply rspace_all|]. split; [apply rstrip_no_trail|].
      split; [apply rstrip_rspace|]. split; [done|].
      split; [|done]. intros _. split; [done|]. apply rstrip_keeps_start.
    + rewrite El, Ex. simpl. apply truthy_false in Tr.
      split; [done|]. split; [by apply rspace_empty|].
      split; [apply app_nil_r|]. repeat split; done.
Qed.

End Populate.

Section PopulateText.
Import Str StrFacts.
Variable skip : string → bool.
Hypothesis skip_tmp : skip "tmp" = false.

Lemma gather_foldl_insert_node tmp nodes :
  skip (tag tmp) = false →
  gather skip (foldl insert_node tmp nodes)
  = gather skip tmp +:+ gather_nodes skip nodes.
Proof.
  revert tmp. induction nodes as [|n nodes IH]; intros tmp Ht.
  - simpl. unfold gather_nodes. simpl. by rewrite app_nil_r.
  - cbn [foldl]. rewrite IH.
    2:{ destruct n; simpl; [by rewrite tag_append_text|done]. }
    change (n :: nodes) with ([n] ++ nodes). rewrite gather_nodes_app.
    rewrite <- app_assoc. f_equal.
    destruct n as [s|e]; simpl.
    + rewrite gather_append_text by done. unfold gather_nodes. simpl.
      by rewrite app_nil_r.
    + rewrite gather_append_child by done. unfold gather_nodes. simpl.
      by rewrite app_nil_r.
Qed.

Lemma gather_holder nodes : gather skip (holder nodes) = gather_nodes skip nodes.
Proof.
  unfold holder. rewrite gather_foldl_insert_node by done.
  rewrite gather_unfold. simpl. rewrite skip_tmp. done.
Qed.

Lemma gather_list_change_last (f : Element → Element) x cs :
  (∀ l, last cs = Some l →
        gather skip (f l) = gather skip l
        ∧ or_empty (tail (f l)) +:+ x = or_empty (tail l)) →
  cs ≠ [] →
  gather_list skip (map_last f cs) +:+ x = gather_list skip cs.
Proof.
  induction cs as [|c cs IH]; [done|]. intros Hf _.
  destruct cs as [|c' cs].
  - destruct (Hf c eq_refl) as [H1 H2]. unfold gather_list. simpl.
    rewrite !app_nil_r, H1, app_assoc, H2. done.
  - change (map_last f (c :: c' :: cs)) with (c :: map_last f (c' :: cs)).
    change (c :: ?l) with ([c] ++ l). rewrite !gather_list_app.
    rewrite app_assoc, IH; [done| |done].
    intros l Hl. apply Hf. by rewrite last_cons, Hl.
Qed.

Lemma gather_extract_lead tmp :
  skip (tag tmp) = false →
  (extract_lead tmp).1 +:+ gather skip (extract_lead tmp).2 = gather skip tmp.
Proof.
  intros Ht. pose proof (extract_lead_spec tmp) as H.
  destruct (extract_lead tmp) as [lead tmp1]. cbn [fst snd].
  destruct H as (_ & H & _ & Hs & Htag).
  rewrite !gather_unfold, Htag, Ht, Hs, <- H. by rewrite app_assoc.
Qed.

Lemma gather_extract_trail tmp1 :
  skip (tag tmp1) = false →
  gather skip (extract_trail tmp1).2 +:+ (extract_trail tmp1).1
  = gather skip tmp1.
Proof.
  intros Ht. unfold extract_trail, match_trail.
  destruct (last (subelems tmp1)) as [l|] eqn:El.
  - destruct (truthy_opt (tail l)) eqn:Tl; [|apply app_nil_r].
    destruct (truthy (rspace _)) eqn:Tr; [|apply app_nil_r].
    cbn [fst snd]. unfold set_subelems. rewrite !gather_unfold.
    cbn [tag text subelems]. rewrite Ht, app_assoc. f_equal.
    apply gather_list_change_last.
    + intros l' Hl'. rewrite El in Hl'. simplify_eq.
      split; [apply gather_set_tail|]. simpl. apply rstrip_rspace.
    + intros E. by rewrite E in El.
  - apply last_None in El.
    destruct (truthy_opt (text tmp1)) eqn:Tl; [|apply app_nil_r].
    destruct (truthy (rspace _)) eqn:Tr; [|apply app_nil_r].
    cbn [fst snd]. rewrite !gather_unfold. cbn [tag text subelems set_text].
    rewrite Ht, El. unfold gather_list. simpl. rewrite !app_nil_r.
    apply rstrip_rspace.
Qed.

Lemma subelems_foldl_append_child e cs :
  subelems (foldl append_child e cs) = subelems e ++ cs
  ∧ text (foldl append_child e cs) = text e
  ∧ attrib (foldl append_child e cs) = attrib e.
Proof.
  revert e. induction cs as [|c cs IH]; intros e; simpl.
  - by rewrite List.app_nil_r.
  - destruct (IH (append_child e c)) as (-> & -> & ->). simpl.
    by rewrite <- List.app_assoc.
Qed.

Lemma gather_foldl_append_child e cs :
  skip (tag e) = false →
  gather skip (foldl append_child e cs) = gather skip e +:+ gather_list skip cs.
Proof.
  intros He. rewrite !gather_unfold, tag_foldl_append_child, He.
  destruct (subelems_foldl_append_child e cs) as (-> & -> & _).
  by rewrite gather_list_app, app_assoc.
Qed.

(** The text content is kept by [populate_target_with_nodes]: the
    whitespace taken out on both sides and the content of the target make
    up the text of the nodes. *)
Lemma gather_populate target nodes :
  skip (tag target) = false → subelems target = [] → text target = None →
  let '(lead, el, trail) := populate_target_with_nodes target nodes in
  lead +:+ gather skip el +:+ trail = gather_nodes skip nodes.
Proof.
  intros Ht Hleaf Htext. unfold populate_target_with_nodes. fold (holder nodes).
  pose proof (gather_extract_lead (holder nodes)) as H1.
  pose proof (tag_extract_lead (holder nodes)) as T1.
  destruct (extract_lead (holder nodes)) as [lead tmp1]. cbn [fst snd] in *.
  pose proof (gather_extract_trail tmp1) as H2.
  pose proof (tag_extract_trail tmp1) as T2.
  destruct (extract_trail tmp1) as [trail tmp]. cbn [fst snd] in *.
  assert (tag (holder nodes) = "tmp") as T0 by apply tag_foldl_insert_node.
  rewrite T1, T0 in T2. rewrite T0 in T1.
  rewrite <- gather_holder, <- H1, <- H2 by congruence.
  f_equal. f_equal.
  rewrite gather_foldl_append_child by (by destruct (truthy_opt (text tmp))).
  rewrite (gather_unfold _ tmp), T2, skip_tmp. f_equal.
  destruct (truthy_opt (text tmp)) eqn:E.
  - rewrite gather_unfold. cbn [tag text subelems set_text]. rewrite Ht, Hleaf, Htext.
    unfold gather_list. simpl. by rewrite app_nil_r.
  - rewrite gather_unfold, Ht, Hleaf, Htext. unfold gather_list. simpl.
    destruct (text tmp) as [x|]; simpl in *; [|done].
    by apply negb_false_iff, is_empty_true in E.
Qed.

End PopulateText.

Section PopulateEdges.
Import Str StrFacts.

(** The whitespace returned by [populate_target_with_nodes] and the edges of
    the populated element. *)
Lemma populate_edges target nodes :
  subelems target = [] → text target = None →
  let '(lead, el, trail) := populate_target_with_nodes target nodes in
  all isspace lead = true ∧ all isspace trail = true
  ∧ starts_with_space (or_empty (text el)) = false
  ∧ ends_with_space (last_text el) = false.
Proof.
  intros Hleaf Htext. unfold populate_target_with_nodes. fold (holder nodes).
  pose proof (extract_lead_spec (holder nodes)) as H1.
  destruct (extract_lead (holder nodes)) as [lead tmp1].
  destruct H1 as (L1 & _ & L3 & _ & _).
  pose proof (extract_trail_spec tmp1) as H2.
  destruct (extract_trail tmp1) as [trail tmp].
  destruct H2 as (R1 & R2 & _ & _ & R5 & R6).
  split; [done|]. split; [done|].
  destruct (subelems_foldl_append_child
              (if truthy_opt (text tmp)
               then set_text target (Some (or_empty (text target) +:+ or_empty (text tmp)))
               else target) (subelems tmp)) as (Hs & Ht & _).
  assert (or_empty (text (foldl append_child
              (if truthy_opt (text tmp)
               then set_text target (Some (or_empty (text target) +:+ or_empty (text tmp)))
               else target) (subelems tmp))) = or_empty (text tmp)) as Htxt.
  { rewrite Ht. destruct (truthy_opt (text tmp)) eqn:E; simpl.
    - by rewrite Htext.
    - rewrite Htext. destruct (text tmp) as [x|]; [|done]. simpl in *.
      by apply negb_false_iff, is_empty_true in E. }
  assert (starts_with_space (or_empty (text tmp)) = false) as Hstart.
  { destruct (subelems tmp1) as [|c cs] eqn:E.
    - by apply R5.
    - destruct R6 as [-> _]; done. }
  split; [by rewrite Htxt|].
  unfold last_text in *. rewrite Hs, Htxt.
  replace (subelems (if truthy_opt (text tmp) then _ else target)) with (@nil Element)
    by (by destruct (truthy_opt (text tmp))).
  done.
Qed.

End PopulateEdges.

(** [populate_target_with_nodes] takes the leading whitespace of the first
    plain text of the inner content and the trailing whitespace of its last
    plain text (the tail of the last child element, or the text when there
    is no child) out of the target and returns them; the text of the
    target then does not begin with whitespace, its last text does not end
    with whitespace, and no character is lost. *)
Lemma populate_hoists_whitespace target nodes :
  subelems target = [] → text target = None →
  let '(lead, el, trail) := populate_target_with_nodes target nodes in
  Str.all Str.isspace lead = true ∧ Str.all Str.isspace trail = true
  ∧ StrFacts.starts_with_space (Str.or_empty (text el)) = false
  ∧ StrFacts.ends_with_space (last_text el) = false
  ∧ lead +:+ itertext el +:+ trail = flatten nodes.
Proof.
  intros Hleaf Htext.
  pose proof (populate_edges target nodes Hleaf Htext) as H1.
  pose proof (gather_populate (λ _, false) eq_refl target nodes eq_refl Hleaf Htext)
    as H2.
  destruct (populate_target_with_nodes target nodes) as [[lead el] trail].
  destruct H1 as (? & ? & ? & ?). done.
Qed.

(** C5 (as stated) fails when the whitespace lies inside a child element:
    with a bold style over the whole of [" cd "] and a [num] span over the
    same range, the [num] element holds the [hi] element with its
    whitespace, and nothing is emitted outside. *)
Lemma edge_whitespace_inside_child :
  ∃ el,
    build_inline_nodes_for_line " cd "
      [span "num" 0 4 []; span "textStyle" 0 4 [("bold", "true")]]
    = Some [NElem el]
    ∧ tag el = qn "num"
    ∧ itertext el = " cd "
    ∧ StrFacts.starts_with_space (itertext el) = true
    ∧ StrFacts.ends_with_space (itertext el) = true.
Proof. eexists. split; [reflexivity|]. repeat split. Qed.

(** ** Regularised spans *)

(** An element node carries no tail: the case of every node sequence the
    renderer passes to [build_wrapper_element]. *)
Definition tail_free (n : Node) : Prop :=
  match n with NStr _ => True | NElem e => tail e = None end.

Lemma omap_is_element_filter t (nodes : list Node) :
  omap is_element (filter (λ n, repeats_witness t n = false) nodes)
  = omap is_element nodes.
Proof.
  induction nodes as [|[s|e] nodes IH]; [done| |].
  - rewrite filter_cons. destruct (decide _); exact IH.
  - rewrite filter_cons, decide_True by done.
    change (e :: omap is_element (filter (λ n, repeats_witness t n = false) nodes)
            = e :: omap is_element nodes). by f_equal.
Qed.

Lemma Forall_tail_free_elements (nodes : list Node) :
  Forall tail_free nodes → Forall (λ e, tail e = None) (omap is_element nodes).
Proof.
  induction 1 as [|[s|e] nodes H _ IH]; simpl; [done|done|by constructor].
Qed.

Lemma foldl_append_child_new tg at_ tx cs0 cs :
  foldl append_child (Elem tg at_ tx cs0 None) cs = Elem tg at_ tx (cs0 ++ cs) None.
Proof.
  revert cs0. induction cs as [|c cs IH]; intros cs0; simpl.
  - by rewrite List.app_nil_r.
  - unfold append_child, set_subelems. simpl. rewrite IH.
    by rewrite <- List.app_assoc.
Qed.

Lemma holder_elements cs :
  holder (map NElem cs) = Elem "tmp" [] None cs None.
Proof.
  unfold holder.
  assert (∀ e, foldl insert_node e (map NElem cs) = foldl append_child e cs) as ->.
  { induction cs as [|c cs IH]; intros e; simpl; [done|]. by rewrite IH. }
  apply foldl_append_child_new.
Qed.

(** Elements without tails pass through [populate_target_with_nodes]
    unchanged and give no whitespace. *)
Lemma populate_elements tg cs :
  Forall (λ e, tail e = None) cs →
  populate_target_with_nodes (new_element tg) (map NElem cs)
  = ("", Elem tg [] None cs None, "").
Proof.
  intros Hcs. unfold populate_target_with_nodes. fold (holder (map NElem cs)).
  rewrite holder_elements. unfold extract_lead. cbn [text Str.truthy_opt].
  unfold extract_trail. cbn [subelems text].
  destruct (last cs) as [l|] eqn:El.
  - assert (tail l = None) as ->.
    { rewrite Forall_forall in Hcs. apply Hcs. by apply last_Some_elem_of. }
    cbn [Str.truthy_opt text subelems]. f_equal. f_equal.
    apply foldl_append_child_new.
  - cbn [Str.truthy_opt text subelems]. f_equal. f_equal.
    apply foldl_append_child_new.
Qed.

Lemma py_or_None a b : py_or a b = None → Str.or_empty a = "".
Proof.
  unfold py_or. destruct a as [[|c s]|]; simpl; try done.
Qed.

(** What [build_wrapper_element] builds for a regularised span: the first
    part ([orig]) holds the [original] attribute, or the [orig] attribute
    when [original] is absent or empty, and the empty string when neither
    is given; it never holds the inner content.  The second part ([reg])
    holds the explicit [regularised] (or [reg]) attribute when there is
    one, followed by the element nodes of the inner content, all its plain
    strings being dropped; without such an attribute it is populated with
    the whole inner content. *)
Lemma regularised_parts t w inner :
  op_kind w = "regularised" → Forall tail_free inner →
  ∃ a b lead trail,
    build_wrapper_element t w inner
    = maybe_wrap_with_edge_whitespace lead trail (choice_of a b)
    ∧ a = Elem (qn "orig") []
            (Some (default "" (py_or (op_get w "original") (op_get w "orig"))))
            [] None
    ∧ match py_or (op_get w "regularised") (op_get w "reg") with
      | Some reg =>
          lead = "" ∧ trail = ""
          ∧ b = Elem (qn "reg") [] (Some reg) (omap is_element inner) None
      | None =>
          populate_target_with_nodes (new_element (qn "reg")) inner
          = (lead, b, trail)
      end.
Proof.
  intros Hk Hinner. unfold build_wrapper_element. rewrite Hk.
  cbn [bool_decide decide_rel String.eqb Ascii.eqb Bool.eqb andb].
  rewrite bool_decide_true by by_compute.
  change (String.eqb "regularised" "abbrev") with false.
  change (String.eqb "regularised" "sic") with false.
  change (String.eqb "regularised" "regularised") with true.
  cbn iota beta zeta.
  assert (default (Str.or_empty (op_get w "original"))
            (py_or (op_get w "original") (op_get w "orig"))
          = default "" (py_or (op_get w "original") (op_get w "orig"))) as ->.
  { destruct (py_or _ _) eqn:E; [done|]. simpl. by apply py_or_None in E. }
  destruct (py_or (op_get w "regularised") (op_get w "reg")) as [reg|] eqn:Er.
  - rewrite omap_is_element_filter.
    pose proof (Forall_tail_free_elements inner Hinner) as Hel.
    destruct (omap is_element inner) as [|c cs] eqn:Ec.
    + eexists _, _, "", "". split; [reflexivity|]. done.
    + rewrite populate_elements by done.
      eexists _, _, "", "". split; [reflexivity|]. split; [done|].
      split; [done|]. split; [done|].
      cbn [subelems]. unfold set_text, new_element. cbn [tag attrib text subelems tail].
      by rewrite foldl_append_child_new.
  - destruct (populate_target_with_nodes (new_element (qn "reg")) inner)
      as [[lead b] trail] eqn:Ep.
    eexists _, b, lead, trail. split; [reflexivity|]. done.
Qed.

(** C7: the first part of the pair does not fall back to the inner
    content.  The source announces the fallback (lines 712-714), but the
    value it falls back to is the [original] attribute again: a regularised
    span over ["ye"] without that attribute is rendered with an empty
    [orig]; with an explicit regularised value the text of the line is in
    neither part; and a styled witness is still emitted inside [reg],
    after the explicit value. *)
Lemma regularised_orig_has_no_fallback :
  build_inline_nodes_for_line "ye" [span "regularised" 0 2 []]
  = Some [NElem (choice_of (Elem (qn "orig") [] (Some "") [] None)
                           (Elem (qn "reg") [] (Some "ye") [] None))]
  ∧ build_inline_nodes_for_line "ye"
      [span "regularised" 0 2 [("regularised", "the")]]
    = Some [NElem (choice_of (Elem (qn "orig") [] (Some "") [] None)
                             (Elem (qn "reg") [] (Some "the") [] None))]
  ∧ build_inline_nodes_for_line "ye"
      [span "regularised" 0 2 [("regularised", "the")];
       span "textStyle" 0 2 [("bold", "true")]]
    = Some [NElem (choice_of (Elem (qn "orig") [] (Some "") [] None)
                     (Elem (qn "reg") [] (Some "the")
                        [Elem (qn "hi") [("rend", "bold")] (Some "ye") [] None]
                        None))].
Proof. repeat split. Qed.

(** ** The containment forest (C2, C3) *)

Lemma wrapper_key_le_iff x y :
  wrapper_key_le x y = true ↔
  op_offset x < op_offset y
  ∨ (op_offset x = op_offset y
     ∧ (op_end y < op_end x
        ∨ (op_end x = op_end y
           ∧ op_priority (op_kind x) ≤ op_priority (op_kind y)))).
Proof.
  unfold wrapper_key_le.
  rewrite !orb_true_iff, !andb_true_iff, !orb_true_iff, !andb_true_iff.
  rewrite !Z.ltb_lt, !Z.eqb_eq, Z.leb_le. lia.
Qed.

Lemma wrapper_key_le_total x y :
  wrapper_key_le x y = true ∨ wrapper_key_le y x = true.
Proof. rewrite !wrapper_key_le_iff. lia. Qed.

Lemma wrapper_key_le_trans x y z :
  wrapper_key_le x y = true → wrapper_key_le y z = true →
  wrapper_key_le x z = true.
Proof. rewrite !wrapper_key_le_iff. lia. Qed.

Lemma wrappers_sorted ops :
  StronglySorted (λ x y, wrapper_key_le x y = true) (wrappers ops).
Proof.
  apply sorted_by_sorted; [apply wrapper_key_le_total|apply wrapper_key_le_trans].
Qed.

Lemma encloses_iff pw w :
  encloses pw w = true ↔ op_offset pw ≤ op_offset w ∧ op_end w ≤ op_end pw.
Proof. unfold encloses. rewrite andb_true_iff, !Z.leb_le. done. Qed.

(** The parent of the wrapper at index [i]. *)
Definition parent_of (ws : list op) (i : nat) : option nat :=
  w ← ws !! i; find_parent ws w i.

Lemma find_parent_Some ws w i k :
  find_parent ws w i = Some k →
  (k < i)%nat
  ∧ (∃ pw, ws !! k = Some pw ∧ encloses pw w = true)
  ∧ ∀ k' x, (k < k' < i)%nat → ws !! k' = Some x → encloses x w = false.
Proof.
  induction i as [|i IH]; [done|]. simpl.
  destruct (ws !! i) as [pw|] eqn:E.
  - destruct (encloses pw w) eqn:Ee.
    + intros ?; simplify_eq. split; [lia|]. split; [eauto|]. intros; lia.
    + intros H. destruct (IH H) as (? & ? & Hk). split; [lia|]. split; [done|].
      intros k' x Hk' Hx. destruct (decide (k' = i)) as [->|]; [congruence|].
      apply (Hk k'); [lia|done].
  - intros H. destruct (IH H) as (? & ? & Hk). split; [lia|]. split; [done|].
    intros k' x Hk' Hx. destruct (decide (k' = i)) as [->|]; [congruence|].
    apply (Hk k'); [lia|done].
Qed.

Lemma find_parent_None ws w i :
  find_parent ws w i = None →
  ∀ k x, (k < i)%nat → ws !! k = Some x → encloses x w = false.
Proof.
  induction i as [|i IH]; [intros; lia|]. simpl.
  destruct (ws !! i) as [pw|] eqn:E.
  - destruct (encloses pw w) eqn:Ee; [done|].
    intros H k x Hk Hx. destruct (decide (k = i)) as [->|]; [congruence|].
    apply (IH H k); [lia|done].
  - intros H k x Hk Hx. destruct (decide (k = i)) as [->|]; [congruence|].
    apply (IH H k); [lia|done].
Qed.

Lemma find_parent_is_Some ws w i j pw :
  (j < i)%nat → ws !! j = Some pw → encloses pw w = true →
  ∃ k, find_parent ws w i = Some k ∧ (j ≤ k)%nat.
Proof.
  intros Hj Hpw He. destruct (find_parent ws w i) as [k|] eqn:E.
  - exists k. split; [done|]. apply find_parent_Some in E as (? & _ & Hk).
    destruct (decide (j ≤ k)%nat); [done|].
    rewrite (Hk j pw) in He; [done|lia|done].
  - by rewrite (find_parent_None _ _ _ E j pw) in He.
Qed.

(** The tree after the first [k] wrappers have been placed. *)
Definition forest_upto (ws : list op) (k : nat)
  : gmap nat (list nat) * list nat :=
  foldl (place_in_tree ws) (empty_children (length ws), [])
        (take k (imap pair ws)).

Lemma lookup_imap_pair {A} (l : list A) i :
  imap pair l !! i = pair i <$> l !! i.
Proof. apply list_lookup_imap. Qed.

Lemma forest_upto_spec ws k :
  (k ≤ length ws)%nat →
  (∀ p, default [] ((forest_upto ws k).1 !! p)
        = filter (λ c, parent_of ws c = Some p) (seq 0 k))
  ∧ (forest_upto ws k).2 = filter (λ c, parent_of ws c = None) (seq 0 k).
Proof.
  induction k as [|k IH]; intros Hk.
  - unfold forest_upto. rewrite take_0. simpl. split; [|done].
    intros p. unfold empty_children.
    destruct (list_to_map _ !! p) as [x|] eqn:E; [|done].
    apply elem_of_list_to_map_2, list_elem_of_fmap in E as (i & ? & _).
    by simplify_eq.
  - destruct IH as [IH1 IH2]; [lia|].
    destruct (lookup_lt_is_Some_2 ws k) as [w Hw]; [lia|].
    assert (take (S k) (imap pair ws) = take k (imap pair ws) ++ [(k, w)]) as E.
    { erewrite take_S_r; [done|]. by rewrite lookup_imap_pair, Hw. }
    unfold forest_upto in *. rewrite E, foldl_app. cbn [foldl].
    destruct (foldl _ _ (take k _)) as [children roots]. cbn [fst snd] in *.
    rewrite seq_S. cbn [place_in_tree Nat.add].
    assert (parent_of ws k = find_parent ws w k) as Ep.
    { unfold parent_of. by rewrite Hw. }
    destruct (find_parent ws w k) as [p'|] eqn:Ef; cbn [fst snd].
    + split.
      * intros p. rewrite filter_app, filter_cons, filter_nil, Ep.
        destruct (decide (p' = p)) as [->|Hne].
        -- rewrite lookup_insert_eq. simpl. rewrite IH1.
           by rewrite decide_True.
        -- rewrite lookup_insert_ne by done. rewrite IH1.
           rewrite decide_False by congruence. by rewrite List.app_nil_r.
      * rewrite IH2, filter_app, filter_cons, filter_nil, Ep.
        rewrite decide_False by done. by rewrite List.app_nil_r.
    + split.
      * intros p. rewrite IH1, filter_app, filter_cons, filter_nil, Ep.
        rewrite decide_False by done. by rewrite List.app_nil_r.
      * rewrite IH2, filter_app, filter_cons, filter_nil, Ep.
        by rewrite decide_True.
Qed.

Lemma containment_spec ws :
  (∀ p, default [] ((containment ws).1 !! p)
        = filter (λ c, parent_of ws c = Some p) (seq 0 (length ws)))
  ∧ (containment ws).2
    = filter (λ c, parent_of ws c = None) (seq 0 (length ws)).
Proof.
  pose proof (forest_upto_spec ws (length ws)) as H.
  unfold forest_upto in H. rewrite firstn_all2 in H.
  - by apply H.
  - by rewrite length_imap.
Qed.

(** [c] is a child of [p] in the dictionary [children]. *)
Definition child_in (children : gmap nat (list nat)) (p c : nat) : Prop :=
  c ∈ default [] (children !! p).

(** [b] is a descendant of [a]. *)
Definition descendant (children : gmap nat (list nat)) (a b : nat) : Prop :=
  tc (child_in children) a b.

Lemma child_in_containment ws p c :
  child_in (containment ws).1 p c ↔ (c < length ws)%nat ∧ parent_of ws c = Some p.
Proof.
  unfold child_in. destruct (containment_spec ws) as [-> _].
  rewrite list_elem_of_filter, elem_of_seq. naive_solver lia.
Qed.

(** In a sorted list, an enclosing span at a smaller index is an ancestor,
    provided every span in between that encloses the inner one is enclosed
    by the outer one. *)
Lemma enclosing_is_ancestor ws i :
  ∀ j A B,
    ws !! j = Some A → ws !! i = Some B → (j < i)%nat →
    encloses A B = true →
    (∀ k X, (j < k < i)%nat → ws !! k = Some X →
            encloses X B = true → encloses A X = true) →
    descendant (containment ws).1 j i.
Proof.
  induction i as [i IH] using lt_wf_ind. intros j A B HA HB Hji He Hbetween.
  destruct (find_parent_is_Some ws B i j A Hji HA He) as (k & Hk & Hjk).
  pose proof (lookup_lt_Some _ _ _ HB) as Hi.
  assert (child_in (containment ws).1 k i) as Hchild.
  { apply child_in_containment. split; [done|]. unfold parent_of. by rewrite HB. }
  destruct (decide (k = j)) as [->|Hne]; [by apply tc_once|].
  apply find_parent_Some in Hk as (Hki & (X & HX & HXB) & _).
  eapply tc_r; [|exact Hchild].
  apply (IH k Hki j A X); [done|done|lia| |].
  - apply (Hbetween k); [lia|done|done].
  - intros k' X' Hk' HX' HX'X. apply (Hbetween k'); [lia|done|].
    apply encloses_iff in HX'X, HXB. apply encloses_iff. lia.
Qed.

Lemma elem_of_of_kind kinds ops o :
  o ∈ of_kind kinds ops ↔ o ∈ ops ∧ op_kind o ∈ kinds ∧ 0 < op_length o.
Proof. unfold of_kind. rewrite list_elem_of_filter. naive_solver. Qed.

(** The wrappers of a line are its operations of positive length other
    than the style operations. *)
Lemma elem_of_wrappers ops o :
  o ∈ wrappers ops ↔ o ∈ ops ∧ is_wrapper o.
Proof.
  unfold wrappers. rewrite sorted_by_elem. rewrite !elem_of_app.
  unfold person_ops, place_ops, ref_ops, unclear_ops, choice_ops, num_ops,
    other_ops, is_wrapper.
  rewrite !elem_of_of_kind, list_elem_of_filter. unfold known_kinds.
  rewrite !elem_of_cons, !elem_of_nil. split.
  - intros H. split; [naive_solver|]. split; [|naive_solver].
    intros E. rewrite E in H. naive_solver.
  - intros (Hin & Hk & Hl).
    destruct (decide (op_kind o ∈ known_kinds)) as [Hkn|Hkn].
    + unfold known_kinds in Hkn. rewrite !elem_of_cons, elem_of_nil in Hkn.
      naive_solver.
    + unfold known_kinds in Hkn. rewrite !elem_of_cons, elem_of_nil in Hkn.
      do 6 right. split; [|done]. done.
Qed.

(** Two spans over the same interval. *)
Definition same_interval (a b : op) : Prop :=
  op_offset a = op_offset b ∧ op_end a = op_end b.

(** An enclosing wrapper that sorts first is an ancestor in the forest,
    provided every wrapper enclosing the inner one is nested with the outer
    one. *)
Lemma wrappers_enclosing_is_ancestor ops j i A B :
  wrappers ops !! j = Some A → wrappers ops !! i = Some B →
  encloses A B = true →
  (same_interval A B → op_priority (op_kind A) < op_priority (op_kind B)) →
  (∀ X, X ∈ wrappers ops → encloses X B = true →
        encloses X A = true ∨ encloses A X = true) →
  descendant (containment (wrappers ops)).1 j i.
Proof.
  intros HA HB He Hord Hcmp.
  pose proof (wrappers_sorted ops) as Hs.
  assert (∀ k l X Y, (k < l)%nat → wrappers ops !! k = Some X →
            wrappers ops !! l = Some Y → wrapper_key_le X Y = true) as Hle.
  { intros k l X Y Hkl HX HY.
    by apply (StronglySorted_lookup _ _ k l X Y Hs). }
  apply encloses_iff in He as He'.
  assert (j < i)%nat as Hji.
  { destruct (decide (j < i)%nat); [done|]. exfalso.
    destruct (decide (i = j)) as [->|].
    - simplify_eq. unfold same_interval in Hord. lia.
    - assert (wrapper_key_le B A = true) as Hk by (apply (Hle i j); [lia|done..]).
      apply wrapper_key_le_iff in Hk. unfold same_interval in Hord. lia. }
  apply (enclosing_is_ancestor _ i j A B); [done..|].
  intros k X Hk HX HXB.
  destruct (Hcmp X) as [HXA|]; [by eapply list_elem_of_lookup_2|done|  |done].
  assert (wrapper_key_le A X = true) as Hk' by (apply (Hle j k); [lia|done..]).
  apply wrapper_key_le_iff in Hk'. apply encloses_iff in HXA.
  apply encloses_iff. lia.
Qed.

(** C3 (as amended): in the forest built over the wrappers of a line, a
    span [B] is a descendant of every span [A] that encloses it
    ([A.offset ≤ B.offset] and [A.end ≥ B.end]) and either has a different
    interval or, with the same interval, a kind of a lower priority class,
    provided every wrapper that encloses [B] is nested with [A] (encloses
    [A] or is enclosed by [A]).  Spans that lie between them do not
    matter. *)
Theorem enclosed_span_is_descendant ops j i A B :
  wrappers ops !! j = Some A → wrappers ops !! i = Some B →
  op_offset A ≤ op_offset B → op_end B ≤ op_end A →
  (same_interval A B → op_priority (op_kind A) < op_priority (op_kind B)) →
  (∀ X, X ∈ ops → is_wrapper X → encloses X B = true →
        encloses X A = true ∨ encloses A X = true) →
  descendant (containment (wrappers ops)).1 j i.
Proof.
  intros HA HB Ho He Hord Hcmp.
  apply (wrappers_enclosing_is_ancestor ops j i A B); [done..| |done|].
  - apply encloses_iff. lia.
  - intros X [HX Hw]%elem_of_wrappers. by apply Hcmp.
Qed.

Lemma tc_first_step {A} (R : relation A) x z : tc R x z → ∃ y, R x y.
Proof. destruct 1; eauto. Qed.

Lemma enclosed_span_is_descendant_witness :
  descendant
    (containment (wrappers [span "person" 0 10 []; span "num" 2 6 [];
                            span "abbrev" 3 2 []])).1 0 2.
Proof.
  apply (enclosed_span_is_descendant
           [span "person" 0 10 []; span "num" 2 6 []; span "abbrev" 3 2 []]
           0 2 (span "person" 0 10 []) (span "abbrev" 3 2 []));
    [reflexivity | reflexivity | vm_compute; congruence | vm_compute; congruence
    | intros [H1 H2]; vm_compute in H1; discriminate | ].
  intros X HX _ _. rewrite !elem_of_cons, elem_of_nil in HX.
  destruct HX as [->|[->|[->|[]]]]; vm_compute; auto.
Defined.

(** Strictly between [A] and [B]: enclosed by [A], enclosing [B], with an
    interval different from both. *)
Definition strictly_between (A B X : op) : Prop :=
  encloses A X = true ∧ encloses X B = true
  ∧ ¬ same_interval X A ∧ ¬ same_interval X B.

(** C3 (as stated) fails when a third span overlaps the outer one: over the
    spans [0,10), [2,12) and [3,5) the first encloses the third and no span
    lies strictly between them, yet the third is placed under the second,
    which is a root, and is no descendant of the first. *)
Lemma enclosed_span_not_descendant :
  let ops := [span "num" 0 10 []; span "num" 2 10 []; span "num" 3 2 []] in
  let A := span "num" 0 10 [] in
  let B := span "num" 3 2 [] in
  wrappers ops !! 0%nat = Some A ∧ wrappers ops !! 2%nat = Some B
  ∧ op_offset A ≤ op_offset B ∧ op_end B ≤ op_end A
  ∧ (∀ X, X ∈ wrappers ops → ¬ strictly_between A B X)
  ∧ ¬ descendant (containment (wrappers ops)).1 0 2.
Proof.
  cbn zeta. split; [reflexivity|]. split; [reflexivity|].
  split; [by vm_compute|]. split; [by vm_compute|]. split.
  - intros X HX. change (wrappers _) with
      [span "num" 0 10 []; span "num" 2 10 []; span "num" 3 2 []] in HX.
    rewrite !elem_of_cons, elem_of_nil in HX.
    unfold strictly_between, same_interval.
    destruct HX as [->|[->|[->|[]]]]; vm_compute; intuition congruence.
  - intros H. apply tc_first_step in H as [y Hy].
    unfold child_in in Hy. vm_compute in Hy. by apply elem_of_nil in Hy.
Qed.

(** *** The child elements of a populated wrapper *)

(** An element without its tail. *)
Definition untail (e : Element) : Element := set_tail e None.

Lemma untail_set_tail e x : untail (set_tail e x) = untail e.
Proof. done. Qed.

Lemma map_untail_map_last (f : Element → Element) cs :
  (∀ e, untail (f e) = untail e) → map untail (map_last f cs) = map untail cs.
Proof.
  intros Hf. induction cs as [|c cs IH]; [done|].
  destruct cs as [|c' cs]; simpl in *; [by rewrite Hf|]. by rewrite IH.
Qed.

Lemma subelems_append_text parent s :
  map untail (subelems (append_text parent s)) = map untail (subelems parent).
Proof.
  unfold append_text. destruct (Str.is_empty s); [done|].
  destruct (text parent), (subelems parent) eqn:E;
    cbn [set_text set_subelems subelems]; rewrite ?E; try done.
  all: by apply map_untail_map_last.
Qed.

Lemma subelems_foldl_insert_node tmp (nodes : list Node) :
  map untail (subelems (foldl insert_node tmp nodes))
  = map untail (subelems tmp ++ omap is_element nodes).
Proof.
  revert tmp. induction nodes as [|[s|e] nodes IH]; intros tmp.
  - simpl. by rewrite List.app_nil_r.
  - cbn [foldl insert_node]. rewrite IH, !map_app, subelems_append_text. done.
  - cbn [foldl insert_node]. rewrite IH. simpl.
    by rewrite <- List.app_assoc.
Qed.

Lemma subelems_extract_lead tmp :
  subelems (extract_lead tmp).2 = subelems tmp.
Proof. unfold extract_lead. repeat case_match; done. Qed.

Lemma subelems_extract_trail tmp :
  map untail (subelems (extract_trail tmp).2) = map untail (subelems tmp).
Proof.
  unfold extract_trail. repeat case_match; try done.
  cbn [snd set_subelems subelems]. by apply map_untail_map_last.
Qed.

Lemma tail_foldl_append_child e cs :
  tail (foldl append_child e cs) = tail e.
Proof. revert e. induction cs as [|c cs IH]; intros e; simpl; [done|]. by rewrite IH. Qed.

(** A fresh target receives the element nodes, in order, with possibly
    different tails. *)
Lemma populate_subelems target (nodes : list Node) :
  subelems target = [] →
  map untail (subelems (populate_target_with_nodes target nodes).1.2)
  = map untail (omap is_element nodes)
  ∧ attrib (populate_target_with_nodes target nodes).1.2 = attrib target
  ∧ tail (populate_target_with_nodes target nodes).1.2 = tail target.
Proof.
  intros Hleaf. unfold populate_target_with_nodes.
  pose proof (subelems_foldl_insert_node (new_element "tmp") nodes) as H0.
  set (tmp0 := foldl insert_node (new_element "tmp") nodes) in *.
  pose proof (subelems_extract_lead tmp0) as H1.
  destruct (extract_lead tmp0) as [lead tmp1]. cbn [fst snd] in *.
  pose proof (subelems_extract_trail tmp1) as H2.
  destruct (extract_trail tmp1) as [trail tmp]. cbn [fst snd] in *.
  rewrite H1, H0 in H2. simpl in H2.
  set (target1 := if Str.truthy_opt (text tmp) then _ else target).
  assert (subelems target1 = [] ∧ attrib target1 = attrib target
          ∧ tail target1 = tail target) as (S1 & A1 & T1).
  { unfold target1. by destruct (Str.truthy_opt (text tmp)). }
  destruct (subelems_foldl_append_child target1 (subelems tmp)) as (-> & _ & ->).
  rewrite S1. simpl. split; [done|]. split; [done|].
  by rewrite tail_foldl_append_child.
Qed.

(** *** The shape of the wrappers for [abbrev] and [person] *)

Lemma build_wrapper_abbrev t w inner :
  op_kind w = "abbrev" →
  build_wrapper_element t w inner =
  let '(lead, a, trail) :=
    populate_target_with_nodes (new_element (qn "abbr")) inner in
  maybe_wrap_with_edge_whitespace lead trail
    (choice_of a (Elem (qn "expan") []
                    (Some (Str.or_empty (op_get w "expansion"))) [] None)).
Proof.
  intros Hk. unfold build_wrapper_element. rewrite Hk.
  rewrite bool_decide_true by by_compute.
  change (String.eqb "abbrev" "abbrev") with true.
  change (String.eqb "abbrev" "regularised") with false.
  done.
Qed.

Lemma build_wrapper_person t w inner :
  op_kind w = "person" →
  build_wrapper_element t w inner =
  let '(lead, el, trail) := populate_target_with_nodes (persName_for w) inner in
  maybe_wrap_with_edge_whitespace lead trail el.
Proof.
  intros Hk. unfold build_wrapper_element. rewrite Hk.
  rewrite bool_decide_false by by_compute.
  change (String.eqb "person" "num") with false.
  change (String.eqb "person" "person") with true.
  done.
Qed.

(** A node sequence made of strings only. *)
Definition only_strings (nodes : list Node) : Prop :=
  Forall (λ n, ∃ s, n = NStr s) nodes.

Lemma only_strings_plain s : only_strings (plain s).
Proof.
  unfold plain, only_strings. destruct (Str.is_empty s); repeat constructor.
  by eexists.
Qed.

Lemma omap_is_element_strings nodes :
  only_strings nodes → omap is_element nodes = [].
Proof. induction 1 as [|n nodes [s ->] _ IH]; [done|]. exact IH. Qed.

Lemma built_nodes_shape lead trail el :
  ∃ pre post,
    built_nodes (maybe_wrap_with_edge_whitespace lead trail el)
    = pre ++ [NElem el] ++ post
    ∧ only_strings pre ∧ only_strings post.
Proof.
  unfold maybe_wrap_with_edge_whitespace.
  destruct (Str.truthy lead) eqn:E1, (Str.truthy trail) eqn:E2; simpl;
    rewrite ?E1, ?E2.
  - exists [NStr lead], [NStr trail]. repeat split; repeat constructor; by eexists.
  - exists [NStr lead], []. repeat split; repeat constructor; by eexists.
  - exists [], [NStr trail]. repeat split; repeat constructor; by eexists.
  - exists [], []. repeat split; constructor.
Qed.

(** The repair pass finds nothing to wrap in a sequence whose elements are
    all [persName] elements. *)
Lemma wrap_nothing nodes p :
  Forall (λ n, ∀ e, n = NElem e → tag e = qn "persName") nodes →
  wrap_choice_in_nodes_list nodes p = None.
Proof.
  induction 1 as [|n nodes Hn _ IH]; [done|]. simpl.
  destruct n as [s|e]; [by rewrite IH|].
  rewrite (Hn e eq_refl). rewrite String.eqb_refl. by rewrite IH.
Qed.

(** *** A person and an abbreviation over the same interval *)

Lemma of_kind_cons kinds o ops :
  of_kind kinds (o :: ops) =
  if bool_decide (op_kind o ∈ kinds) && (0 <? op_length o)
  then o :: of_kind kinds ops else of_kind kinds ops.
Proof.
  unfold of_kind. rewrite filter_cons.
  destruct (decide _) as [[H1 H2]|H].
  - rewrite bool_decide_true by done. by destruct (Z.ltb_spec 0 (op_length o)); [|lia].
  - destruct (bool_decide _) eqn:E1; [|done].
    destruct (Z.ltb_spec 0 (op_length o)); [|done].
    apply bool_decide_eq_true in E1. by destruct H.
Qed.

Lemma other_ops_cons o ops :
  other_ops (o :: ops) =
  if negb (bool_decide (op_kind o ∈ known_kinds)) && (0 <? op_length o)
  then o :: other_ops ops else other_ops ops.
Proof.
  unfold other_ops. rewrite filter_cons.
  destruct (decide _) as [[H1 H2]|H].
  - rewrite bool_decide_false by done. by destruct (Z.ltb_spec 0 (op_length o)); [|lia].
  - destruct (bool_decide _) eqn:E1; [done|].
    destruct (Z.ltb_spec 0 (op_length o)); [|done].
    apply bool_decide_eq_false in E1. by destruct H.
Qed.

Ltac eval_kinds :=
  repeat match goal with
  | |- context [bool_decide (?k ∈ ?l)] =>
      let b := eval vm_compute in (bool_decide (k ∈ l)) in
      change (bool_decide (k ∈ l)) with b
  end.

Section PersonAbbrev.
Variables (t : string) (p a : op).
Hypothesis kind_p : op_kind p = "person".
Hypothesis kind_a : op_kind a = "abbrev".
Hypothesis same : same_interval p a.
Hypothesis len_p : 0 < op_length p.
Hypothesis len_a : 0 < op_length a.

Lemma wrappers_pair : wrappers [p; a] = [p; a] ∧ wrappers [a; p] = [p; a].
Proof using kind_p kind_a same len_p len_a.
  assert (wrapper_key_le p a = true) as Hle.
  { apply wrapper_key_le_iff. destruct same as [-> ->].
    rewrite kind_p, kind_a. right. split; [done|]. right. split; [done|].
    by vm_compute. }
  apply Z.ltb_lt in len_p as Lp. apply Z.ltb_lt in len_a as La.
  unfold wrappers, person_ops, place_ops, ref_ops, unclear_ops, choice_ops,
    num_ops. rewrite !of_kind_cons, !other_ops_cons, kind_p, kind_a, Lp, La.
  eval_kinds. cbn [andb negb]. unfold of_kind, other_ops. rewrite !filter_nil.
  simpl. by rewrite Hle.
Qed.

Lemma parents_pair :
  parent_of [p; a] 0 = None ∧ parent_of [p; a] 1 = Some 0%nat.
Proof using same.
  split; [done|]. unfold parent_of. simpl.
  assert (encloses p a = true) as ->; [|done].
  apply encloses_iff. destruct same. lia.
Qed.

Lemma containment_pair :
  default [] ((containment [p; a]).1 !! 0%nat) = [1%nat]
  ∧ default [] ((containment [p; a]).1 !! 1%nat) = []
  ∧ (containment [p; a]).2 = [0%nat].
Proof using same.
  destruct (containment_spec [p; a]) as [H1 H2].
  destruct parents_pair as [P0 P1].
  rewrite !H1, H2. cbn [length seq].
  rewrite !filter_cons, !filter_nil, P0, P1.
  repeat (rewrite decide_True by done || rewrite decide_False by done). done.
Qed.

(** The abbreviation as rendered inside the person. *)
Definition abbrev_built : Built :=
  build_wrapper_element t a
    (render_plain_segment t [] (op_offset a) (op_end a)).

Lemma render_line_pair ops :
  wrappers ops = [p; a] → style_ops ops = [] →
  render_line t ops =
  Some ((if 0 <? op_offset p
         then render_plain_segment t [] 0 (op_offset p) else [])
        ++ built_nodes (build_wrapper_element t p (built_nodes abbrev_built))
        ++ (if op_end p <? Str.len t
            then render_plain_segment t [] (op_end p) (Str.len t) else [])).
Proof using same.
  intros Hws Hst. unfold render_line. rewrite Hws, Hst.
  destruct containment_pair as (C0 & C1 & R).
  destruct (containment [p; a]) as [children roots]. cbn [fst snd] in *.
  subst roots. unfold render_roots, render_wrappers, by_offset.
  cbn [sorted_by insert_by foldl length].
  unfold place_wrapper at 1. cbn [mbind option_bind lookup list_lookup].
  rewrite C0.
  (* the content of the person *)
  cbn [render_span]. unfold render_wrappers, by_offset.
  cbn [sorted_by insert_by foldl].
  unfold place_wrapper at 1. cbn [mbind option_bind lookup list_lookup].
  rewrite C1. cbn [render_span mbind option_bind].
  destruct same as [So Se]. rewrite So, Z.ltb_irrefl.
  cbn [fmap option_fmap option_map render_tail app].
  rewrite Se, Z.ltb_irrefl. cbn [mbind option_bind].
  unfold render_tail, abbrev_built. cbn [fmap option_fmap option_map].
  destruct (0 <? op_offset a), (op_end a <? Str.len t);
    cbn [app]; rewrite <- ?List.app_assoc, ?List.app_nil_r; done.
Qed.

End PersonAbbrev.

Lemma subelems_persName_for w : subelems (persName_for w) = [].
Proof.
  unfold persName_for, copy_attr.
  case_bool_decide; repeat case_match; done.
Qed.

Lemma render_plain_segment_strings t a b :
  only_strings (render_plain_segment t [] a b).
Proof. rewrite render_plain_segment_no_style. apply only_strings_plain. Qed.

Lemma only_strings_app n1 n2 :
  only_strings n1 → only_strings n2 → only_strings (n1 ++ n2).
Proof. apply Forall_app_2. Qed.

Lemma only_strings_if (b : bool) nodes :
  only_strings nodes → only_strings (if b then nodes else []).
Proof. destruct b; [done|constructor]. Qed.

Lemma unify_person_nothing nodes p cs :
  Forall (λ n, ∀ e, n = NElem e → tag e = qn "persName") nodes →
  unify_person nodes p cs = nodes.
Proof.
  intros H. induction cs as [|c cs IHc]; [done|]. simpl.
  rewrite wrap_nothing by done. by destruct (overlapping p c).
Qed.

Lemma unify_nothing ops nodes :
  Forall (λ n, ∀ e, n = NElem e → tag e = qn "persName") nodes →
  unify ops nodes = nodes.
Proof.
  intros H. unfold unify. induction (person_ops ops) as [|p ps IH]; [done|].
  simpl. by rewrite unify_person_nothing.
Qed.

(** A person span and an abbreviation span over the same interval.  In
    the forest of any line that holds both, the person is an ancestor of the
    abbreviation; and the line made of the two spans, given in either
    order, is rendered as one [persName] element (between plain strings)
    whose only child is the [choice] element, itself made of the [abbr] and
    [expan] elements without any further element inside. *)
Lemma person_wraps_abbrev_pair t ops p a :
  op_kind p = "person" → op_kind a = "abbrev" → same_interval p a →
  0 < op_length p → 0 < op_length a →
  (p ∈ ops → ∀ i, wrappers ops !! i = Some a →
     ∃ j, wrappers ops !! j = Some p
          ∧ descendant (containment (wrappers ops)).1 j i)
  ∧ ∃ pre pers c abbr post,
      build_inline_nodes_for_line t [p; a] = Some (pre ++ [NElem pers] ++ post)
      ∧ build_inline_nodes_for_line t [a; p] = Some (pre ++ [NElem pers] ++ post)
      ∧ only_strings pre ∧ only_strings post
      ∧ tag pers = qn "persName" ∧ subelems pers = [c]
      ∧ tag c = qn "choice"
      ∧ subelems c = [abbr; Elem (qn "expan") []
                              (Some (Str.or_empty (op_get a "expansion"))) [] None]
      ∧ tag abbr = qn "abbr" ∧ subelems abbr = [].
Proof.
  intros Hkp Hka Hsame Hlp Hla. split.
  - intros Hp i Hi.
    assert (p ∈ wrappers ops) as Hpw.
    { apply elem_of_wrappers. split; [done|]. split; [|done]. by rewrite Hkp. }
    apply list_elem_of_lookup in Hpw as [j Hj]. exists j. split; [done|].
    apply (wrappers_enclosing_is_ancestor ops j i p a); [done|done| | |].
    + apply encloses_iff. destruct Hsame. lia.
    + intros _. rewrite Hkp, Hka. by vm_compute.
    + intros X _ HX. left. apply encloses_iff in HX. apply encloses_iff.
      destruct Hsame. lia.
  - destruct (wrappers_pair p a Hkp Hka Hsame Hlp Hla) as [W1 W2].
    assert (∀ ops', wrappers ops' = [p; a] → style_ops ops' = [] →
              person_ops ops' = [p] →
              ∃ pre pers c abbr post,
                build_inline_nodes_for_line t ops' = Some (pre ++ [NElem pers] ++ post)
                ∧ pre ++ [NElem pers] ++ post
                  = (if 0 <? op_offset p
                     then render_plain_segment t [] 0 (op_offset p) else [])
                    ++ built_nodes (build_wrapper_element t p
                                      (built_nodes (abbrev_built t a)))
                    ++ (if op_end p <? Str.len t
                        then render_plain_segment t [] (op_end p) (Str.len t) else [])
                ∧ only_strings pre ∧ only_strings post
                ∧ tag pers = qn "persName" ∧ subelems pers = [c]
                ∧ tag c = qn "choice"
                ∧ subelems c = [abbr; Elem (qn "expan") []
                                  (Some (Str.or_empty (op_get a "expansion"))) [] None]
                ∧ tag abbr = qn "abbr" ∧ subelems abbr = []) as Hgen.
    { intros ops' Hws Hst Hpo.
      unfold build_inline_nodes_for_line.
      rewrite (render_line_pair t p a Hsame ops' Hws Hst). cbn [fmap option_fmap option_map].
      (* the abbreviation *)
      unfold abbrev_built. rewrite (build_wrapper_abbrev t a) by done.
      pose proof (populate_tag (new_element (qn "abbr"))
                    (render_plain_segment t [] (op_offset a) (op_end a))) as Ta.
      pose proof (populate_subelems (new_element (qn "abbr"))
                    (render_plain_segment t [] (op_offset a) (op_end a)) eq_refl)
        as (Sa & _ & Tla).
      rewrite (omap_is_element_strings _ (render_plain_segment_strings _ _ _)) in Sa.
      destruct (populate_target_with_nodes (new_element (qn "abbr")) _)
        as [[l1 abbr] t1]. cbn [fst snd] in Ta, Sa, Tla.
      apply fmap_nil_inv in Sa.
      set (expan := Elem (qn "expan") [] _ [] None).
      destruct (built_nodes_shape l1 t1 (choice_of abbr expan))
        as (pre1 & post1 & -> & Hpre1 & Hpost1).
      (* the person *)
      rewrite (build_wrapper_person t p) by done.
      pose proof (populate_tag (persName_for p)
                    (pre1 ++ [NElem (choice_of abbr expan)] ++ post1)) as Tp.
      pose proof (populate_subelems (persName_for p)
                    (pre1 ++ [NElem (choice_of abbr expan)] ++ post1)
                    (subelems_persName_for p)) as (Sp & _ & _).
      rewrite !omap_app, (omap_is_element_strings pre1),
        (omap_is_element_strings post1) in Sp by done.
      destruct (populate_target_with_nodes (persName_for p) _)
        as [[l2 pers] t2]. cbn [fst snd] in Tp, Sp.
      rewrite tag_persName_for in Tp.
      destruct (subelems pers) as [|c [|c' cs]] eqn:Ec; try done.
      simpl in Sp. injection Sp as Sp.
      destruct (built_nodes_shape l2 t2 pers)
        as (pre2 & post2 & -> & Hpre2 & Hpost2).
      set (gap1 := if 0 <? op_offset p then _ else []).
      set (gap2 := if op_end p <? Str.len t then _ else []).
      assert (only_strings gap1) as Hg1
        by apply only_strings_if, render_plain_segment_strings.
      assert (only_strings gap2) as Hg2
        by apply only_strings_if, render_plain_segment_strings.
      exists (gap1 ++ pre2), pers, c, abbr, (post2 ++ gap2).
      assert ((gap1 ++ pre2) ++ [NElem pers] ++ post2 ++ gap2
              = gap1 ++ (pre2 ++ [NElem pers] ++ post2) ++ gap2) as Eq.
      { by rewrite <- !List.app_assoc. }
      split.
      { rewrite <- Eq. f_equal. apply unify_nothing.
        apply Forall_app. split; [|apply Forall_cons; split].
        - eapply Forall_impl; [apply only_strings_app; [exact Hg1|exact Hpre2]|].
          intros n [s ->] e He. done.
        - intros e He. by simplify_eq.
        - eapply Forall_impl; [apply only_strings_app; [exact Hpost2|exact Hg2]|].
          intros n [s ->] e He. done. }
      split; [done|].
      split; [by apply only_strings_app|]. split; [by apply only_strings_app|].
      split; [done|]. split; [done|].
      assert (tag c = tag (choice_of abbr expan)
              ∧ subelems c = subelems (choice_of abbr expan)) as [-> ->].
      { unfold untail in Sp. destruct c. simpl in *. by subst. }
      done. }
    assert (∀ x y, op_kind x = "person" → op_kind y = "abbrev" →
              0 < op_length x → 0 < op_length y →
              style_ops [x; y] = [] ∧ style_ops [y; x] = []
              ∧ person_ops [x; y] = [x] ∧ person_ops [y; x] = [x]) as Hsp.
    { intros x y Hx Hy Lx%Z.ltb_lt Ly%Z.ltb_lt.
      unfold style_ops, person_ops.
      rewrite !of_kind_cons, Hx, Hy, Lx, Ly. eval_kinds. done. }
    destruct (Hsp p a Hkp Hka Hlp Hla) as (S1 & S2 & P1 & P2).
    destruct (Hgen [p; a] W1 S1 P1)
      as (pre & pers & c & abbr & post & H1 & Heq & H3).
    destruct (Hgen [a; p] W2 S2 P2)
      as (pre' & pers' & c' & abbr' & post' & H1' & Heq' & _).
    exists pre, pers, c, abbr, post. split; [done|]. split; [|done].
    by rewrite H1', Heq', <- Heq.
Qed.

(** ** The repair pass (C4) *)

Section GatherWrap.
Variable skip : string → bool.
Hypothesis skip_pers : skip (qn "persName") = false.

Lemma gather_persName_for w : gather skip (persName_for w) = "".
Proof using skip_pers.
  rewrite gather_unfold, tag_persName_for, skip_pers, subelems_persName_for.
  unfold persName_for, copy_attr. case_bool_decide; repeat case_match; done.
Qed.

Lemma tail_persName_for w : tail (persName_for w) = None.
Proof.
  unfold persName_for, copy_attr. case_bool_decide; repeat case_match; done.
Qed.

Lemma gather_wrapped_child w c :
  gather skip (append_child (persName_for w) c)
  = gather skip c +:+ Str.or_empty (tail c).
Proof using skip_pers.
  rewrite gather_append_child by (by rewrite tag_persName_for).
  by rewrite gather_persName_for.
Qed.

Lemma gather_wrap_in_element p e e' :
  wrap_choice_in_persname_in_element p e = Some e' →
  gather skip e' = gather skip e ∧ tail e' = tail e.
Proof using skip_pers.
  revert e'. induction e as [tg at_ tx cs tl IH] using Element_ind.
  intros e'. rewrite wrap_in_element_unfold. cbn [tag subelems].
  destruct (String.eqb tg (qn "persName")); [done|].
  destruct (wrap_children p cs) as [cs'|] eqn:E; [|done]. simpl.
  intros ?; simplify_eq. split; [|done].
  rewrite !gather_unfold. cbn [tag text subelems set_subelems].
  destruct (skip tg); [done|]. f_equal.
  revert cs' E. induction cs as [|c cs IHcs]; intros cs' E; [done|].
  apply Forall_cons in IH as [IHc IH].
  rewrite wrap_children_cons in E.
  change (c :: cs) with ([c] ++ cs). rewrite (gather_list_app _ [c] cs).
  destruct (String.eqb (tag c) (qn "persName")).
  { destruct (wrap_children p cs) as [cs1|] eqn:E1; [|done]. simpl in E.
    simplify_eq. change (c :: cs1) with ([c] ++ cs1).
    rewrite gather_list_app. f_equal. by apply IHcs. }
  destruct (String.eqb (tag c) (qn "choice")).
  { simplify_eq. change (?x :: cs) with ([x] ++ cs).
    rewrite gather_list_app. f_equal. unfold gather_list. simpl.
    rewrite gather_wrapped_child.
    by rewrite tail_persName_for, !StrFacts.app_nil_r. }
  destruct (wrap_choice_in_persname_in_element p c) as [c'|] eqn:Ec.
  { simplify_eq. change (c' :: cs) with ([c'] ++ cs).
    rewrite gather_list_app. f_equal. unfold gather_list. simpl.
    destruct (IHc c' eq_refl) as [-> ->]. done. }
  destruct (wrap_children p cs) as [cs1|] eqn:E1; [|done]. simpl in E.
  simplify_eq. change (c :: cs1) with ([c] ++ cs1).
  rewrite gather_list_app. f_equal. by apply IHcs.
Qed.

(** The repair pass keeps the text content, the tail of the wrapped node
    included. *)
Lemma gather_wrap_in_nodes_list nodes p nodes' :
  wrap_choice_in_nodes_list nodes p = Some nodes' →
  gather_nodes skip nodes' = gather_nodes skip nodes.
Proof using skip_pers.
  revert nodes'. induction nodes as [|n nodes IH]; intros nodes' H; [done|].
  simpl in H. change (n :: nodes) with ([n] ++ nodes).
  rewrite (gather_nodes_app _ [n] nodes).
  destruct n as [s|e].
  - destruct (wrap_choice_in_nodes_list nodes p) as [r|]; [|done].
    simpl in H. simplify_eq. change (NStr s :: r) with ([NStr s] ++ r).
    rewrite gather_nodes_app. f_equal. by apply IH.
  - destruct (String.eqb (tag e) (qn "persName")).
    { destruct (wrap_choice_in_nodes_list nodes p) as [r|]; [|done].
      simpl in H. simplify_eq. change (NElem e :: r) with ([NElem e] ++ r).
      rewrite gather_nodes_app. f_equal. by apply IH. }
    destruct (String.eqb (tag e) (qn "choice")).
    { simplify_eq. change (?x :: nodes) with ([x] ++ nodes).
      rewrite gather_nodes_app. f_equal. unfold gather_nodes. simpl.
      rewrite gather_set_tail, gather_wrapped_child, gather_set_tail. simpl.
      by rewrite !StrFacts.app_nil_r. }
    destruct (wrap_choice_in_persname_in_element p e) as [e'|] eqn:Ee.
    { simplify_eq. change (?x :: nodes) with ([x] ++ nodes).
      rewrite gather_nodes_app. f_equal. unfold gather_nodes. simpl.
      destruct (gather_wrap_in_element p e e' Ee) as [-> ->]. done. }
    destruct (wrap_choice_in_nodes_list nodes p) as [r|]; [|done].
    simpl in H. simplify_eq. change (NElem e :: r) with ([NElem e] ++ r).
    rewrite gather_nodes_app. f_equal. by apply IH.
Qed.

Lemma gather_unify_person nodes p cs :
  gather_nodes skip (unify_person nodes p cs) = gather_nodes skip nodes.
Proof using skip_pers.
  induction cs as [|c cs IH]; [done|]. simpl.
  destruct (overlapping p c); [|done].
  destruct (wrap_choice_in_nodes_list nodes p) as [nodes'|] eqn:E; [|done].
  by eapply gather_wrap_in_nodes_list.
Qed.

Lemma gather_unify ops nodes :
  gather_nodes skip (unify ops nodes) = gather_nodes skip nodes.
Proof using skip_pers.
  unfold unify. generalize (person_ops ops) as ps. intros ps. revert nodes.
  induction ps as [|p ps IH]; intros nodes; [done|].
  simpl. by rewrite IH, gather_unify_person.
Qed.

End GatherWrap.












(** ** Boolean-like attributes (C9) *)

Section ParserFacts.
Import Parser.

(** The canonical spelling of a boolean-like value. *)
Definition canonical (v : string) : string :=
  if parse_bool (VStr v) then "true" else "false".

Definition style_flags : list string :=
  ["bold"; "italic"; "underline"; "superscript"; "subscript"].

Lemma dget_dset {V} k k' (v : V) d :
  dget k (dset k' v d) = if String.eqb k' k then Some v else dget k d.
Proof.
  induction d as [|[k1 v1] d IH]; simpl.
  - done.
  - destruct (String.eqb_spec k1 k') as [->|Hne]; simpl.
    + by destruct (String.eqb k' k).
    + rewrite IH. destruct (String.eqb_spec k' k) as [->|]; [|done].
      by destruct (String.eqb_spec k1 k).
Qed.

Lemma dset_keys {V} k (v : V) d x :
  x ∈ (dset k v d).*1 ↔ x = k ∨ x ∈ d.*1.
Proof.
  induction d as [|[k1 v1] d IH]; simpl.
  - rewrite list_elem_of_singleton, elem_of_nil. naive_solver.
  - destruct (String.eqb_spec k1 k) as [->|Hne]; simpl.
    + rewrite !elem_of_cons. naive_solver.
    + rewrite !elem_of_cons, IH. naive_solver.
Qed.

Lemma dset_NoDup {V} k (v : V) d : NoDup d.*1 → NoDup (dset k v d).*1.
Proof.
  induction d as [|[k1 v1] d IH]; simpl; intros H.
  - repeat constructor. apply not_elem_of_nil.
  - apply NoDup_cons in H as [H1 H2].
    destruct (String.eqb_spec k1 k) as [->|Hne]; simpl.
    + by apply NoDup_cons.
    + apply NoDup_cons. split; [|by apply IH].
      rewrite dset_keys. naive_solver.
Qed.

Lemma kv_of_NoDup body : NoDup (kv_of body).*1.
Proof.
  unfold kv_of. generalize (pairs_of body) as l. intros l.
  assert (∀ d : list (string * string), NoDup d.*1 →
            NoDup (foldl (λ kv part, dset part.1 part.2 kv) d l).*1) as H.
  { induction l as [|x l IH]; intros d Hd; [done|]. simpl.
    by apply IH, dset_NoDup. }
  apply H. constructor.
Qed.

Lemma dget_None {V} k (d : list (string * V)) : k ∉ d.*1 → dget k d = None.
Proof.
  induction d as [|[k1 v1] d IH]; simpl; [done|].
  rewrite not_elem_of_cons. intros [H1 H2].
  destruct (String.eqb_spec k1 k); [done|]. by apply IH.
Qed.

Definition copy_pair (op : list (string * pyval)) (kv : string * string)
  : list (string * pyval) :=
  if bool_decide (kv.1 ∈ ["offset"; "length"]) then op
  else dset kv.1 (VStr kv.2) op.

Lemma dget_copy_other k op kv :
  k ∉ kv.*1 → dget k (foldl copy_pair op kv) = dget k op.
Proof.
  revert op. induction kv as [|[k1 v1] kv IH]; intros op; simpl; [done|].
  rewrite not_elem_of_cons. intros [H1 H2]. rewrite IH by done.
  unfold copy_pair. simpl. case_bool_decide; [done|].
  rewrite dget_dset. by destruct (String.eqb_spec k1 k).
Qed.

Lemma dget_copy k v op kv :
  NoDup kv.*1 → dget k kv = Some v → k ∉ ["offset"; "length"] →
  dget k (foldl copy_pair op kv) = Some (VStr v).
Proof.
  intros Hnd Hget Hk. revert op.
  induction kv as [|[k1 v1] kv IH]; intros op; simpl in *; [done|].
  apply NoDup_cons in Hnd as [H1 H2].
  destruct (String.eqb_spec k1 k) as [->|Hne].
  - simplify_eq. rewrite dget_copy_other by done.
    unfold copy_pair. simpl. rewrite bool_decide_false by done.
    by rewrite dget_dset, String.eqb_refl.
  - by apply IH.
Qed.

Lemma dget_normalize_flag k k' op :
  dget k (normalize_flag k' op) =
  if String.eqb k' k
  then (λ v, VStr (if parse_bool v then "true" else "false")) <$> dget k op
  else dget k op.
Proof.
  unfold normalize_flag. destruct (String.eqb_spec k' k) as [->|Hne].
  - destruct (dget k op) as [v|] eqn:E; simpl.
    + by rewrite dget_dset, String.eqb_refl.
    + by rewrite E.
  - destruct (dget k' op) as [v|] eqn:E; [|done].
    rewrite dget_dset. by destruct (String.eqb_spec k' k).
Qed.

Lemma parse_token_unfold kind kv :
  parse_token kind kv =
  normalize_flag "continued"
    (let op := foldl copy_pair
                 [("kind", VStr kind);
                  ("offset", VInt (parse_int (default "0" (dget "offset" kv)) 0));
                  ("length", VInt (parse_int (default "0" (dget "length" kv)) 0));
                  ("end", VInt (parse_int (default "0" (dget "offset" kv)) 0
                                + parse_int (default "0" (dget "length" kv)) 0))]
                 kv in
     if String.eqb kind "textStyle"
     then foldl (λ op k, normalize_flag k op) op style_flags
     else op).
Proof. done. Qed.

(** C9 (as amended): for a token of kind [textStyle] the attributes [bold],
    [italic], [underline], [superscript] and [subscript] are replaced by
    ["true"] or ["false"], and for a token of any kind the attribute
    [continued] is; in a token of another kind the five style attributes
    are kept as written.  The canonical value is ["true"] for the spellings
    1, true, yes (and y) in any letter case and with surrounding
    whitespace, and ["false"] for 0, no, false and every other value. *)
Theorem boolean_flags_normalized kind body k v :
  dget k (kv_of body) = Some v →
  (k = "continued" →
   dget k (parse_token kind (kv_of body)) = Some (VStr (canonical v)))
  ∧ (k ∈ style_flags → kind = "textStyle" →
     dget k (parse_token kind (kv_of body)) = Some (VStr (canonical v)))
  ∧ (k ∈ style_flags → kind ≠ "textStyle" →
     dget k (parse_token kind (kv_of body)) = Some (VStr v))
  ∧ (lower (Str.strip v) ∈ ["1"; "true"; "yes"] → canonical v = "true")
  ∧ (lower (Str.strip v) ∈ ["0"; "no"; "false"] → canonical v = "false")
  ∧ (∀ custom_str op x,
       op ∈ parse_custom_ops custom_str → dget "continued" op = Some x →
       x = VStr "true" ∨ x = VStr "false").
Proof.
  intros Hget. pose proof (kv_of_NoDup body) as Hnd.
  rewrite parse_token_unfold. cbn zeta.
  assert (∀ op, k ∉ ["offset"; "length"] →
            dget k (foldl copy_pair op (kv_of body)) = Some (VStr v)) as Hcopy.
  { intros op Hk. by apply dget_copy. }
  split; [|split; [|split; [|split; [|split]]]].
  - intros ->. rewrite dget_normalize_flag. simpl.
    destruct (String.eqb kind "textStyle").
    + cbn [foldl style_flags]. rewrite !dget_normalize_flag. simpl.
      rewrite Hcopy by by_compute. done.
    + rewrite Hcopy by by_compute. done.
  - intros Hk ->. simpl. rewrite dget_normalize_flag.
    unfold style_flags in *. cbn [foldl].
    rewrite !elem_of_cons, elem_of_nil in Hk.
    destruct Hk as [->|[->|[->|[->|[->|[]]]]]]; simpl;
      rewrite !dget_normalize_flag; simpl;
      rewrite Hcopy by by_compute; done.
  - intros Hk Hkind. rewrite dget_normalize_flag.
    destruct (String.eqb_spec kind "textStyle"); [done|].
    unfold style_flags in *.
    rewrite !elem_of_cons, elem_of_nil in Hk.
    destruct Hk as [->|[->|[->|[->|[->|[]]]]]]; simpl;
      rewrite Hcopy by by_compute; done.
  - intros H. unfold canonical, parse_bool. simpl.
    rewrite bool_decide_true; [done|].
    rewrite !elem_of_cons, elem_of_nil in *. naive_solver.
  - intros H. unfold canonical, parse_bool. simpl.
    rewrite bool_decide_false; [done|].
    rewrite !elem_of_cons, elem_of_nil in *.
    intros H'. destruct H as [H|[H|[H|[]]]]; rewrite H in H'; naive_solver.
  - intros custom_str op x Hop Hx. unfold parse_custom_ops in Hop.
    apply list_elem_of_fmap in Hop as ([kind' body'] & -> & _).
    cbn [fst snd] in Hx. rewrite parse_token_unfold, dget_normalize_flag in Hx.
    simpl in Hx. destruct (dget "continued" _) as [y|]; [|done].
    simpl in Hx. simplify_eq. destruct (parse_bool y); auto.
Qed.

Lemma boolean_flags_normalized_witness :
  dget "bold" (parse_token "textStyle" (kv_of "offset:0; length:4; bold: YES ;"))
  = Some (VStr "true").
Proof.
  apply (boolean_flags_normalized "textStyle" "offset:0; length:4; bold: YES ;"
           "bold" "YES" eq_refl); [by_compute|reflexivity].
Defined.

(** C9 (as stated) fails for the five style attributes of a token whose kind
    is not [textStyle]: they are kept as written. *)
Lemma boolean_flags_not_normalized :
  parse_custom_ops "person {offset:0;length:3;bold:yes;}"
  = [[("kind", VStr "person"); ("offset", VInt 0); ("length", VInt 3);
      ("end", VInt 3); ("bold", VStr "yes")]].
Proof. reflexivity. Qed.

End ParserFacts.

(** ** Text preservation (C1) *)

(** A wrapper whose element holds the whole of its inner content: every
    wrapper but a regularised span with an explicit regularised value. *)
Definition keeps_inner (w : op) : Prop :=
  op_kind w = "regularised" →
  py_or (op_get w "regularised") (op_get w "reg") = None.

Section LineText.
Import Str StrFacts.

Notation lit := is_literal.
#[local] Arguments is_literal : simpl never.

Lemma gather_nodes_holder_nodes skip tmp :
  skip (tag tmp) = false →
  gather_nodes skip (holder_nodes tmp) = gather skip tmp.
Proof.
  intros Ht. unfold holder_nodes. rewrite gather_nodes_app, gather_unfold, Ht.
  f_equal.
  - destruct (text tmp) as [[|c s]|]; unfold gather_nodes; simpl;
      by rewrite ?app_nil_r.
  - induction (subelems tmp) as [|c cs IH]; [done|].
    cbn [map List.concat]. rewrite gather_nodes_app, IH.
    change (c :: cs) with ([c] ++ cs). rewrite gather_list_app. f_equal.
    unfold child_nodes, gather_list, gather_nodes.
    destruct (tail c) as [[|x s]|] eqn:E; simpl; rewrite ?E; simpl;
      by rewrite ?gather_set_tail, ?app_nil_r.
Qed.

Lemma gather_render_plain_segment skip styles t a b :
  skip "tmp" = false → skip (qn "hi") = false →
  gather_nodes skip (render_plain_segment t styles a b) = slice t a b.
Proof.
  intros H1 H2. unfold render_plain_segment.
  destruct (is_empty (slice t a b)) eqn:E.
  - by apply is_empty_true in E as ->.
  - rewrite gather_nodes_holder_nodes by (by rewrite tag_build_styled_nodes).
    rewrite gather_build_styled_nodes by done.
    rewrite gather_unfold. simpl. by rewrite H1.
Qed.

Lemma gather_built skip lead trail el :
  gather_nodes skip (built_nodes (maybe_wrap_with_edge_whitespace lead trail el))
  = lead +:+ (gather skip el +:+ or_empty (tail el)) +:+ trail.
Proof.
  unfold maybe_wrap_with_edge_whitespace, gather_nodes.
  destruct (truthy lead) eqn:E1, (truthy trail) eqn:E2; simpl;
    rewrite ?E1, ?E2; simpl;
    try apply truthy_false in E1 as ->; try apply truthy_false in E2 as ->;
    simpl; by rewrite ?app_nil_r, ?app_assoc.
Qed.

Lemma gather_choice_of skip a b :
  skip (qn "choice") = false →
  gather skip (choice_of a b)
  = (gather skip a +:+ or_empty (tail a)) +:+ (gather skip b +:+ or_empty (tail b)).
Proof.
  intros H. unfold choice_of. rewrite !gather_append_child by done.
  rewrite gather_unfold. simpl. by rewrite H, app_assoc.
Qed.

Lemma populate_tail target nodes :
  tail (populate_target_with_nodes target nodes).1.2 = tail target.
Proof.
  unfold populate_target_with_nodes.
  destruct (extract_lead _) as [lead tmp1].
  destruct (extract_trail tmp1) as [trail tmp]. cbn [fst snd].
  rewrite tail_foldl_append_child. by destruct (truthy_opt (text tmp)).
Qed.

Lemma subelems_copy_attr w k name f el :
  subelems (copy_attr w k name f el) = subelems el
  ∧ text (copy_attr w k name f el) = text el
  ∧ tail (copy_attr w k name f el) = tail el.
Proof. unfold copy_attr. by destruct (op_get w k). Qed.

Lemma text_persName_for w : text (persName_for w) = None.
Proof.
  unfold persName_for, copy_attr. case_bool_decide; repeat case_match; done.
Qed.

(** A fresh target populated with the inner nodes, between its hoisted
    whitespace, holds the text of the inner nodes. *)
Lemma gather_populated skip target inner :
  skip "tmp" = false → skip (tag target) = false →
  subelems target = [] → text target = None → tail target = None →
  let '(lead, el, trail) := populate_target_with_nodes target inner in
  lead +:+ (gather skip el +:+ or_empty (tail el)) +:+ trail
  = gather_nodes skip inner.
Proof.
  intros H1 H2 H3 H4 H5.
  pose proof (gather_populate skip H1 target inner H2 H3 H4) as H.
  pose proof (populate_tail target inner) as Ht.
  destruct (populate_target_with_nodes target inner) as [[lead el] trail].
  cbn [fst snd] in Ht. rewrite Ht, H5. simpl. by rewrite app_nil_r.
Qed.

Ltac populated inner :=
  match goal with
  | |- context [populate_target_with_nodes ?tg inner] =>
      let H := fresh "Hpop" in
      let T := fresh "Htag" in
      pose proof (gather_populated lit tg inner eq_refl) as H;
      pose proof (populate_tag tg inner) as T;
      destruct (populate_target_with_nodes tg inner) as [[?lead ?el] ?trail];
      cbn [fst snd] in T
  end.

Ltac copy_fields :=
  repeat first
    [ rewrite tag_copy_attr
    | rewrite (proj1 (subelems_copy_attr _ _ _ _ _))
    | rewrite (proj1 (proj2 (subelems_copy_attr _ _ _ _ _)))
    | rewrite (proj2 (proj2 (subelems_copy_attr _ _ _ _ _))) ];
  done.

Lemma gather_sub_elements w el attrs :
  Forall (λ a, lit (qn a) = true) attrs → lit (tag el) = false →
  let el' := foldl (λ el attr, match op_get w attr with
                               | Some v => sub_element_with_text el attr v
                               | None => el
                               end) el attrs in
  gather lit el' = gather lit el ∧ tail el' = tail el.
Proof.
  intros Hattrs. revert el. induction Hattrs as [|a attrs Ha _ IH]; intros el Hel.
  - done.
  - cbn [foldl]. destruct (op_get w a) as [v|]; [|by apply IH].
    destruct (IH (sub_element_with_text el a v)) as [-> ->]; [done|].
    split; [|done]. unfold sub_element_with_text.
    rewrite gather_append_child by done.
    rewrite (gather_unfold _ (set_text _ _)).
    cbn [tag text subelems tail set_text new_element]. rewrite Ha.
    cbn [or_empty String.append]. by rewrite app_nil_r.
Qed.

Lemma tag_data_attrs el (attrs : list (string * string)) :
  tag (foldl (λ seg kv, set_attr seg ("data-" +:+ kv.1) kv.2) el attrs) = tag el
  ∧ subelems (foldl (λ seg kv, set_attr seg ("data-" +:+ kv.1) kv.2) el attrs)
    = subelems el
  ∧ text (foldl (λ seg kv, set_attr seg ("data-" +:+ kv.1) kv.2) el attrs)
    = text el
  ∧ tail (foldl (λ seg kv, set_attr seg ("data-" +:+ kv.1) kv.2) el attrs)
    = tail el.
Proof.
  revert el. induction attrs as [|a attrs IH]; intros el; [done|].
  cbn [foldl].
  by destruct (IH (set_attr el ("data-" +:+ a.1) a.2)) as (-> & -> & -> & ->).
Qed.

(** The wrapper element, with the whitespace around it, holds exactly the
    line text of its inner nodes. *)
Lemma gather_build_wrapper_element t w inner :
  keeps_inner w →
  gather_nodes lit (built_nodes (build_wrapper_element t w inner))
  = gather_nodes lit inner.
Proof.
  intros Hkeep. unfold build_wrapper_element.
  destruct (bool_decide (op_kind w ∈ ["abbrev"; "sic"; "regularised"])) eqn:Ek.
  - apply bool_decide_eq_true in Ek.
    rewrite !elem_of_cons, elem_of_nil in Ek.
    destruct Ek as [Ek|[Ek|[Ek|[]]]]; rewrite Ek.
    + change (String.eqb "abbrev" "abbrev") with true.
      change (String.eqb "abbrev" "regularised") with false. cbn iota beta zeta.
      populated inner. rewrite gather_built, gather_choice_of by done.
      rewrite (gather_unfold _ (set_text _ _)). simpl.
      rewrite !app_nil_r. by apply Hpop.
    + change (String.eqb "sic" "abbrev") with false.
      change (String.eqb "sic" "sic") with true.
      change (String.eqb "sic" "regularised") with false. cbn iota beta zeta.
      populated inner. rewrite gather_built, gather_choice_of by done.
      rewrite (gather_unfold _ (set_text _ _)). simpl.
      rewrite !app_nil_r. by apply Hpop.
    + change (String.eqb "regularised" "abbrev") with false.
      change (String.eqb "regularised" "sic") with false.
      change (String.eqb "regularised" "regularised") with true.
      cbn iota beta zeta. rewrite (Hkeep Ek).
      populated inner. rewrite gather_built, gather_choice_of by done.
      rewrite (gather_unfold _ (set_text _ _)). simpl.
      rewrite ?app_nil_r. by apply Hpop.
  - destruct (String.eqb (op_kind w) "num").
    { populated inner. rewrite gather_built. apply Hpop; copy_fields. }
    destruct (String.eqb (op_kind w) "person").
    { populated inner. rewrite gather_built. apply Hpop.
      - by rewrite tag_persName_for.
      - apply subelems_persName_for.
      - apply text_persName_for.
      - apply tail_persName_for. }
    destruct (String.eqb (op_kind w) "place").
    { populated inner. rewrite gather_built.
      destruct (gather_sub_elements w el
                  ["country"; "region"; "settlement"; "district"])
        as [-> ->]; [repeat constructor|by rewrite Htag|].
      by apply Hpop. }
    destruct (String.eqb (op_kind w) "ref").
    { populated inner. rewrite gather_built. apply Hpop; copy_fields. }
    destruct (String.eqb (op_kind w) "unclear").
    { populated inner. rewrite gather_built. apply Hpop; copy_fields. }
    populated inner. rewrite gather_built.
    destruct (tag_data_attrs (set_attr (new_element (qn "seg")) "type" (op_kind w))
                (op_attrs w)) as (T1 & T2 & T3 & T4).
    apply Hpop; by rewrite ?T1, ?T2, ?T3, ?T4.
Qed.

End LineText.

(** *** The loop over the wrappers of a span *)

(** Two spans without a common position. *)
Definition disjoint_spans (x y : op) : Prop :=
  op_end x ≤ op_offset y ∨ op_end y ≤ op_offset x.

Section LoopText.
Import Str StrFacts.
Variable t : string.
Variable styles : list op.
Variable ws : list op.
Variable children : gmap nat (list nat).

(** The wrapper at [i] ends before the wrapper at [j] starts. *)
Definition ends_before (i j : nat) : Prop :=
  ∀ wi wj, ws !! i = Some wi → ws !! j = Some wj → op_end wi ≤ op_offset wj.

Lemma gather_plain_gap a b :
  gather_nodes is_literal
    (if a <? b then render_plain_segment t styles a b else [])
  = (if a <? b then slice t a b else "").
Proof.
  destruct (a <? b); [|done]. by apply gather_render_plain_segment.
Qed.

Lemma place_wrappers_text inner l :
  ∀ out0 cur0 b,
    0 ≤ cur0 → cur0 ≤ b → b ≤ len t →
    StronglySorted ends_before l →
    (∀ c, c ∈ l →
       ∃ w nodes,
         ws !! c = Some w ∧ cur0 ≤ op_offset w ∧ op_offset w ≤ op_end w
         ∧ op_end w ≤ b ∧ keeps_inner w
         ∧ inner (op_offset w) (op_end w) (default [] (children !! c)) = Some nodes
         ∧ gather_nodes is_literal nodes = slice t (op_offset w) (op_end w)) →
    ∃ out cur,
      foldl (place_wrapper t styles ws children inner) (Some (out0, cur0)) l
      = Some (out, cur)
      ∧ gather_nodes is_literal out
        = gather_nodes is_literal out0 +:+ slice t cur0 cur
      ∧ cur0 ≤ cur ∧ cur ≤ b.
Proof.
  induction l as [|c l IH]; intros out0 cur0 b H0 Hb Hlen Hs Hl.
  - exists out0, cur0. split; [done|]. split; [|lia].
    by rewrite slice_nil, app_nil_r.
  - apply StronglySorted_inv in Hs as [Hs Hc].
    destruct (Hl c) as (w & nodes & Hw & Ho & Hoe & He & Hk & Hin & Hg); [left|].
    set (out1 := (if cur0 <? op_offset w
                  then out0 ++ render_plain_segment t styles cur0 (op_offset w)
                  else out0)
                 ++ built_nodes (build_wrapper_element t w nodes)).
    assert (place_wrapper t styles ws children inner (Some (out0, cur0)) c
            = Some (out1, op_end w)) as Hstep.
    { unfold place_wrapper. cbn [mbind option_bind]. rewrite Hw.
      cbn [mbind option_bind]. by rewrite Hin. }
    cbn [foldl]. rewrite Hstep.
    destruct (IH out1 (op_end w) b) as (out & cur & Hf & Hgo & Hc1 & Hc2);
      [lia|lia|done|done| |].
    { intros c' Hc'. destruct (Hl c') as (w' & nodes' & Hw' & ? & ? & ? & ? & ? & ?);
        [by right|].
      exists w', nodes'. repeat split; try done.
      rewrite Forall_forall in Hc. by apply (Hc c' Hc' w w'). }
    exists out, cur. split; [exact Hf|]. split; [|lia].
    rewrite Hgo. unfold out1.
    rewrite gather_nodes_app, gather_build_wrapper_element, Hg by done.
    assert (gather_nodes is_literal
              (if cur0 <? op_offset w
               then out0 ++ render_plain_segment t styles cur0 (op_offset w)
               else out0)
            = gather_nodes is_literal out0 +:+ slice t cur0 (op_offset w)) as ->.
    { destruct (Z.ltb_spec cur0 (op_offset w)).
      - rewrite gather_nodes_app. f_equal. by apply gather_render_plain_segment.
      - assert (cur0 = op_offset w) as -> by lia.
        by rewrite slice_nil, app_nil_r by lia. }
    rewrite !app_assoc. f_equal.
    rewrite <- app_assoc, (slice_app t cur0 (op_offset w) (op_end w)) by lia.
    apply slice_app; lia.
Qed.

Lemma render_tail_text a b out cur :
  0 ≤ a → a ≤ cur → cur ≤ b → b ≤ len t →
  gather_nodes is_literal out = slice t a cur →
  gather_nodes is_literal (render_tail t styles b (out, cur)) = slice t a b.
Proof.
  intros Ha Hac Hcb Hb Hg. unfold render_tail.
  destruct (Z.ltb_spec cur b).
  - rewrite gather_nodes_app, Hg, gather_render_plain_segment by done.
    apply slice_app; lia.
  - by assert (cur = b) as -> by lia.
Qed.

(** Sorting by offset puts pairwise disjoint, non-empty spans one after
    the other. *)
Lemma by_offset_ends_before idxs :
  NoDup idxs →
  (∀ c, c ∈ idxs → ∃ w, ws !! c = Some w ∧ op_offset w < op_end w) →
  (∀ c1 c2 w1 w2, c1 ∈ idxs → c2 ∈ idxs → c1 ≠ c2 →
     ws !! c1 = Some w1 → ws !! c2 = Some w2 → disjoint_spans w1 w2) →
  StronglySorted ends_before (by_offset ws idxs).
Proof.
  intros Hnd Hne Hdis. unfold by_offset.
  set (le := λ i j : nat, default 0 (op_offset <$> ws !! i)
                          <=? default 0 (op_offset <$> ws !! j)).
  assert (StronglySorted (λ i j, le i j = true) (sorted_by le idxs)) as Hs.
  { apply sorted_by_sorted; unfold le; intros; lia. }
  assert (NoDup (sorted_by le idxs)) as Hnd'.
  { by rewrite sorted_by_Permutation. }
  assert (∀ c, c ∈ sorted_by le idxs → c ∈ idxs) as Hin.
  { intros c. by rewrite sorted_by_elem. }
  induction Hs as [|i l Hs IH Hi]; [constructor|].
  apply NoDup_cons in Hnd' as [Hil Hnd'].
  constructor.
  - apply IH; [done|]. intros c Hc. apply Hin. by right.
  - rewrite Forall_forall in *. intros j Hj wi wj Hwi Hwj.
    specialize (Hi j Hj). unfold le in Hi. rewrite Hwi, Hwj in Hi. simpl in Hi.
    assert (i ≠ j) as Hij by (intros ->; done).
    destruct (Hne j) as (wj' & Hwj' & Hnej); [apply Hin; by right|].
    destruct (Hne i) as (wi' & Hwi' & Hnei); [apply Hin; left|].
    simplify_eq.
    destruct (Hdis i j wi wj) as [?|?]; try done; [apply Hin; left|apply Hin; by right|].
    lia.
Qed.

End LoopText.

(** *** The forest of nested or disjoint spans *)

Section NestedSpans.
Import Str StrFacts.
Variable t : string.
Variable ops : list op.

(** The wrappers lie inside the line, are not empty, are pairwise nested or
    disjoint, and keep their inner content. *)
Hypothesis in_range :
  ∀ w, w ∈ wrappers ops →
       0 ≤ op_offset w ∧ op_offset w < op_end w ∧ op_end w ≤ len t.
Hypothesis laminar :
  ∀ x y, x ∈ wrappers ops → y ∈ wrappers ops →
         encloses x y = true ∨ encloses y x = true ∨ disjoint_spans x y.
Hypothesis keeps :
  ∀ w, w ∈ wrappers ops → keeps_inner w.

Lemma parent_of_Some c p :
  parent_of (wrappers ops) c = Some p →
  (p < c)%nat
  ∧ ∃ wp wc, wrappers ops !! p = Some wp ∧ wrappers ops !! c = Some wc
             ∧ encloses wp wc = true.
Proof.
  unfold parent_of. destruct (wrappers ops !! c) as [wc|] eqn:E; [|done].
  simpl. intros H. apply find_parent_Some in H as (? & (wp & ? & ?) & _).
  split; [done|]. by exists wp, wc.
Qed.

Lemma wrappers_key_le i j wi wj :
  (i < j)%nat → wrappers ops !! i = Some wi → wrappers ops !! j = Some wj →
  wrapper_key_le wi wj = true.
Proof.
  intros. by apply (StronglySorted_lookup _ _ i j wi wj (wrappers_sorted ops)).
Qed.

(** Two wrappers with the same parent, or two roots, are disjoint. *)
Lemma siblings_disjoint c1 c2 w1 w2 :
  c1 ≠ c2 →
  wrappers ops !! c1 = Some w1 → wrappers ops !! c2 = Some w2 →
  parent_of (wrappers ops) c1 = parent_of (wrappers ops) c2 →
  disjoint_spans w1 w2.
Proof using laminar.
  assert (∀ c1 c2 w1 w2, (c1 < c2)%nat →
            wrappers ops !! c1 = Some w1 → wrappers ops !! c2 = Some w2 →
            parent_of (wrappers ops) c1 = parent_of (wrappers ops) c2 →
            disjoint_spans w1 w2) as Hlt.
  { clear c1 c2 w1 w2. intros c1 c2 w1 w2 Hc H1 H2 Hp.
    assert (encloses w1 w2 = true → False) as Hno.
    { intros He.
      destruct (find_parent_is_Some (wrappers ops) w2 c2 c1 w1 Hc H1 He)
        as (k & Hk & Hck).
      unfold parent_of in Hp. rewrite H1, H2 in Hp. simpl in Hp.
      rewrite Hk in Hp. apply find_parent_Some in Hp as (? & _). lia. }
    destruct (laminar w1 w2) as [He|[He|Hd]];
      [by eapply list_elem_of_lookup_2|by eapply list_elem_of_lookup_2| | |done].
    - by destruct Hno.
    - destruct Hno. pose proof (wrappers_key_le c1 c2 w1 w2 Hc H1 H2) as Hk.
      apply wrapper_key_le_iff in Hk. apply encloses_iff in He.
      apply encloses_iff. lia. }
  intros Hne H1 H2 Hp.
  destruct (decide (c1 < c2)%nat); [by eapply Hlt|].
  destruct (Hlt c2 c1 w2 w1) as [?|?]; try done; [lia|by right|by left].
Qed.

Lemma children_NoDup p :
  NoDup (default [] ((containment (wrappers ops)).1 !! p)).
Proof.
  destruct (containment_spec (wrappers ops)) as [-> _].
  apply NoDup_filter, NoDup_seq.
Qed.

Lemma elem_of_roots c :
  c ∈ (containment (wrappers ops)).2 ↔
  (c < length (wrappers ops))%nat ∧ parent_of (wrappers ops) c = None.
Proof.
  destruct (containment_spec (wrappers ops)) as [_ ->].
  rewrite list_elem_of_filter, elem_of_seq. naive_solver lia.
Qed.

Lemma roots_NoDup : NoDup (containment (wrappers ops)).2.
Proof.
  destruct (containment_spec (wrappers ops)) as [_ ->].
  apply NoDup_filter, NoDup_seq.
Qed.

(** What [render_span] needs of a list of indices: distinct valid wrappers
    inside [[a, b]], pairwise disjoint, and deep enough in the list for the
    fuel. *)
Definition good_children (fuel : nat) (a b : Z) (cs : list nat) : Prop :=
  NoDup cs
  ∧ (∀ c, c ∈ cs →
       ∃ w, wrappers ops !! c = Some w ∧ a ≤ op_offset w ∧ op_end w ≤ b
            ∧ (length (wrappers ops) ≤ fuel + c)%nat)
  ∧ (∀ c1 c2 w1 w2, c1 ∈ cs → c2 ∈ cs → c1 ≠ c2 →
       wrappers ops !! c1 = Some w1 → wrappers ops !! c2 = Some w2 →
       disjoint_spans w1 w2).

Lemma good_children_of fuel p wp :
  wrappers ops !! p = Some wp →
  (length (wrappers ops) ≤ S fuel + p)%nat →
  good_children fuel (op_offset wp) (op_end wp)
    (default [] ((containment (wrappers ops)).1 !! p)).
Proof using laminar.
  intros Hp Hfuel. split; [apply children_NoDup|]. split.
  - intros c Hc. apply child_in_containment in Hc as [Hc Hpc].
    apply parent_of_Some in Hpc as (Hlt & wp' & wc & Hp' & Hwc & He).
    simplify_eq. apply encloses_iff in He. exists wc. repeat split; try done; lia.
  - intros c1 c2 w1 w2 H1 H2 Hne Hw1 Hw2.
    apply child_in_containment in H1 as [_ H1].
    apply child_in_containment in H2 as [_ H2].
    apply (siblings_disjoint c1 c2); try done. by rewrite H1, H2.
Qed.

Lemma good_roots :
  good_children (length (wrappers ops)) 0 (len t) (containment (wrappers ops)).2.
Proof using laminar in_range.
  split; [apply roots_NoDup|]. split.
  - intros c [Hc Hpc]%elem_of_roots.
    destruct (lookup_lt_is_Some_2 (wrappers ops) c Hc) as [w Hw].
    exists w. destruct (in_range w); [by eapply list_elem_of_lookup_2|].
    repeat split; try done; lia.
  - intros c1 c2 w1 w2 [_ H1]%elem_of_roots [_ H2]%elem_of_roots Hne Hw1 Hw2.
    apply (siblings_disjoint c1 c2); try done. by rewrite H1, H2.
Qed.

(** The wrappers of a good list, sorted by offset, are rendered with the
    gaps between them as the text from [cur0] to the end of the last
    one. *)
Lemma render_wrappers_text inner fuel a b cs :
  0 ≤ a → a ≤ b → b ≤ len t →
  good_children fuel a b cs →
  (∀ c w, c ∈ cs → wrappers ops !! c = Some w →
     ∃ nodes,
       inner (op_offset w) (op_end w)
         (default [] ((containment (wrappers ops)).1 !! c)) = Some nodes
       ∧ gather_nodes is_literal nodes = slice t (op_offset w) (op_end w)) →
  ∃ out cur,
    render_wrappers t (style_ops ops) (wrappers ops) (containment (wrappers ops)).1
      inner a cs = Some (out, cur)
    ∧ gather_nodes is_literal out = slice t a cur ∧ a ≤ cur ∧ cur ≤ b.
Proof using keeps in_range.
  intros Ha Hab Hb (Hnd & Hval & Hdis) Hinner. unfold render_wrappers.
  edestruct (place_wrappers_text t (style_ops ops) (wrappers ops)
               (containment (wrappers ops)).1 inner
               (by_offset (wrappers ops) cs) [] a b)
    as (out & cur & Hf & Hg & H1 & H2); [done|done|done| | |].
  - apply by_offset_ends_before; [done| |done].
    intros c Hc. destruct (Hval c Hc) as (w & Hw & _).
    exists w. split; [done|]. apply in_range. by eapply list_elem_of_lookup_2.
  - intros c Hc. unfold by_offset in Hc. rewrite sorted_by_elem in Hc.
    destruct (Hval c Hc) as (w & Hw & Hwa & Hwb & _).
    destruct (Hinner c w Hc Hw) as (nodes & Hn & Hgn).
    assert (w ∈ wrappers ops) as Hin by (by eapply list_elem_of_lookup_2).
    exists w, nodes. destruct (in_range w Hin) as (? & ? & ?).
    repeat split; try done; try lia. by apply keeps.
  - exists out, cur. split; [done|]. split; [|done].
    rewrite Hg. done.
Qed.

Lemma render_span_text fuel :
  ∀ a b cs,
    0 ≤ a → a ≤ b → b ≤ len t → good_children fuel a b cs →
    ∃ nodes,
      render_span t (style_ops ops) (wrappers ops) (containment (wrappers ops)).1
        fuel a b cs = Some nodes
      ∧ gather_nodes is_literal nodes = slice t a b.
Proof using keeps in_range laminar.
  induction fuel as [|fuel IH]; intros a b cs Ha Hab Hb Hgood.
  - destruct cs as [|c cs].
    + eexists. split; [done|]. by apply gather_render_plain_segment.
    + destruct Hgood as (_ & Hval & _).
      destruct (Hval c) as (w & Hw & _ & _ & Hf); [left|].
      apply lookup_lt_Some in Hw. lia.
  - destruct cs as [|c cs'] eqn:Ecs.
    { eexists. split; [done|]. by apply gather_render_plain_segment. }
    rewrite <- Ecs in *.
    destruct (render_wrappers_text (render_span t (style_ops ops) (wrappers ops)
                (containment (wrappers ops)).1 fuel) (S fuel) a b cs)
      as (out & cur & Hr & Hg & H1 & H2); [done..| |].
    { intros c' w Hc' Hw. destruct Hgood as (_ & Hval & _).
      destruct (Hval c' Hc') as (w' & Hw' & ? & ? & Hf).
      assert (w = w') as -> by congruence.
      assert (w' ∈ wrappers ops) as Hin by (by eapply list_elem_of_lookup_2).
      destruct (in_range w' Hin) as (? & ? & ?).
      apply IH; [lia|lia|lia|]. by apply good_children_of. }
    exists (render_tail t (style_ops ops) b (out, cur)). split.
    + rewrite Ecs. cbn [render_span]. rewrite <- Ecs. by rewrite Hr.
    + by apply (render_tail_text t _ a b).
Qed.

Lemma render_line_text :
  ∃ nodes, render_line t ops = Some nodes
           ∧ gather_nodes is_literal nodes = t.
Proof using keeps in_range laminar.
  unfold render_line. cbv zeta.
  pose proof good_roots as Hgood.
  pose proof (len_nonneg t) as Hlen.
  assert (∀ c w, c ∈ (containment (wrappers ops)).2 →
            wrappers ops !! c = Some w →
            ∃ nodes,
              render_span t (style_ops ops) (wrappers ops)
                (containment (wrappers ops)).1 (length (wrappers ops))
                (op_offset w) (op_end w)
                (default [] ((containment (wrappers ops)).1 !! c)) = Some nodes
              ∧ gather_nodes is_literal nodes = slice t (op_offset w) (op_end w))
    as Hinner.
  { intros c w Hc Hw.
    assert (w ∈ wrappers ops) as Hin by (by eapply list_elem_of_lookup_2).
    destruct (in_range w Hin) as (? & ? & ?).
    apply render_span_text; [lia|lia|lia|].
    apply good_children_of; [done|lia]. }
  destruct (render_wrappers_text _ (length (wrappers ops)) 0 (len t) _
              ltac:(lia) Hlen ltac:(lia) Hgood Hinner)
    as (out & cur & Hr & Hg & H1 & H2).
  destruct (containment (wrappers ops)) as [children roots].
  cbn [fst snd] in *.
  destruct roots as [|r roots'].
  - eexists. split; [done|].
    rewrite gather_render_plain_segment by done. apply slice_full.
  - exists (render_tail t (style_ops ops) (len t) (out, cur)). split.
    + unfold render_roots. by rewrite Hr.
    + rewrite (render_tail_text t _ 0 (len t)) by (done || lia).
      apply slice_full.
Qed.

End NestedSpans.

(** The text of a line with nested or disjoint wrappers. *)
Lemma line_text_nested t ops :
  (∀ o, o ∈ ops → is_wrapper o →
        op_end o = op_offset o + op_length o
        ∧ 0 ≤ op_offset o ∧ op_end o ≤ Str.len t) →
  (∀ x y, x ∈ ops → y ∈ ops → is_wrapper x → is_wrapper y →
          encloses x y = true ∨ encloses y x = true ∨ disjoint_spans x y) →
  (∀ o, o ∈ ops → is_wrapper o → keeps_inner o) →
  ∃ nodes, build_inline_nodes_for_line t ops = Some nodes
           ∧ flatten_line nodes = t.
Proof.
  intros Hrange Hlam Hkeep.
  destruct (render_line_text t ops) as (nodes & Hr & Hg).
  - intros w [Hw Hiw]%elem_of_wrappers.
    destruct (Hrange w Hw Hiw) as (? & ? & ?). destruct Hiw as [_ ?]. lia.
  - intros x y [Hx Hwx]%elem_of_wrappers [Hy Hwy]%elem_of_wrappers.
    by apply Hlam.
  - intros w [Hw Hiw]%elem_of_wrappers. by apply Hkeep.
  - exists (unify ops nodes). split.
    + unfold build_inline_nodes_for_line. by rewrite Hr.
    + unfold flatten_line. by rewrite gather_unify.
Qed.


(** C1 (as amended): when the wrapper spans of a line (the spans of
    positive length other than the style spans) lie inside the text, with
    [end] equal to [offset + length], are pairwise nested or disjoint, and
    none is a regularised span with an explicit regularised value, the
    renderer returns a node sequence whose text, read in order and without
    the content of the literal elements ([expan], [corr], [orig] and the
    sub-elements of [placeName]), is the text of the line.  Style spans
    are arbitrary. *)
Theorem line_text_is_preserved t ops :
  (∀ o, o ∈ ops → is_wrapper o →
        op_end o = op_offset o + op_length o
        ∧ 0 ≤ op_offset o ∧ op_end o ≤ Str.len t) →
  (∀ x y, x ∈ ops → y ∈ ops → is_wrapper x → is_wrapper y →
          encloses x y = true ∨ encloses y x = true ∨ disjoint_spans x y) →
  (∀ o, o ∈ ops → is_wrapper o → keeps_inner o) →
  ∃ nodes, build_inline_nodes_for_line t ops = Some nodes
           ∧ flatten_line nodes = t.
Proof. apply line_text_nested. Qed.

Lemma line_text_is_preserved_witness :
  ∃ nodes,
    build_inline_nodes_for_line "Dr. Marcus  of Rome"
      [span "person" 0 10 [("type", "human")];
       span "abbrev" 0 3 [("expansion", "Doctor")];
       span "place" 14 5 [("country", "Italy")];
       span "textStyle" 4 6 [("italic", "true")]] = Some nodes
    ∧ flatten_line nodes = "Dr. Marcus  of Rome".
Proof.
  apply (line_text_is_preserved "Dr. Marcus  of Rome"
           [span "person" 0 10 [("type", "human")];
            span "abbrev" 0 3 [("expansion", "Doctor")];
            span "place" 14 5 [("country", "Italy")];
            span "textStyle" 4 6 [("italic", "true")]]).
  - intros o Ho _. rewrite !elem_of_cons, elem_of_nil in Ho.
    destruct Ho as [->|[->|[->|[->|[]]]]]; vm_compute; intuition congruence.
  - intros x y Hx Hy [Hkx _] [Hky _].
    rewrite !elem_of_cons, elem_of_nil in Hx, Hy.
    destruct Hx as [->|[->|[->|[->|[]]]]]; try (by destruct Hkx);
    destruct Hy as [->|[->|[->|[->|[]]]]]; try (by destruct Hky);
      vm_compute; intuition congruence.
  - intros o Ho _ Hk. rewrite !elem_of_cons, elem_of_nil in Ho.
    destruct Ho as [->|[->|[->|[->|[]]]]]; vm_compute in Hk; discriminate.
Defined.

(** C1 (as stated) fails: the expansion of an abbreviation is text of the
    output that is not in the line; and two spans that overlap without
    nesting are each rendered over their whole range, so the characters
    they share appear twice. *)
Lemma line_text_not_preserved :
  (∃ nodes,
     build_inline_nodes_for_line "Dr" [span "abbrev" 0 2 [("expansion", "Doctor")]]
     = Some nodes
     ∧ flatten nodes = "DrDoctor")
  ∧ (∃ nodes,
       build_inline_nodes_for_line "abcdef" [span "num" 0 4 []; span "num" 2 4 []]
       = Some nodes
       ∧ flatten nodes = "abcdcdef" ∧ flatten_line nodes = "abcdcdef").
Proof. split; eexists; repeat split. Qed.

(** * Further properties of the converter *)

(** ** The renderer returns for every line *)

Lemma parent_of_lt ws c p : parent_of ws c = Some p → (p < c)%nat.
Proof.
  unfold parent_of. destruct (ws !! c) as [w|]; [|done]. simpl.
  intros H. by apply find_parent_Some in H as [? _].
Qed.

Lemma place_wrappers_is_Some t styles ws children inner l :
  ∀ acc,
    (∀ c, c ∈ l →
       is_Some (ws !! c)
       ∧ ∀ a b, is_Some (inner a b (default [] (children !! c)))) →
    is_Some (foldl (place_wrapper t styles ws children inner) (Some acc) l).
Proof.
  induction l as [|c l IH]; intros [out cur] Hl; [done|].
  destruct (Hl c) as [[w Hw] Hin]; [left|].
  destruct (Hin (op_offset w) (op_end w)) as [nodes Hnodes].
  cbn [foldl]. unfold place_wrapper at 2. cbn [mbind option_bind].
  rewrite Hw. cbn [mbind option_bind]. rewrite Hnodes. cbn [mbind option_bind].
  apply IH. intros c' Hc'. apply Hl. by right.
Qed.

Lemma render_wrappers_is_Some t styles ws children inner a cs :
  (∀ c, c ∈ cs →
     is_Some (ws !! c)
     ∧ ∀ a b, is_Some (inner a b (default [] (children !! c)))) →
  is_Some (render_wrappers t styles ws children inner a cs).
Proof.
  intros H. apply place_wrappers_is_Some. intros c Hc. apply H.
  unfold by_offset in Hc. by rewrite sorted_by_elem in Hc.
Qed.

(** The recursion of [render_span] goes from a wrapper to wrappers of
    greater index, so a fuel of [length ws] is never used up. *)
Lemma render_span_is_Some t styles ws fuel :
  ∀ a b cs,
    (∀ c, c ∈ cs → (c < length ws)%nat ∧ (length ws ≤ fuel + c)%nat) →
    is_Some (render_span t styles ws (containment ws).1 fuel a b cs).
Proof.
  induction fuel as [|fuel IH]; intros a b cs Hcs.
  - destruct cs as [|c cs]; [done|]. destruct (Hcs c); [left|lia].
  - destruct cs as [|c cs'] eqn:E; [done|]. rewrite <- E in *.
    assert (is_Some (render_wrappers t styles ws (containment ws).1
                       (render_span t styles ws (containment ws).1 fuel) a cs))
      as [r Hr].
    { apply render_wrappers_is_Some. intros c' Hc'.
      destruct (Hcs c' Hc') as [Hlt Hfuel]. split.
      - by apply lookup_lt_is_Some_2.
      - intros a' b'. apply IH. intros c'' Hc''.
        apply child_in_containment in Hc'' as [Hlt' Hp].
        apply parent_of_lt in Hp. split; [done|lia]. }
    rewrite E. cbn [render_span]. rewrite <- E. by rewrite Hr.
Qed.

Lemma render_line_is_Some t ops : is_Some (render_line t ops).
Proof.
  unfold render_line. cbv zeta.
  pose proof (containment_spec (wrappers ops)) as [_ Hroots].
  pose proof (render_span_is_Some t (style_ops ops) (wrappers ops)
                (length (wrappers ops))) as Hspan.
  pose proof (λ c c', proj1 (child_in_containment (wrappers ops) c c'))
    as Hchild.
  unfold child_in in Hchild.
  destruct (containment (wrappers ops)) as [children roots].
  cbn [fst snd] in *. unfold render_roots.
  destruct roots as [|r roots'] eqn:E; [done|]. rewrite <- E in *.
  assert (is_Some (render_wrappers t (style_ops ops) (wrappers ops) children
                     (render_span t (style_ops ops) (wrappers ops) children
                        (length (wrappers ops))) 0 roots)) as [r' Hr].
  { apply render_wrappers_is_Some. intros c Hc.
    rewrite Hroots in Hc. apply list_elem_of_filter in Hc as [_ Hc].
    apply elem_of_seq in Hc. split.
    - apply lookup_lt_is_Some_2. lia.
    - intros a b. apply Hspan. intros c' Hc'.
      apply Hchild in Hc' as [Hlt _]. split; [done|lia]. }
  by rewrite Hr.
Qed.

(** Rendering returns: for every text and every list of operations whose
    [offset], [length] and [end] are integers, [build_inline_nodes_for_line]
    returns a node sequence.  The recursion of [render_span] is well
    founded, because the children of a wrapper come after it in the sorted
    list of wrappers: its depth is at most the number of wrappers.  (A
    dictionary with a string under [end], which [parse_custom_ops] builds
    for a token with an attribute named [end], is no such operation; the
    source raises [TypeError] where it reads that value.) *)
Theorem render_always_returns t ops :
  ∃ nodes, build_inline_nodes_for_line t ops = Some nodes.
Proof.
  unfold build_inline_nodes_for_line.
  destruct (render_line_is_Some t ops) as [nodes ->]. by eexists.
Qed.

(** ** Spans without length *)

Lemma of_kind_positive kinds ops :
  of_kind kinds (filter (λ o, 0 < op_length o) ops) = of_kind kinds ops.
Proof.
  unfold of_kind. rewrite list_filter_filter. apply list_filter_iff.
  naive_solver.
Qed.

Lemma other_ops_positive ops :
  other_ops (filter (λ o, 0 < op_length o) ops) = other_ops ops.
Proof.
  unfold other_ops. rewrite list_filter_filter. apply list_filter_iff.
  naive_solver.
Qed.

(** An operation whose length is zero or negative (a [readingOrder] token,
    a span without [length]) has no effect on the rendered line, whatever
    its kind and attributes. *)
Theorem spans_without_length_are_ignored t ops :
  build_inline_nodes_for_line t ops
  = build_inline_nodes_for_line t (filter (λ o, 0 < op_length o) ops).
Proof.
  unfold build_inline_nodes_for_line, render_line, unify, wrappers,
    person_ops, place_ops, ref_ops, unclear_ops, choice_ops, num_ops, style_ops.
  by rewrite !of_kind_positive, other_ops_positive.
Qed.

(** ** Segments of a styled text *)

Lemma elem_of_adjacent {A} (R : A → A → Prop) (l : list A) x y :
  StronglySorted R l → (x, y) ∈ adjacent l → x ∈ l ∧ y ∈ l ∧ R x y.
Proof.
  induction l as [|a [|b l] IH]; intros Hs Hxy.
  - by apply elem_of_nil in Hxy.
  - by apply elem_of_nil in Hxy.
  - change (adjacent (a :: b :: l)) with ((a, b) :: adjacent (b :: l)) in Hxy.
    apply StronglySorted_inv in Hs as [Hs Ha].
    apply elem_of_cons in Hxy as [Hxy|Hxy].
    + simplify_eq. apply Forall_cons in Ha as [Hab _].
      split; [left|]. split; [right; left|done].
    + destruct (IH Hs Hxy) as (? & ? & ?).
      split; [by right|]. split; [by right|done].
Qed.

(** [slice_text_nodes] cuts the text into consecutive non-empty pieces,
    whatever the ranges are (negative, reversed or beyond the end of the
    text): put together in order the pieces are the text, and every piece
    is the slice between its two positions, which lie inside the text, and
    carries the labels of the non-empty ranges that cover it. *)
Theorem slice_text_nodes_partition t ranges :
  Str.concat (map (λ seg, seg.1.2) (slice_text_nodes t ranges)) = t
  ∧ Forall (λ seg : Z * Z * string * gset string,
              let '(s, e, seg_text, labels) := seg in
              0 ≤ s ∧ s < e ∧ e ≤ Str.len t
              ∧ seg_text = Str.slice t s e ∧ seg_text ≠ ""
              ∧ labels = labels_of ranges s e)
      (slice_text_nodes t ranges).
Proof.
  split; [apply cuts_cover|].
  apply Forall_forall. intros [[[s e] seg_text] labels] Hseg.
  rewrite slice_text_nodes_unfold in Hseg.
  apply list_elem_of_omap in Hseg as ([s' e'] & Hadj & Hsome).
  unfold segment_of in Hsome. destruct (Z.eqb_spec s' e'); [done|].
  simplify_eq.
  destruct (elem_of_adjacent Z.lt _ _ _ (cuts_sorted t ranges) Hadj)
    as (Hs & He & Hlt).
  apply cuts_range in Hs, He.
  repeat split; try lia.
  rewrite StrFacts.slice_empty_iff by lia. lia.
Qed.

(** ** Text of styled nodes *)

Lemma append_text_children parent s :
  subelems parent ≠ [] → s ≠ "" →
  append_text parent s =
  set_subelems parent
    (map_last (λ last, set_tail last (Some (Str.or_empty (tail last) +:+ s)))
       (subelems parent)).
Proof.
  intros Hc Hs. unfold append_text.
  destruct s; [done|]. cbn [Str.is_empty].
  by destruct (text parent), (subelems parent).
Qed.

Lemma map_last_map_last {A} (f g h : A → A) l :
  (∀ x, f (g x) = h x) → map_last f (map_last g l) = map_last h l.
Proof.
  intros Hfg. induction l as [|a [|b l] IH]; [done|..].
  - simpl. by rewrite Hfg.
  - change (map_last g (a :: b :: l)) with (a :: map_last g (b :: l)).
    change (map_last h (a :: b :: l)) with (a :: map_last h (b :: l)).
    rewrite <- IH. by destruct (map_last g (b :: l)) eqn:E; [destruct l|].
Qed.

Lemma map_last_nil {A} (g : A → A) l : l ≠ [] → map_last g l ≠ [].
Proof. by destruct l as [|a [|b l]]. Qed.

(** [append_text] puts the string at the end of the content of the element
    (in its text, or in the tail of its last child) and never adds a child;
    appending two strings one after the other is appending both at once. *)
Theorem append_text_appends parent s1 s2 :
  itertext (append_text parent s1) = itertext parent +:+ s1
  ∧ length (subelems (append_text parent s1)) = length (subelems parent)
  ∧ append_text (append_text parent s1) s2 = append_text parent (s1 +:+ s2).
Proof.
  split; [by apply gather_append_text|]. split.
  { rewrite <- (length_map untail), subelems_append_text. apply length_map. }
  destruct s1 as [|c1 r1]; [done|].
  destruct s2 as [|c2 r2].
  { by rewrite StrFacts.app_nil_r. }
  destruct (subelems parent) as [|c cs] eqn:Ecs.
  - rewrite !append_text_leaf by (by rewrite ?append_text_leaf by done).
    cbn [Str.is_empty String.append]. unfold set_text. cbn.
    by rewrite StrFacts.app_assoc.
  - rewrite (append_text_children parent (String c1 r1)) by (by rewrite ?Ecs).
    rewrite append_text_children; [|by apply map_last_nil; rewrite Ecs|done].
    rewrite (append_text_children parent) by (by rewrite ?Ecs).
    unfold set_subelems. cbn [tag attrib text subelems tail]. f_equal.
    apply map_last_map_last. intros x. unfold set_tail. cbn.
    by rewrite StrFacts.app_assoc.
Qed.

(** [build_styled_nodes] adds exactly the text to the content of the parent,
    whatever the style operations are (overlapping, empty, beyond the
    text): no character is lost, repeated or moved. *)
Theorem build_styled_nodes_text parent t styles :
  itertext (build_styled_nodes parent t styles) = itertext parent +:+ t
  ∧ tag (build_styled_nodes parent t styles) = tag parent.
Proof.
  split; [by apply gather_build_styled_nodes|apply tag_build_styled_nodes].
Qed.

(** ** The containment forest *)

(** Every wrapper has exactly one place in the containment forest.  A
    wrapper that no earlier wrapper of the sorted list encloses is a root
    and the child of nobody; any other wrapper is not a root and is the
    child of exactly one wrapper, which comes before it in the list and
    encloses it.  No index is listed twice. *)
Theorem containment_is_forest ws c wc :
  ws !! c = Some wc →
  NoDup (containment ws).2
  ∧ (∀ p, NoDup (default [] ((containment ws).1 !! p)))
  ∧ ((c ∈ (containment ws).2
      ∧ (∀ p, c ∉ default [] ((containment ws).1 !! p))
      ∧ (∀ p wp, (p < c)%nat → ws !! p = Some wp → encloses wp wc = false))
     ∨ (c ∉ (containment ws).2
        ∧ ∃ p wp, (p < c)%nat ∧ ws !! p = Some wp ∧ encloses wp wc = true
                  ∧ ∀ q, c ∈ default [] ((containment ws).1 !! q) ↔ q = p)).
Proof.
  intros Hc. pose proof (lookup_lt_Some _ _ _ Hc) as Hlt.
  destruct (containment_spec ws) as [Hch Hroots].
  split; [rewrite Hroots; apply NoDup_filter, NoDup_seq|].
  split; [intros p; rewrite Hch; apply NoDup_filter, NoDup_seq|].
  assert (∀ p, c ∈ default [] ((containment ws).1 !! p) ↔ parent_of ws c = Some p)
    as Hchild.
  { intros p. rewrite Hch, list_elem_of_filter, elem_of_seq. naive_solver lia. }
  assert (c ∈ (containment ws).2 ↔ parent_of ws c = None) as Hroot.
  { rewrite Hroots, list_elem_of_filter, elem_of_seq. naive_solver lia. }
  destruct (parent_of ws c) as [p|] eqn:Hp.
  - right. split; [by rewrite Hroot|].
    unfold parent_of in Hp. rewrite Hc in Hp. simpl in Hp.
    apply find_parent_Some in Hp as (Hpc & (wp & Hwp & He) & _).
    exists p, wp. repeat split; try done.
    + rewrite Hchild. congruence.
    + intros ->. by apply Hchild.
  - left. split; [by apply Hroot|]. split.
    + intros p. by rewrite Hchild.
    + unfold parent_of in Hp. rewrite Hc in Hp. simpl in Hp.
      intros p wp Hpc Hwp. by apply (find_parent_None ws wc c Hp p wp).
Qed.

Lemma containment_is_forest_witness :
  let ws := [span "person" 0 6 []; span "abbrev" 1 4 []; span "num" 4 4 []] in
  NoDup (containment ws).2
  ∧ (∀ p, NoDup (default [] ((containment ws).1 !! p)))
  ∧ ((2%nat ∈ (containment ws).2
      ∧ (∀ p, 2%nat ∉ default [] ((containment ws).1 !! p))
      ∧ (∀ p wp, (p < 2)%nat → ws !! p = Some wp
                 → encloses wp (span "num" 4 4 []) = false))
     ∨ (2%nat ∉ (containment ws).2
        ∧ ∃ p wp, (p < 2)%nat ∧ ws !! p = Some wp
                  ∧ encloses wp (span "num" 4 4 []) = true
                  ∧ ∀ q, 2%nat ∈ default [] ((containment ws).1 !! q) ↔ q = p)).
Proof.
  exact (containment_is_forest
           [span "person" 0 6 []; span "abbrev" 1 4 []; span "num" 4 4 []]
           2 (span "num" 4 4 []) eq_refl).
Defined.

(** ** The standalone builders *)

(** An optional string that is [None] when the string is empty. *)
Definition nonempty (s : string) : option string :=
  if Str.is_empty s then None else Some s.

(** The builders that put the styled witness text into one element. *)
Definition simple_builders : list (string → op → list op → Z → Element) :=
  [build_num_with_styles; build_persName; build_ref; build_unclear;
   build_fallback_seg].

Lemma gather_fields skip e1 e2 :
  tag e1 = tag e2 → text e1 = text e2 → subelems e1 = subelems e2 →
  gather skip e1 = gather skip e2.
Proof. intros H1 H2 H3. rewrite !gather_unfold. by rewrite H1, H2, H3. Qed.

Lemma copy_attr_fields w k name f el :
  tag (copy_attr w k name f el) = tag el
  ∧ text (copy_attr w k name f el) = text el
  ∧ subelems (copy_attr w k name f el) = subelems el
  ∧ tail (copy_attr w k name f el) = tail el.
Proof. unfold copy_attr. by destruct (op_get w k). Qed.

Lemma text_copy_attr w k name f el : text (copy_attr w k name f el) = text el.
Proof. apply copy_attr_fields. Qed.

Lemma children_copy_attr w k name f el :
  subelems (copy_attr w k name f el) = subelems el.
Proof. apply copy_attr_fields. Qed.

Lemma tail_copy_attr w k name f el : tail (copy_attr w k name f el) = tail el.
Proof. apply copy_attr_fields. Qed.

(** The parents that the simple builders hand to [build_styled_nodes]:
    fresh elements that only carry attributes. *)
Lemma simple_builders_parent build :
  build ∈ simple_builders →
  ∃ parent : op → Element,
    (∀ w o styles g,
       build w o styles g
       = build_styled_nodes (parent o) w (adjust_styles w styles g))
    ∧ ∀ o, text (parent o) = None ∧ subelems (parent o) = []
           ∧ tail (parent o) = None.
Proof.
  unfold simple_builders. rewrite !elem_of_cons, elem_of_nil.
  intros [->|[->|[->|[->|[->|[]]]]]].
  - eexists (λ o, copy_attr o "value" "value" id
                    (copy_attr o "type" "type" id (new_element (qn "num")))).
    split; [done|]. intros o.
    by rewrite !text_copy_attr, !children_copy_attr, !tail_copy_attr.
  - eexists (λ o, copy_attr o "continued" "continued" normalized_bool
                    (copy_attr o "firstname" "firstname" id
                       (copy_attr o "wikiData" "ref" wikidata_url
                          (copy_attr o "type" "type" id
                             (new_element (qn "persName")))))).
    split; [done|]. intros o.
    by rewrite !text_copy_attr, !children_copy_attr, !tail_copy_attr.
  - eexists (λ o, copy_attr o "target" "target" id
                    (copy_attr o "type" "type" id (new_element (qn "ref")))).
    split; [done|]. intros o.
    by rewrite !text_copy_attr, !children_copy_attr, !tail_copy_attr.
  - eexists (λ o, copy_attr o "reason" "reason" id (new_element (qn "unclear"))).
    split; [done|]. intros o.
    by rewrite !text_copy_attr, !children_copy_attr, !tail_copy_attr.
  - eexists (λ o, foldl (λ seg kv, set_attr seg ("data-" +:+ kv.1) kv.2)
                    (set_attr (new_element (qn "seg")) "type" (op_kind o))
                    (op_attrs o)).
    split; [done|]. intros o.
    by destruct (tag_data_attrs
                   (set_attr (new_element (qn "seg")) "type" (op_kind o))
                   (op_attrs o)) as (_ & -> & -> & ->).
Qed.

Lemma itertext_sub_elements o el attrs :
  itertext
    (foldl (λ el attr, match op_get o attr with
                       | Some v => sub_element_with_text el attr v
                       | None => el
                       end) el attrs)
  = itertext el +:+ Str.concat (omap (op_get o) attrs).
Proof.
  revert el. induction attrs as [|a attrs IH]; intros el.
  - simpl. by rewrite StrFacts.app_nil_r.
  - cbn [foldl omap list_omap]. rewrite IH. destruct (op_get o a) as [v|]; [|done].
    cbn [Str.concat]. rewrite <- StrFacts.app_assoc. f_equal.
    unfold sub_element_with_text, itertext.
    rewrite gather_append_child by done.
    rewrite (gather_unfold _ (set_text _ _)).
    cbn [tag text subelems tail set_text new_element Str.or_empty].
    unfold gather_list. cbn [map Str.concat].
    by rewrite !StrFacts.app_nil_r.
Qed.

(** The text of the elements made by the standalone builders: the witness
    text, whatever the style operations are; [build_placeName] adds the
    values of its nested attributes after it, and
    [build_choice_with_styles] holds the witness text and the alternative
    text, the alternative first for a regularised span. *)
Theorem standalone_builders_text w o styles g :
  (∀ build, build ∈ simple_builders → itertext (build w o styles g) = w)
  ∧ itertext (build_placeName w o styles g)
    = w +:+ Str.concat (omap (op_get o)
                          ["country"; "region"; "settlement"; "district"])
  ∧ ∀ kind alt,
      itertext (build_choice_with_styles kind w alt styles g)
      = if String.eqb kind "regularised" then alt +:+ w else w +:+ alt.
Proof.
  assert (∀ tg u sts,
            itertext (build_styled_nodes (new_element tg) u sts) = u) as Hnew.
  { intros tg u sts. unfold itertext.
    by rewrite gather_build_styled_nodes by done. }
  split; [|split].
  - intros build Hb.
    destruct (simple_builders_parent build Hb) as (parent & -> & Hp).
    destruct (Hp o) as (Ht & Hs & _). unfold itertext.
    rewrite gather_build_styled_nodes by done.
    rewrite gather_unfold, Ht, Hs. done.
  - unfold build_placeName. by rewrite itertext_sub_elements, Hnew.
  - intros kind alt. unfold build_choice_with_styles.
    assert (∀ a b, itertext (choice_of a b)
                   = (itertext a +:+ Str.or_empty (tail a))
                     +:+ (itertext b +:+ Str.or_empty (tail b))) as Hch.
    { intros a b. by apply gather_choice_of. }
    assert (∀ tg u sts, tail (build_styled_nodes (new_element tg) u sts) = None)
      as Htl.
    { intros tg u sts. unfold build_styled_nodes.
      destruct (style_ranges sts) as [|r rs].
      - unfold append_text. by repeat case_match.
      - generalize (slice_text_nodes u (r :: rs)). intros segs.
        generalize (new_element tg) (eq_refl : tail (new_element tg) = None).
        induction segs as [|seg segs IH]; intros p Hp; [done|].
        cbn [foldl]. apply IH. unfold styled_segment, append_text, append_child.
        by repeat case_match. }
    assert (∀ tg u, itertext (set_text (new_element tg) (Some u)) = u) as Hst.
    { intros tg u. unfold itertext. rewrite gather_unfold. cbn.
      by rewrite StrFacts.app_nil_r. }
    destruct (String.eqb kind "abbrev") eqn:E1;
      [apply String.eqb_eq in E1 as ->; cbn|
       destruct (String.eqb kind "sic") eqn:E2;
       [apply String.eqb_eq in E2 as ->; cbn|
        destruct (String.eqb kind "regularised") eqn:E3; cbn]];
      rewrite Hch, Hnew, Hst, Htl; cbn; by rewrite ?StrFacts.app_nil_r.
Qed.

(** ** One style span *)

Lemma take_app_length a b : Str.take (String.length a) (a +:+ b) = a.
Proof. induction a as [|c a IH]; simpl; [by destruct b|by rewrite IH]. Qed.

Lemma drop_app_length a b : Str.drop (String.length a) (a +:+ b) = b.
Proof. induction a as [|c a IH]; simpl; [by destruct b|done]. Qed.

(** A slice of a slice is a slice of the text. *)
Lemma slice_slice t a b x y :
  0 ≤ a → a ≤ b → b ≤ Str.len t → 0 ≤ x → x ≤ y → y ≤ b - a →
  Str.slice (Str.slice t a b) x y = Str.slice t (a + x) (a + y).
Proof.
  intros Ha Hab Hb Hx Hxy Hy.
  pose proof (StrFacts.length_slice t a b Ha Hab Hb) as Hlen.
  rewrite <- (StrFacts.slice_app t a (a + x) b) by lia.
  rewrite <- (StrFacts.slice_app t (a + x) (a + y) b) by lia.
  assert (Str.len (Str.slice t a (a + x)) = a + x - a) as L1
    by (apply StrFacts.length_slice; lia).
  assert (Str.len (Str.slice t (a + x) (a + y)) = a + y - (a + x)) as L2
    by (apply StrFacts.length_slice; lia).
  assert (Str.len (Str.slice t (a + y) b) = b - (a + y)) as L3
    by (apply StrFacts.length_slice; lia).
  rewrite StrFacts.slice_inside; [|lia|lia|].
  2:{ unfold Str.len in *. rewrite !StrFacts.length_app. lia. }
  replace (Z.to_nat x) with (String.length (Str.slice t a (a + x)))
    by (unfold Str.len in L1; lia).
  rewrite drop_app_length.
  replace (Z.to_nat (y - x)) with (String.length (Str.slice t (a + x) (a + y)))
    by (unfold Str.len in L2; lia).
  apply take_app_length.
Qed.

(** [build_styled_nodes] for one style span that lies inside the text and
    does not cover only punctuation, on a parent without content: the text
    before the span, the [hi] element, and the text after the span as its
    tail. *)
Lemma build_styled_nodes_single parent u s :
  text parent = None → subelems parent = [] →
  rend_of s ≠ [] →
  0 ≤ op_offset s → op_offset s < op_end s → op_end s ≤ Str.len u →
  punctuation_only (Str.slice u (op_offset s) (op_end s)) = false →
  build_styled_nodes parent u [s]
  = set_subelems
      (set_text parent (nonempty (Str.slice u 0 (op_offset s))))
      [set_tail (hi_of s (Str.slice u (op_offset s) (op_end s)))
         (nonempty (Str.slice u (op_end s) (Str.len u)))].
Proof.
  intros Htx Hcs Hrend Ha Hab Hb Hp.
  destruct parent as [tg at_ tx cs tl]. cbn in Htx, Hcs. subst tx cs.
  unfold build_styled_nodes. rewrite style_ranges_single by done.
  rewrite slice_text_nodes_single by done.
  set (lab := Str.join " " (rend_of s)).
  assert (styled_segment_lab : ∀ p,
    styled_segment p (Str.slice u (op_offset s) (op_end s)) {[lab]}
    = append_child p (hi_of s (Str.slice u (op_offset s) (op_end s)))).
  { intros p. unfold styled_segment. rewrite decide_False by set_solver.
    rewrite Hp. unfold lab. by rewrite hi_element_single. }
  assert (styled_segment_plain : ∀ p x, styled_segment p x ∅ = append_text p x).
  { intros p x. unfold styled_segment. by rewrite decide_True. }
  assert (∀ x y, 0 ≤ x → x ≤ y → y ≤ Str.len u →
            (x < y → Str.is_empty (Str.slice u x y) = false)
            ∧ (y ≤ x → Str.slice u x y = "")) as Hsl.
  { intros x y ???. pose proof (StrFacts.slice_empty_iff u x y).
    split; intros.
    - apply StrFacts.is_empty_false. intros E. apply H2 in E; lia.
    - apply H2; lia. }
  destruct (Hsl 0 (op_offset s)) as [X1 X2]; [lia..|].
  destruct (Hsl (op_end s) (Str.len u)) as [Y1 Y2]; [lia..|].
  clear Hsl. unfold nonempty.
  destruct (Z.ltb_spec 0 (op_offset s)), (Z.ltb_spec (op_end s) (Str.len u));
    cbn [app foldl fst snd]; rewrite ?styled_segment_plain, styled_segment_lab;
    rewrite ?X1, ?X2, ?Y1, ?Y2 by done.
  - specialize (X1 H). specialize (Y1 H0).
    destruct (Str.slice u 0 (op_offset s)); [done|].
    destruct (Str.slice u (op_end s) (Str.len u)); done.
  - specialize (X1 H). destruct (Str.slice u 0 (op_offset s)); done.
  - specialize (Y1 H0). destruct (Str.slice u (op_end s) (Str.len u)); done.
  - done.
Qed.

(** The standalone builders move the style offsets to the start of the
    span before the styled text is cut, so the [hi] element of a style
    span that lies inside the span of the builder holds the characters of
    the line that the style span covers: for the witness text
    [t[g:e]] and a style span from [a] to [b] with [g ≤ a < b ≤ e] the
    element holds [t[g:a]] as text, the [hi] element around [t[a:b]], and
    [t[b:e]] as its tail. *)
Theorem standalone_styles_are_rebased build t o s g e :
  build ∈ simple_builders →
  0 ≤ g → e ≤ Str.len t → rend_of s ≠ [] →
  g ≤ op_offset s → op_offset s < op_end s → op_end s ≤ e →
  punctuation_only (Str.slice t (op_offset s) (op_end s)) = false →
  let el := build (Str.slice t g e) o [s] g in
  text el = nonempty (Str.slice t g (op_offset s))
  ∧ subelems el
    = [set_tail (hi_of s (Str.slice t (op_offset s) (op_end s)))
         (nonempty (Str.slice t (op_end s) e))].
Proof.
  intros Hb Hg He Hrend Ha Hab Hbe Hp.
  destruct (simple_builders_parent build Hb) as (parent & Hbuild & Hparent).
  destruct (Hparent o) as (Htx & Hcs & _).
  pose proof (StrFacts.length_slice t g e) as Hlen.
  cbv zeta. rewrite Hbuild. unfold adjust_styles. cbn [omap list_omap].
  rewrite Hlen by lia.
  destruct (Z.leb_spec g (op_offset s)); [|lia].
  destruct (Z.leb_spec (op_end s) (g + (e - g))); [|lia].
  cbn [andb]. set (s' := Op _ _ _ _ _).
  assert (hi_of s' = hi_of s) as Hhi by done.
  rewrite (build_styled_nodes_single (parent o) (Str.slice t g e) s');
    try done; cbn [op_offset op_end s']; try lia.
  - rewrite Hhi, Hlen by lia.
    rewrite !slice_slice by lia.
    replace (g + 0) with g by lia.
    replace (g + (op_offset s - g)) with (op_offset s) by lia.
    replace (g + (op_end s - g)) with (op_end s) by lia.
    replace (g + (e - g)) with e by lia.
    by destruct (parent o).
  - rewrite slice_slice by lia.
    replace (g + (op_offset s - g)) with (op_offset s) by lia.
    by replace (g + (op_end s - g)) with (op_end s) by lia.
Qed.

Lemma standalone_styles_are_rebased_witness :
  let el := build_num_with_styles (Str.slice "anno mcdxcix" 5 12)
              (span "num" 5 7 [("type", "roman")])
              [span "textStyle" 7 2 [("italic", "true")]] 5 in
  text el = nonempty (Str.slice "anno mcdxcix" 5 7)
  ∧ subelems el
    = [set_tail (hi_of (span "textStyle" 7 2 [("italic", "true")])
                   (Str.slice "anno mcdxcix" 7 9))
         (nonempty (Str.slice "anno mcdxcix" 9 12))].
Proof.
  apply (standalone_styles_are_rebased build_num_with_styles "anno mcdxcix"
           (span "num" 5 7 [("type", "roman")])
           (span "textStyle" 7 2 [("italic", "true")]) 5 12).
  - unfold simple_builders. apply list_elem_of_here.
  - lia.
  - vm_compute. discriminate.
  - discriminate.
  - simpl. lia.
  - simpl. lia.
  - simpl. lia.
  - reflexivity.
Defined.

(** Inside the renderer the style offsets are not moved: a plain segment
    that starts at [a] is cut with the offsets of its style spans as they
    are, so a style span from [x] to [y] that passes the filter of
    [render_plain_segment] ([a ≤ x], [y ≤ b]) marks the characters from
    [a + x] to [a + y] of the line.  Only for a segment that starts at the
    beginning of the line are these the characters the span names. *)
Theorem style_offsets_count_from_the_segment t s a b :
  0 ≤ a → b ≤ Str.len t → rend_of s ≠ [] →
  a ≤ op_offset s → op_offset s < op_end s → a + op_end s ≤ b →
  punctuation_only (Str.slice t (a + op_offset s) (a + op_end s)) = false →
  render_plain_segment t [s] a b
  = plain (Str.slice t a (a + op_offset s))
    ++ [NElem (hi_of s (Str.slice t (a + op_offset s) (a + op_end s)))]
    ++ plain (Str.slice t (a + op_end s) b).
Proof.
  intros Ha Hb Hrend Hx Hxy Hy Hp.
  pose proof (StrFacts.length_slice t a b) as Hlen.
  unfold render_plain_segment.
  destruct (Str.is_empty (Str.slice t a b)) eqn:E.
  { apply StrFacts.is_empty_true in E.
    apply StrFacts.slice_empty_iff in E; lia. }
  rewrite filter_cons, decide_True by (split; lia). rewrite filter_nil.
  rewrite build_styled_nodes_single; try done; try lia.
  2:{ by rewrite slice_slice by lia. }
  rewrite Hlen by lia. rewrite !slice_slice by lia.
  replace (a + 0) with a by lia. replace (a + (b - a)) with b by lia.
  unfold holder_nodes, nonempty, plain, child_nodes.
  cbn [text subelems set_subelems set_text set_tail tail new_element map concat
       hi_of app].
  destruct (Str.slice t a (a + op_offset s)) as [|c1 r1],
           (Str.slice t (a + op_end s) b) as [|c2 r2]; done.
Qed.

Lemma style_offsets_count_from_the_segment_witness :
  render_plain_segment "abcdefghij" [span "textStyle" 4 2 [("bold", "true")]] 2 10
  = plain (Str.slice "abcdefghij" 2 (2 + 4))
    ++ [NElem (hi_of (span "textStyle" 4 2 [("bold", "true")])
                 (Str.slice "abcdefghij" (2 + 4) (2 + 6)))]
    ++ plain (Str.slice "abcdefghij" (2 + 6) 10).
Proof.
  apply (style_offsets_count_from_the_segment "abcdefghij"
           (span "textStyle" 4 2 [("bold", "true")]) 2 10).
  - lia.
  - vm_compute. discriminate.
  - discriminate.
  - simpl. lia.
  - simpl. lia.
  - simpl. lia.
  - reflexivity.
Defined.

(** ** Parsed operations *)

Lemma dget_copy_skip k op kv :
  k ∈ ["offset"; "length"] →
  Parser.dget k (foldl copy_pair op kv) = Parser.dget k op.
Proof.
  intros Hk. revert op. induction kv as [|[k1 v1] kv IH]; intros op; [done|].
  cbn [foldl]. rewrite IH. unfold copy_pair. cbn [fst snd].
  case_bool_decide as Hk1; [done|].
  rewrite dget_dset. destruct (String.eqb_spec k1 k) as [->|]; done.
Qed.

Lemma dget_normalize_flags k op flags :
  k ∉ flags →
  Parser.dget k (foldl (λ op k, Parser.normalize_flag k op) op flags)
  = Parser.dget k op.
Proof.
  revert op. induction flags as [|f flags IH]; intros op Hk; [done|].
  apply not_elem_of_cons in Hk as [Hf Hk].
  cbn [foldl]. rewrite IH by done. rewrite dget_normalize_flag.
  destruct (String.eqb_spec f k); [congruence|done].
Qed.

Lemma normalize_flag_keys k op : (Parser.normalize_flag k op).*1 = op.*1.
Proof.
  unfold Parser.normalize_flag. destruct (Parser.dget k op) as [v|] eqn:E; [|done].
  generalize (Parser.VStr (if Parser.parse_bool v then "true" else "false")).
  intros v'. induction op as [|[k1 v1] op IH]; [done|].
  cbn in E |- *. destruct (String.eqb_spec k1 k) as [->|]; [done|].
  cbn. f_equal. by apply IH.
Qed.

Lemma foldl_copy_pair_NoDup op kv :
  NoDup op.*1 → NoDup (foldl copy_pair op kv).*1.
Proof.
  revert op. induction kv as [|[k1 v1] kv IH]; intros op Hop; [done|].
  cbn [foldl]. apply IH. unfold copy_pair. case_bool_decide; [done|].
  by apply dset_NoDup.
Qed.

Lemma parse_token_keys kind kv :
  (Parser.parse_token kind kv).*1
  = (foldl copy_pair
       [("kind", Parser.VStr kind);
        ("offset", Parser.VInt (Parser.parse_int (default "0" (Parser.dget "offset" kv)) 0));
        ("length", Parser.VInt (Parser.parse_int (default "0" (Parser.dget "length" kv)) 0));
        ("end", Parser.VInt (Parser.parse_int (default "0" (Parser.dget "offset" kv)) 0
                             + Parser.parse_int (default "0" (Parser.dget "length" kv)) 0))]
       kv).*1.
Proof.
  rewrite parse_token_unfold, normalize_flag_keys. cbv zeta.
  destruct (String.eqb kind "textStyle"); [|done].
  unfold style_flags. cbn [foldl]. by rewrite !normalize_flag_keys.
Qed.

Lemma dget_parse_token k kind kv :
  k ∉ "continued" :: style_flags →
  Parser.dget k (Parser.parse_token kind kv)
  = Parser.dget k
      (foldl copy_pair
         [("kind", Parser.VStr kind);
          ("offset", Parser.VInt (Parser.parse_int (default "0" (Parser.dget "offset" kv)) 0));
          ("length", Parser.VInt (Parser.parse_int (default "0" (Parser.dget "length" kv)) 0));
          ("end", Parser.VInt (Parser.parse_int (default "0" (Parser.dget "offset" kv)) 0
                               + Parser.parse_int (default "0" (Parser.dget "length" kv)) 0))]
         kv).
Proof.
  intros Hk. apply not_elem_of_cons in Hk as [Hc Hk].
  rewrite parse_token_unfold, dget_normalize_flag. cbv zeta.
  destruct (String.eqb_spec "continued" k); [congruence|].
  destruct (String.eqb kind "textStyle"); [|done].
  by rewrite dget_normalize_flags.
Qed.

Lemma dget_is_Some {V} k (d : list (string * V)) :
  is_Some (Parser.dget k d) ↔ k ∈ d.*1.
Proof.
  induction d as [|[k1 v1] d IH]; cbn.
  - split; [by intros [? ?]|by intros ?%elem_of_nil].
  - rewrite elem_of_cons. destruct (String.eqb_spec k1 k) as [->|].
    + split; [by left|by eexists].
    + rewrite IH. naive_solver.
Qed.

(** The keys that every parsed dictionary holds. *)
Lemma parse_custom_ops_fields custom_str d :
  d ∈ Parser.parse_custom_ops custom_str →
  ∃ (kind : string) (off len : Z),
    Parser.dget "kind" d = Some (Parser.VStr kind)
    ∧ Parser.dget "offset" d = Some (Parser.VInt off)
    ∧ Parser.dget "length" d = Some (Parser.VInt len)
    ∧ (Parser.dget "end" d = Some (Parser.VInt (off + len))
       ∨ ∃ v, Parser.dget "end" d = Some (Parser.VStr v))
    ∧ NoDup d.*1.
Proof.
  unfold Parser.parse_custom_ops. intros Hd.
  apply list_elem_of_fmap in Hd as ([kind body] & -> & _). cbn [fst snd].
  set (kv := Parser.kv_of body).
  set (off := Parser.parse_int (default "0" (Parser.dget "offset" kv)) 0).
  set (len := Parser.parse_int (default "0" (Parser.dget "length" kv)) 0).
  pose proof (kv_of_NoDup body) as Hnd. fold kv in Hnd.
  assert (∃ k', Parser.dget "kind" (Parser.parse_token kind kv)
                = Some (Parser.VStr k')) as [k' Hkind].
  { rewrite dget_parse_token by (unfold style_flags; by_compute).
    destruct (Parser.dget "kind" kv) as [v|] eqn:E.
    - exists v. apply dget_copy; [done|done|by_compute].
    - exists kind. rewrite dget_copy_other; [done|].
      intros Hin. apply dget_is_Some in Hin. rewrite E in Hin. by destruct Hin. }
  exists k', off, len. split; [done|].
  split; [|split; [|split]].
  - rewrite dget_parse_token by (unfold style_flags; by_compute).
    rewrite dget_copy_skip; [done|by_compute].
  - rewrite dget_parse_token by (unfold style_flags; by_compute).
    rewrite dget_copy_skip; [done|by_compute].
  - rewrite dget_parse_token by (unfold style_flags; by_compute).
    destruct (Parser.dget "end" kv) as [v|] eqn:E.
    + right. exists v. apply dget_copy; [done|done|by_compute].
    + left. rewrite dget_copy_other; [done|].
      intros Hin. apply dget_is_Some in Hin. rewrite E in Hin. by destruct Hin.
  - rewrite parse_token_keys. apply foldl_copy_pair_NoDup. by_compute.
Qed.

(** What a dictionary of [parse_custom_ops] always holds: a string under
    [kind], integers under [offset] and [length] (an attribute of the token
    never replaces them), and under [end] their sum, unless the token has
    an attribute named [end], whose text then takes its place.  No key
    occurs twice. *)
Theorem parsed_operations_are_well_formed custom_str d :
  d ∈ Parser.parse_custom_ops custom_str →
  ∃ (kind : string) (off len : Z),
    Parser.dget "kind" d = Some (Parser.VStr kind)
    ∧ Parser.dget "offset" d = Some (Parser.VInt off)
    ∧ Parser.dget "length" d = Some (Parser.VInt len)
    ∧ (Parser.dget "end" d = Some (Parser.VInt (off + len))
       ∨ ∃ v, Parser.dget "end" d = Some (Parser.VStr v))
    ∧ NoDup d.*1.
Proof. apply parse_custom_ops_fields. Qed.

Lemma parsed_operations_are_well_formed_witness :
  ∃ (kind : string) (off len : Z),
    let d := [("kind", Parser.VStr "person"); ("offset", Parser.VInt 3);
              ("length", Parser.VInt 4); ("end", Parser.VStr "9");
              ("continued", Parser.VStr "true")] in
    Parser.dget "kind" d = Some (Parser.VStr kind)
    ∧ Parser.dget "offset" d = Some (Parser.VInt off)
    ∧ Parser.dget "length" d = Some (Parser.VInt len)
    ∧ (Parser.dget "end" d = Some (Parser.VInt (off + len))
       ∨ ∃ v, Parser.dget "end" d = Some (Parser.VStr v))
    ∧ NoDup d.*1.
Proof.
  apply (parsed_operations_are_well_formed
           "readingOrder {index:1;} person {offset:3; length:4; end:9; continued:YES;}").
  vm_compute. apply list_elem_of_further, list_elem_of_here.
Defined.

(** ** From the custom attribute to the [ab] element *)

Lemma op_of_dict_fields d o :
  op_of_dict d = Some o →
  Parser.dget "offset" d = Some (Parser.VInt (op_offset o))
  ∧ Parser.dget "length" d = Some (Parser.VInt (op_length o))
  ∧ Parser.dget "end" d = Some (Parser.VInt (op_end o)).
Proof.
  unfold op_of_dict. intros H.
  destruct (Parser.dget "kind" d) as [[?|k]|]; try done.
  destruct (Parser.dget "offset" d) as [[x|?]|]; try done.
  destruct (Parser.dget "length" d) as [[l|?]|]; try done.
  destruct (Parser.dget "end" d) as [[e|?]|]; try done.
  apply fmap_Some in H as (attrs & _ & ->). done.
Qed.

(** The operations read from a custom attribute have a positive length
    and [end] equal to [offset + length]. *)
Lemma parsed_op_end custom_str ops o :
  ops_of_dicts (Parser.parse_custom_ops custom_str) = Some ops →
  o ∈ ops → 0 < op_length o ∧ op_end o = op_offset o + op_length o.
Proof.
  unfold ops_of_dicts. intros Hops Ho. apply mapM_Some in Hops.
  apply list_elem_of_lookup in Ho as [i Hi].
  destruct (Forall2_lookup_r _ _ _ _ _ Hops Hi) as (d & Hd & Hdo).
  apply list_elem_of_lookup_2, list_elem_of_filter in Hd as [Hlive Hd].
  destruct (parse_custom_ops_fields custom_str d Hd)
    as (kind & off & len & _ & Hoff & Hlen & Hend & _).
  destruct (op_of_dict_fields d o Hdo) as (H1 & H2 & H3).
  unfold has_length in Hlive. rewrite H2 in Hlive. apply Z.ltb_lt in Hlive.
  split; [done|].
  destruct Hend as [Hend|[v Hend]]; congruence.
Qed.

Lemma gather_fill_ab skip nodes text_val :
  skip "tmp" = false → skip (qn "ab") = false →
  gather_nodes skip nodes = text_val →
  gather skip (fill_ab nodes text_val) = text_val.
Proof.
  intros Htmp Hab Hnodes. unfold fill_ab. cbv zeta.
  pose proof (gather_foldl_insert_node skip (new_element (qn "ab")) nodes Hab)
    as Hg.
  rewrite Hnodes in Hg. rewrite (gather_unfold _ (new_element _)) in Hg.
  cbn [tag text subelems new_element] in Hg. rewrite Hab in Hg.
  destruct (foldl insert_node (new_element (qn "ab")) nodes)
    as [tg at_ tx cs tl] eqn:E.
  assert (tg = qn "ab") as ->.
  { change tg with (tag (Elem tg at_ tx cs tl)). rewrite <- E.
    apply tag_foldl_insert_node. }
  cbn [text subelems]. destruct tx as [x|]; [done|]. destruct cs; [|done].
  rewrite gather_unfold in Hg. cbn [tag text subelems] in Hg.
  rewrite Hab in Hg. cbn in Hg. subst text_val.
  rewrite gather_unfold. cbn [tag set_text text subelems]. rewrite Hab, <- Hg.
  done.
Qed.

(** A line of the page, from its custom attribute to its [ab] element.
    The tokens without a positive length are ignored, whatever they hold.
    When no token with a positive length has an attribute named [end]
    (with one, [end] is a string and the renderer raises [TypeError] where
    it reads it), and the wrapper spans lie inside the text, are pairwise
    nested or disjoint and hold no regularised span with an explicit
    regularised value, the renderer returns and the [ab] element filled
    with its nodes holds exactly the text of the line (the literal
    elements [expan], [corr], [orig] and the sub-elements of [placeName]
    left out). *)
Theorem parsed_line_text_is_preserved text_val custom_str ops :
  ops_of_dicts (Parser.parse_custom_ops custom_str) = Some ops →
  (∀ o, o ∈ ops → is_wrapper o →
        0 ≤ op_offset o ∧ op_offset o + op_length o ≤ Str.len text_val) →
  (∀ x y, x ∈ ops → y ∈ ops → is_wrapper x → is_wrapper y →
          encloses x y = true ∨ encloses y x = true ∨ disjoint_spans x y) →
  (∀ o, o ∈ ops → is_wrapper o → keeps_inner o) →
  ∃ nodes,
    build_inline_nodes_for_line text_val ops = Some nodes
    ∧ gather is_literal (fill_ab nodes text_val) = text_val.
Proof.
  intros Hops Hrange Hlam Hkeep.
  destruct (line_text_nested text_val ops) as (nodes & Hnodes & Hflat);
    [|done|done|].
  { intros o Ho Hw.
    destruct (parsed_op_end custom_str ops o Hops Ho) as [_ Hend].
    destruct (Hrange o Ho Hw). lia. }
  exists nodes. split; [done|]. by apply gather_fill_ab.
Qed.

Lemma parsed_line_text_is_preserved_witness :
  ∃ nodes,
    build_inline_nodes_for_line "Dr. Marcus of Rome"
      [span "person" 0 10 [("type", "human")];
       span "abbrev" 0 3 [("expansion", "Doctor")];
       span "place" 14 4 [("country", "Italy")]] = Some nodes
    ∧ gather is_literal (fill_ab nodes "Dr. Marcus of Rome")
      = "Dr. Marcus of Rome".
Proof.
  apply (parsed_line_text_is_preserved "Dr. Marcus of Rome"
           ("readingOrder {index:3;} person {offset:0; length:10; type:human;} "
            +:+ "abbrev {offset:0; length:3; expansion:Doctor;} "
            +:+ "unclear {offset:4; end:10;} "
            +:+ "place {offset:14; length:4; country:Italy;}")).
  - reflexivity.
  - intros o Ho [Hk Hl]. rewrite !elem_of_cons, elem_of_nil in Ho.
    destruct Ho as [->|[->|[->|[]]]]; vm_compute; intuition congruence.
  - intros x y Hx Hy [_ Hlx] [_ Hly].
    rewrite !elem_of_cons, elem_of_nil in Hx, Hy.
    destruct Hx as [->|[->|[->|[]]]]; try (by vm_compute in Hlx);
    destruct Hy as [->|[->|[->|[]]]]; try (by vm_compute in Hly);
      vm_compute; intuition congruence.
  - intros o Ho _ Hk. rewrite !elem_of_cons, elem_of_nil in Ho.
    destruct Ho as [->|[->|[->|[]]]]; vm_compute in Hk; discriminate.
Defined.

(** ** Edition type of a file name *)

Lemma contains_slash_cons c s :
  Split.contains "/" (String c s) = Ascii.eqb c "/" || Split.contains "/" s.
Proof.
  cbn [Split.contains String.prefix].
  destruct (ascii_dec "/" c) as [<-|Hne].
  - by destruct s.
  - rewrite (proj2 (Ascii.eqb_neq c "/")) by congruence. done.
Qed.

Lemma contains_slash_app dir name :
  Split.contains "/" (dir +:+ "/" +:+ name) = true.
Proof.
  induction dir as [|c dir IH].
  - change ("" +:+ "/" +:+ name) with (String "/" name).
    by rewrite contains_slash_cons.
  - change (String c dir +:+ "/" +:+ name)
      with (String c (dir +:+ "/" +:+ name)).
    rewrite contains_slash_cons, IH. apply orb_true_r.
Qed.

Lemma basename_no_slash name :
  Split.contains "/" name = false → Split.basename name = name.
Proof.
  destruct name as [|c name]; [done|].
  rewrite contains_slash_cons. intros [Hc Hn]%orb_false_elim.
  cbn [Split.basename]. by rewrite Hn, Hc.
Qed.

Lemma basename_app dir name :
  Split.contains "/" name = false →
  Split.basename (dir +:+ "/" +:+ name) = name.
Proof.
  intros Hn. induction dir as [|c dir IH].
  - change ("" +:+ "/" +:+ name) with (String "/" name).
    cbn [Split.basename]. by rewrite Hn.
  - change (String c dir +:+ "/" +:+ name)
      with (String c (dir +:+ "/" +:+ name)).
    cbn [Split.basename]. by rewrite contains_slash_app.
Qed.

(** The edition type depends on the last component of the path only: the
    directories of the path, whatever their names, do not count. *)
Theorem detect_edition_type_ignores_directories dir name :
  Split.contains "/" name = false →
  detect_edition_type (dir +:+ "/" +:+ name) = detect_edition_type name.
Proof.
  intros Hn. unfold detect_edition_type.
  by rewrite basename_app, basename_no_slash.
Qed.

Lemma detect_edition_type_ignores_directories_witness :
  detect_edition_type ("editions_dip/final" +:+ "/" +:+ "p1_trad.xml")
  = detect_edition_type "p1_trad.xml".
Proof.
  apply (detect_edition_type_ignores_directories "editions_dip/final" "p1_trad.xml").
  reflexivity.
Defined.

Lemma prefix_app_l p q s :
  String.prefix (p +:+ q) s = true → String.prefix p s = true.
Proof.
  revert s. induction p as [|c p IH]; intros s; [by destruct s|].
  destruct s as [|c' s]; [done|]. cbn [String.append String.prefix].
  destruct (ascii_dec c c'); [apply IH|done].
Qed.

Lemma contains_app_l p q s :
  Split.contains (p +:+ q) s = true → Split.contains p s = true.
Proof.
  induction s as [|c s IH]; cbn [Split.contains].
  - rewrite !orb_false_r. apply prefix_app_l.
  - intros [H|H]%orb_true_iff.
    + by rewrite (prefix_app_l _ _ _ H).
    + rewrite (IH H). apply orb_true_r.
Qed.

(** The decision of [detect_edition_type] on the lower-cased last component
    [b] of the path: diplomatic exactly when [b] contains [_dip] or
    [diplomatic]; otherwise translation exactly when [b] contains [_trad]
    or [trans] anywhere (the test for [translation] never decides
    anything, and a name such as [transkribus_p1.xml] is a translation);
    otherwise nothing. *)
Theorem detect_edition_type_cases filename :
  let b := Parser.lower (Split.basename filename) in
  let dip := Split.contains "_dip" b || Split.contains "diplomatic" b in
  let trad := Split.contains "_trad" b || Split.contains "trans" b in
  detect_edition_type filename
  = if dip then Some "diplomatic"
    else if trad then Some "translation" else None.
Proof.
  cbv zeta. unfold detect_edition_type.
  destruct (_ || _); [done|].
  destruct (Split.contains "_trad" _); [done|]. cbn [orb].
  destruct (Split.contains "translation" _) eqn:E; [|done].
  by rewrite (contains_app_l "trans" "lation" _ E).
Qed.

(** ** The vertical position of a line *)

Lemma y_values_empty : y_values "" = Some [].
Proof. done. Qed.

Lemma sum_bounds (ys : list Z) lo hi :
  Forall (λ y, lo ≤ y ≤ hi) ys →
  lo * Z.of_nat (length ys) ≤ foldr Z.add 0 ys ≤ hi * Z.of_nat (length ys).
Proof.
  induction 1 as [|y ys Hy _ IH]; cbn [foldr length]; lia.
Qed.

(** A baseline whose coordinate pairs all have an integer after the first
    comma decides the position of the line, whatever the outline is: the
    result is the mean of the [y] values rounded down, and so lies between
    the least and the greatest of them. *)
Theorem get_y_of_baseline baseline points ys lo hi :
  y_values baseline = Some ys → ys ≠ [] → Forall (λ y, lo ≤ y ≤ hi) ys →
  get_y (Some baseline) points
  = foldr Z.add 0 ys `div` Z.of_nat (length ys)
  ∧ lo ≤ get_y (Some baseline) points ≤ hi.
Proof.
  intros Hys Hne Hb.
  assert (Str.truthy_opt (Some baseline) = true) as Ht.
  { destruct baseline; [|done]. rewrite y_values_empty in Hys. congruence. }
  assert (get_y (Some baseline) points
          = foldr Z.add 0 ys `div` Z.of_nat (length ys)) as ->.
  { unfold get_y. rewrite Ht. cbn [Str.or_empty]. rewrite Hys.
    cbn [mbind option_bind]. unfold mean_floor. by destruct ys. }
  split; [done|].
  pose proof (sum_bounds ys lo hi Hb) as [H1 H2].
  assert (0 < Z.of_nat (length ys)) by (destruct ys; [done|cbn; lia]).
  split.
  - apply Z.div_le_lower_bound; lia.
  - apply Z.div_le_upper_bound; lia.
Qed.

Lemma get_y_of_baseline_witness :
  get_y (Some "10,20 30,41 50,-3") (Some "0,0 1,1")
  = foldr Z.add 0 [20; 41; -3] `div` Z.of_nat (length [20; 41; -3])
  ∧ -3 ≤ get_y (Some "10,20 30,41 50,-3") (Some "0,0 1,1") ≤ 41.
Proof.
  apply (get_y_of_baseline "10,20 30,41 50,-3" (Some "0,0 1,1") [20; 41; -3]).
  - reflexivity.
  - discriminate.
  - repeat constructor; lia.
Defined.

Lemma minimum_spec y ys m :
  minimum (y :: ys) = Some m → m ∈ y :: ys ∧ Forall (λ x, m ≤ x) (y :: ys).
Proof.
  unfold minimum. intros [= <-]. revert y.
  induction ys as [|x ys IH]; intros y; cbn [foldl].
  - split; [left|]. repeat constructor. lia.
  - destruct (IH (Z.min y x)) as [Hin Hall].
    apply Forall_cons in Hall as [Hm Hall]. split.
    + apply elem_of_cons in Hin as [->|Hin]; [|by right; right].
      destruct (Z.min_spec y x) as [[_ ->]|[_ ->]]; [left|right; left].
    + repeat constructor; try done; lia.
Qed.

(** A baseline with a single pair that cannot be read (no comma, no
    integer after it) is dropped as a whole, and so is an absent or empty
    baseline: the position of the line is then the least [y] of its
    outline. *)
Theorem get_y_of_points baseline points ys :
  (Str.truthy_opt baseline = false ∨ y_values (Str.or_empty baseline) = None) →
  y_values points = Some ys → ys ≠ [] →
  get_y baseline (Some points) ∈ ys
  ∧ Forall (λ y, get_y baseline (Some points) ≤ y) ys.
Proof.
  intros Hb Hys Hne.
  assert (Str.truthy_opt (Some points) = true) as Ht.
  { destruct points; [|done]. rewrite y_values_empty in Hys. congruence. }
  destruct ys as [|y ys]; [done|].
  assert (get_y baseline (Some points) = foldl Z.min y ys) as ->.
  { unfold get_y. rewrite Ht. cbn [Str.or_empty]. rewrite Hys.
    destruct Hb as [->| ->]; [done|]. by destruct (Str.truthy_opt baseline). }
  by apply minimum_spec.
Qed.

Lemma get_y_of_points_witness :
  get_y (Some "10,20 30") (Some "1,7 2,5 3,9") ∈ [7; 5; 9]
  ∧ Forall (λ y, get_y (Some "10,20 30") (Some "1,7 2,5 3,9") ≤ y) [7; 5; 9].
Proof.
  apply (get_y_of_points (Some "10,20 30") "1,7 2,5 3,9" [7; 5; 9]).
  - right. reflexivity.
  - reflexivity.
  - discriminate.
Defined.

(** ** Re-ordering the lines of a TEI file *)

Lemma pair_ind {A} (P : list A → Prop) :
  P [] →
  (∀ x l, P l → (∀ y l', l = y :: l' → P l') → P (x :: l)) →
  ∀ l, P l.
Proof.
  intros Hnil Hcons l.
  assert (P l ∧ ∀ y l', l = y :: l' → P l') as [H _]; [|done].
  induction l as [|x l [IH1 IH2]]; [done|].
  split; [by apply Hcons|]. by intros y l' [= -> ->].
Qed.

Lemma dict_get_set_other k k' v d :
  k ≠ k' → dict_get k (dict_set k' v d) = dict_get k d.
Proof.
  intros Hne. induction d as [|[k1 v1] d IH]; cbn.
  - by destruct (String.eqb_spec k' k).
  - destruct (String.eqb_spec k1 k') as [->|]; cbn.
    + by destruct (String.eqb_spec k' k).
    + by rewrite IH.
Qed.

Lemma dict_set_set k v d : dict_set k v (dict_set k v d) = dict_set k v d.
Proof.
  induction d as [|[k1 v1] d IH]; cbn.
  - by rewrite String.eqb_refl.
  - destruct (String.eqb_spec k1 k) as [->|Hne]; cbn.
    + by rewrite String.eqb_refl.
    + destruct (String.eqb_spec k1 k); [done|]. by rewrite IH.
Qed.

Lemma sorted_by_sorted_id {A} (le : A → A → bool) l :
  StronglySorted (λ a b, le a b = true) l → sorted_by le l = l.
Proof.
  induction 1 as [|x l Hs IH Hx]; [done|].
  cbn [sorted_by]. rewrite IH. destruct l as [|y l]; [done|].
  apply Forall_cons in Hx as [Hxy _]. cbn [insert_by]. by rewrite Hxy.
Qed.

Lemma StronglySorted_weaken {A} (R S : A → A → Prop) l :
  (∀ x y, R x y → S x y) → StronglySorted R l → StronglySorted S l.
Proof.
  intros HRS. induction 1 as [|x l _ IH Hx]; constructor; [done|].
  eapply Forall_impl; [exact Hx|]. intros y. apply HRS.
Qed.

Section FixDiv.
Context {K : Type} (lt : K → K → bool) (far minus_one : K).
Hypothesis lt_total : ∀ x y, lt y x = false ∨ lt x y = false.
Hypothesis lt_trans :
  ∀ x y z, lt y x = false → lt z y = false → lt z x = false.
Variable zones : gmap string K.

(** The entry of a line whose [lb] has received the number [i + 1]. *)
Definition renumbered (i : nat) (l : line K) : line K :=
  Line (set_attr (line_lb l) "n" (Parser.to_str (Parser.VInt (Z.of_nat (S i)))))
       (line_ab l) (line_zone_id l) (line_avg_y l).

(** An entry as [collect_lines] builds them. *)
Definition well_paired (l : line K) : Prop :=
  tag (line_lb l) = qn "lb"
  ∧ (∀ a, line_ab l = Some a → tag a = qn "ab")
  ∧ l = line_of far zones (line_lb l) (line_ab l).

Lemma collect_lines_well_paired children :
  Forall well_paired (collect_lines far zones children).
Proof.
  induction children as [|elem rest IH1 IH2] using pair_ind; [constructor|].
  cbn [collect_lines].
  destruct (String.eqb_spec (tag elem) (qn "lb")) as [Hlb|]; [|done].
  destruct rest as [|next rest']; [by repeat constructor|].
  destruct (String.eqb_spec (tag next) (qn "ab")) as [Hab|].
  - constructor; [|by eapply IH2].
    split; [done|]. split; [|done]. by intros a [= <-].
  - constructor; [|done]. by split.
Qed.

Lemma line_of_renumbered i l :
  well_paired l →
  line_of far zones
    (set_attr (line_lb l) "n" (Parser.to_str (Parser.VInt (Z.of_nat (S i)))))
    (line_ab l)
  = renumbered i l.
Proof.
  intros (_ & _ & Hl). destruct l as [lb ab z y].
  cbn [line_lb line_ab] in *. unfold line_of in Hl. injection Hl as Hz Hy.
  unfold renumbered, line_of.
  cbn [line_lb line_ab line_zone_id line_avg_y attrib set_attr].
  rewrite dict_get_set_other by done. f_equal; by symmetry.
Qed.

Lemma collect_lines_others others rest :
  Forall (λ c, tag c ≠ qn "lb") others →
  collect_lines far zones (others ++ rest) = collect_lines far zones rest.
Proof.
  induction 1 as [|c others Hc _ IH]; [done|].
  cbn [app collect_lines]. by destruct (String.eqb_spec (tag c) (qn "lb")).
Qed.

Lemma collect_lines_numbered ls :
  ∀ start,
    Forall well_paired ls →
    collect_lines far zones (concat (imap (λ i, numbered (start + i)) ls))
    = imap (λ i, renumbered (start + i)) ls.
Proof.
  induction ls as [|l ls IH]; intros start Hls; [done|].
  apply Forall_cons in Hls as [Hl Hls].
  rewrite !imap_cons. cbn [concat].
  rewrite (imap_ext _ (λ i, numbered (S start + i)))
    by (intros; unfold compose; f_equal; lia).
  rewrite (imap_ext (_ ∘ S) (λ i, renumbered (S start + i)))
    by (intros; unfold compose; f_equal; lia).
  rewrite <- (IH (S start)) by done.
  replace (start + 0)%nat with start by lia.
  pose proof (line_of_renumbered start l Hl) as Hre.
  destruct Hl as (Hlb & Hab & _).
  unfold numbered at 1. cbn [app].
  cbn [collect_lines tag set_attr]. rewrite Hlb, String.eqb_refl.
  destruct (line_ab l) as [a|] eqn:Ea.
  - cbn [app]. rewrite (Hab a eq_refl), String.eqb_refl. by rewrite Hre.
  - cbn [app]. rewrite Hre.
    destruct ls as [|l' ls]; [done|].
    apply Forall_cons in Hls as [(Hlb' & _) _].
    rewrite imap_cons. cbn [concat]. unfold numbered at 1. cbn [app tag set_attr].
    rewrite Hlb'. done.
Qed.

Lemma sorted_lines_sorted lines :
  StronglySorted (λ x y, lt (line_avg_y y) (line_avg_y x) = false)
    (sorted_lines lt lines).
Proof.
  unfold sorted_lines.
  eapply (StronglySorted_weaken
            (λ x y, negb (lt (line_avg_y y) (line_avg_y x)) = true)).
  { intros x y. by intros ?%negb_true_iff. }
  apply sorted_by_sorted.
  - intros x y. rewrite !negb_true_iff. apply lt_total.
  - intros x y z. rewrite !negb_true_iff. apply lt_trans.
Qed.

Lemma filter_others_numbered (ls : list (line K)) g :
  (∀ i l, ∃ j, g i l = numbered j l) →
  Forall well_paired ls →
  filter (λ c, tag c ∉ [qn "lb"; qn "ab"]) (concat (imap g ls)) = [].
Proof.
  revert g. induction ls as [|l ls IH]; intros g Hg Hls; [done|].
  apply Forall_cons in Hls as [(Hlb & Hab & _) Hls].
  rewrite imap_cons. cbn [concat]. rewrite filter_app.
  rewrite (IH (g ∘ S)) by (done || intros i l'; apply Hg).
  rewrite List.app_nil_r. destruct (Hg 0%nat l) as [j ->].
  unfold numbered. rewrite filter_cons, decide_False.
  2:{ cbn [tag set_attr]. rewrite Hlb. intros H. apply H. left. }
  destruct (line_ab l) as [a|]; [|done].
  rewrite filter_cons, decide_False; [done|].
  rewrite (Hab a eq_refl). intros H. apply H. right. left.
Qed.

Lemma elem_of_numbered_ab (ls : list (line K)) g a :
  (∀ i l, ∃ j, g i l = numbered j l) →
  Forall well_paired ls → tag a = qn "ab" →
  a ∈ concat (imap g ls) ↔ ∃ l, l ∈ ls ∧ line_ab l = Some a.
Proof.
  intros Hg Hls Ha. revert g Hg.
  induction Hls as [|l ls (Hlb & Hab & _) _ IH]; intros g Hg.
  - cbn. split; [by intros ?%elem_of_nil|by intros (? & ?%elem_of_nil & _)].
  - rewrite imap_cons. cbn [concat].
    rewrite elem_of_app, (IH (g ∘ S)) by (intros i l'; apply Hg).
    destruct (Hg 0%nat l) as [j ->].
    unfold numbered. rewrite elem_of_cons. split.
    + intros [[->|Hin]|(l' & Hl' & Hal')].
      * cbn [tag set_attr] in Ha. rewrite Hlb in Ha. by vm_compute in Ha.
      * exists l. split; [left|]. destruct (line_ab l); [|by apply elem_of_nil in Hin].
        by apply list_elem_of_singleton in Hin as ->.
      * exists l'. split; [by right|done].
    + intros (l' & [->|Hl']%elem_of_cons & Hal').
      * left. right. rewrite Hal'. left.
      * right. by exists l'.
Qed.

(** What [fix_file] does to the children of the [div] when some line lies
    above the line before it.  The children that are neither [lb] nor [ab]
    keep their order (and now come first).  Read again as lines, the new
    children are the lines that were collected, in the order of their
    positions (lines at the same position keep their order), each [lb]
    with its [ab] directly after it and carrying its new number.  An [ab]
    is kept exactly when it directly followed an [lb]: any other [ab] is
    removed from the [div]. *)
Theorem fix_div_sorts_the_lines children :
  out_of_order lt minus_one (collect_lines far zones children) ≠ 0%nat →
  let lines := sorted_lines lt (collect_lines far zones children) in
  let out := fix_div lt far minus_one zones children in
  filter (λ c, tag c ∉ [qn "lb"; qn "ab"]) out
  = filter (λ c, tag c ∉ [qn "lb"; qn "ab"]) children
  ∧ collect_lines far zones out = imap renumbered lines
  ∧ lines ≡ₚ collect_lines far zones children
  ∧ StronglySorted (λ x y, lt (line_avg_y y) (line_avg_y x) = false) lines
  ∧ ∀ a, tag a = qn "ab" →
         a ∈ out ↔ ∃ l, l ∈ lines ∧ line_ab l = Some a.
Proof using lt_total lt_trans.
  intros Hout. cbv zeta. unfold fix_div. cbv zeta.
  destruct (Nat.eqb_spec (out_of_order lt minus_one (collect_lines far zones children)) 0);
    [done|].
  set (lines := sorted_lines lt (collect_lines far zones children)).
  assert (lines ≡ₚ collect_lines far zones children) as Hperm
    by apply sorted_by_Permutation.
  assert (Forall well_paired lines) as Hwp.
  { rewrite Hperm. apply collect_lines_well_paired. }
  split; [|split; [|split; [done|split; [apply sorted_lines_sorted|]]]].
  - rewrite filter_app, (filter_others_numbered lines numbered)
      by (done || by eexists).
    rewrite List.app_nil_r. apply list_filter_filter_l. done.
  - rewrite collect_lines_others.
    + apply (collect_lines_numbered lines 0%nat Hwp).
    + apply Forall_forall. intros c [Hc _]%list_elem_of_filter Htag.
      apply Hc. rewrite Htag. left.
  - intros a Ha.
    rewrite elem_of_app, (elem_of_numbered_ab lines numbered)
      by (done || by eexists).
    split; [|by right]. intros [[Hc _]%list_elem_of_filter|H]; [|done].
    destruct Hc. rewrite Ha. right. left.
Qed.

(** Running [fix_file] on its own result changes nothing more. *)
Theorem fix_div_is_idempotent children :
  fix_div lt far minus_one zones (fix_div lt far minus_one zones children)
  = fix_div lt far minus_one zones children.
Proof using lt_total lt_trans.
  destruct (Nat.eqb (out_of_order lt minus_one (collect_lines far zones children)) 0)
    eqn:E.
  { unfold fix_div. cbv zeta. by rewrite !E. }
  set (lines := sorted_lines lt (collect_lines far zones children)).
  set (others := filter (λ c, tag c ∉ [qn "lb"; qn "ab"]) children).
  assert (fix_div lt far minus_one zones children
          = others ++ concat (imap numbered lines)) as ->.
  { unfold fix_div. cbv zeta. by rewrite E. }
  assert (Forall well_paired lines) as Hwp.
  { unfold lines, sorted_lines. rewrite sorted_by_Permutation.
    apply collect_lines_well_paired. }
  assert (collect_lines far zones (others ++ concat (imap numbered lines))
          = imap renumbered lines) as Hcollect.
  { rewrite collect_lines_others.
    - apply (collect_lines_numbered lines 0%nat Hwp).
    - apply Forall_forall. intros c [Hc _]%list_elem_of_filter Htag.
      apply Hc. rewrite Htag. left. }
  unfold fix_div. cbv zeta. rewrite Hcollect.
  destruct (Nat.eqb (out_of_order lt minus_one (imap renumbered lines)) 0);
    [done|].
  rewrite filter_app, (filter_others_numbered lines numbered)
    by (done || by eexists).
  rewrite List.app_nil_r.
  assert (filter (λ c, tag c ∉ [qn "lb"; qn "ab"]) others = others) as ->.
  { unfold others. by apply list_filter_filter_l. }
  f_equal.
  assert (sorted_lines lt (imap renumbered lines) = imap renumbered lines) as ->.
  { apply sorted_by_sorted_id.
    pose proof (sorted_lines_sorted (collect_lines far zones children)) as Hs.
    fold lines in Hs. clear -Hs.
    assert (∀ g : nat → line K → line K,
              (∀ i l, line_avg_y (g i l) = line_avg_y l) →
              StronglySorted
                (λ a b, negb (lt (line_avg_y b) (line_avg_y a)) = true)
                (imap g lines)) as H; [|by apply H].
    induction Hs as [|l ls Hs IH Hl]; intros g Hg; [constructor|].
    rewrite imap_cons. constructor; [apply IH; intros i l'; apply Hg|].
    apply Forall_forall. intros x Hx.
    apply (list_elem_of_lookup_1 _ x) in Hx as [i Hi].
    rewrite list_lookup_imap in Hi.
    destruct (ls !! i) as [l'|] eqn:El; [|done]. cbn in Hi. simplify_eq.
    rewrite Forall_forall in Hl. rewrite !Hg.
    apply negb_true_iff, Hl. by eapply list_elem_of_lookup_2. }
  f_equal. clear.
  assert (∀ g h : nat → line K → _,
            (∀ i l, g i (h i l) = g i l ∧ ∃ j, g i = numbered j ∧ h i = renumbered j) →
            imap g (imap h lines) = imap g lines) as H.
  { induction lines as [|l ls IH]; intros g h Hgh; [done|].
    rewrite !imap_cons. f_equal; [apply Hgh|].
    apply IH. intros i l'. apply (Hgh (S i)). }
  apply H. intros i l. split; [|by eexists].
  unfold numbered, renumbered. cbn [line_lb line_ab]. f_equal.
  unfold set_attr. cbn [tag attrib text subelems tail]. by rewrite dict_set_set.
Qed.

End FixDiv.

Lemma Zltb_total (x y : Z) : (y <? x) = false ∨ (x <? y) = false.
Proof. destruct (Z.ltb_spec y x), (Z.ltb_spec x y); auto; lia. Defined.

Lemma Zltb_trans (x y z : Z) :
  (y <? x) = false → (z <? y) = false → (z <? x) = false.
Proof. rewrite !Z.ltb_ge. lia. Defined.

Lemma fix_div_sorts_the_lines_witness :
  let zones : gmap string Z := {["z1" := 50; "z2" := 10]} in
  let lb n z := Elem (qn "lb") [("facs", z); ("n", n)] None [] None in
  let ab s := Elem (qn "ab") [] (Some s) [] None in
  let children :=
    [Elem (qn "pb") [] None [] None; lb "1" "#z1"; ab "below";
     ab "alone"; lb "2" "#z2"; ab "above"] in
  let lines := sorted_lines Z.ltb (collect_lines 999999 zones children) in
  let out := fix_div Z.ltb 999999 (-1) zones children in
  filter (λ c, tag c ∉ [qn "lb"; qn "ab"]) out
  = filter (λ c, tag c ∉ [qn "lb"; qn "ab"]) children
  ∧ collect_lines 999999 zones out = imap renumbered lines
  ∧ lines ≡ₚ collect_lines 999999 zones children
  ∧ StronglySorted (λ x y, (line_avg_y y <? line_avg_y x) = false) lines
  ∧ ∀ a, tag a = qn "ab" →
         a ∈ out ↔ ∃ l, l ∈ lines ∧ line_ab l = Some a.
Proof.
  intros zones lb ab children.
  apply (fix_div_sorts_the_lines Z.ltb 999999 (-1) Zltb_total Zltb_trans
           zones children).
  vm_compute. discriminate.
Defined.

Lemma fix_div_is_idempotent_witness :
  let zones : gmap string Z := {["z1" := 50; "z2" := 10]} in
  let lb n z := Elem (qn "lb") [("facs", z); ("n", n)] None [] None in
  let ab s := Elem (qn "ab") [] (Some s) [] None in
  let children :=
    [Elem (qn "pb") [] None [] None; lb "1" "#z1"; ab "below";
     ab "alone"; lb "2" "#z2"; ab "above"] in
  fix_div Z.ltb 999999 (-1) zones (fix_div Z.ltb 999999 (-1) zones children)
  = fix_div Z.ltb 999999 (-1) zones children.
Proof.
  intros zones lb ab children.
  apply (fix_div_is_idempotent Z.ltb 999999 (-1) Zltb_total Zltb_trans).
Defined.

(** ** The list of wrappers *)

Lemma wrappers_cons o ops :
  wrappers (o :: ops)
  ≡ₚ (if decide (is_wrapper o) then [o] else []) ++ wrappers ops.
Proof.
  unfold wrappers. rewrite !sorted_by_Permutation.
  unfold person_ops, place_ops, ref_ops, unclear_ops, choice_ops, num_ops.
  rewrite !of_kind_cons, other_ops_cons.
  destruct (Z.ltb_spec 0 (op_length o)) as [Hl|Hl].
  2:{ rewrite !andb_false_r. destruct (decide (is_wrapper o)) as [[_ ?]|_]; [lia|].
      done. }
  rewrite !andb_true_r.
  destruct (decide (op_kind o ∈ known_kinds)) as [Hk|Hk].
  - rewrite (bool_decide_true (op_kind o ∈ known_kinds)) by done.
    unfold known_kinds in Hk. rewrite !elem_of_cons, elem_of_nil in Hk.
    destruct (decide (is_wrapper o)) as [[Hs _]|Hw];
      destruct Hk as [E|[E|[E|[E|[E|[E|[E|[E|[E|[]]]]]]]]]];
      try (by destruct Hs);
      try (destruct Hw; split; [by rewrite E|done]);
      rewrite E; eval_kinds; cbn [negb app]; solve_Permutation.
  - rewrite (bool_decide_false (op_kind o ∈ known_kinds)) by done.
    unfold known_kinds in Hk. rewrite !elem_of_cons, elem_of_nil in Hk.
    rewrite !bool_decide_false
      by (rewrite !elem_of_cons, elem_of_nil; naive_solver).
    destruct (decide (is_wrapper o)) as [_|Hw].
    + cbn [negb app]. solve_Permutation.
    + destruct Hw. split; [naive_solver|done].
Qed.

(** The wrappers are the operations of positive length that are not style
    operations. *)
Lemma wrappers_are_the_wrapper_spans_aux ops :
  wrappers ops ≡ₚ filter is_wrapper ops
  ∧ StronglySorted (λ x y, wrapper_key_le x y = true) (wrappers ops).
Proof.
  split; [|apply wrappers_sorted].
  induction ops as [|o ops IH]; [done|].
  rewrite wrappers_cons, filter_cons, IH. by destruct (decide (is_wrapper o)).
Qed.

(** Every operation of positive length other than a style operation
    becomes exactly one wrapper, whatever its kind is, and nothing else
    does: the list of wrappers is a rearrangement of these operations, in
    the order of their sort keys. *)
Theorem wrappers_are_the_wrapper_spans ops :
  wrappers ops ≡ₚ filter is_wrapper ops
  ∧ StronglySorted (λ x y, wrapper_key_le x y = true) (wrappers ops).
Proof. apply wrappers_are_the_wrapper_spans_aux. Qed.

(** ** Spans that overlap without nesting *)

Lemma style_ops_wrappers ops :
  Forall is_wrapper ops → style_ops ops = [].
Proof.
  induction 1 as [|o ops [Hk _] _ IH]; [done|].
  unfold style_ops in *. rewrite of_kind_cons, IH.
  rewrite bool_decide_false; [done|].
  rewrite elem_of_cons, elem_of_nil. naive_solver.
Qed.

Lemma wrappers_two x y :
  is_wrapper x → is_wrapper y → op_offset x < op_offset y →
  wrappers [x; y] = [x; y].
Proof.
  intros Hx Hy Hlt.
  destruct (wrappers_are_the_wrapper_spans_aux [x; y]) as [Hperm Hsorted].
  rewrite !filter_cons, filter_nil, !decide_True in Hperm by done.
  symmetry in Hperm. apply Permutation_length_2_inv in Hperm as [E|E]; [done|].
  rewrite E in Hsorted. apply StronglySorted_inv in Hsorted as [_ Hs].
  apply Forall_cons in Hs as [Hs _]. apply wrapper_key_le_iff in Hs. lia.
Qed.

(** Two spans that overlap without nesting are both roots and each is
    rendered over its whole range, the second with no gap before it: the
    characters that the two spans share appear twice in the text of the
    output, which is the line up to the end of the first span followed by
    the line from the start of the second span. *)
Theorem overlapping_spans_repeat_text t x y :
  is_wrapper x → is_wrapper y → keeps_inner x → keeps_inner y →
  0 ≤ op_offset x → op_offset x < op_offset y → op_offset y < op_end x →
  op_end x < op_end y → op_end y ≤ Str.len t →
  ∃ nodes,
    build_inline_nodes_for_line t [x; y] = Some nodes
    ∧ flatten_line nodes
      = Str.slice t 0 (op_end x) +:+ Str.slice t (op_offset y) (Str.len t).
Proof.
  intros Hx Hy Hkx Hky H0 Hxy Hyx Hee Hlen.
  unfold build_inline_nodes_for_line, render_line. cbv zeta.
  rewrite (wrappers_two x y) by done.
  rewrite (style_ops_wrappers [x; y])
    by (constructor; [done|constructor; [done|constructor]]).
  assert (parent_of [x; y] 0 = None) as P0 by done.
  assert (parent_of [x; y] 1 = None) as P1.
  { unfold parent_of. cbn. unfold encloses.
    destruct (Z.leb_spec (op_end y) (op_end x)); [lia|].
    by rewrite andb_false_r. }
  destruct (containment_spec [x; y]) as [Hch Hroots].
  destruct (containment [x; y]) as [children roots]. cbn [fst snd] in *.
  assert (roots = [0%nat; 1%nat]) as ->.
  { rewrite Hroots. cbn [length seq]. rewrite !filter_cons, filter_nil, P0, P1.
    by rewrite !decide_True. }
  assert (∀ p, default [] (children !! p) = []) as Hnone.
  { intros p. rewrite Hch. cbn [length seq].
    rewrite !filter_cons, filter_nil, P0, P1. by rewrite !decide_False. }
  unfold render_roots, render_wrappers, by_offset.
  cbn [sorted_by insert_by lookup list_lookup fmap option_fmap option_map default].
  unfold id.
  destruct (Z.leb_spec (op_offset x) (op_offset y)); [|lia].
  cbn [foldl]. unfold place_wrapper.
  cbn [mbind option_bind lookup list_lookup length].
  rewrite !Hnone. cbn [render_span mbind option_bind fmap option_fmap option_map].
  eexists. split; [done|].
  unfold flatten_line. rewrite gather_unify by done.
  unfold render_tail.
  destruct (Z.ltb_spec (op_end x) (op_offset y)); [lia|].
  assert (∀ a b, gather_nodes is_literal (render_plain_segment t [] a b)
                 = Str.slice t a b) as Hseg.
  { intros a b. by apply gather_render_plain_segment. }
  assert (gather_nodes is_literal
            (if 0 <? op_offset x
             then [] ++ render_plain_segment t [] 0 (op_offset x) else [])
          = Str.slice t 0 (op_offset x)) as Hgap.
  { destruct (Z.ltb_spec 0 (op_offset x)).
    - apply Hseg.
    - replace (op_offset x) with 0 by lia. by rewrite StrFacts.slice_nil. }
  assert (gather_nodes is_literal
            (if op_end y <? Str.len t
             then render_plain_segment t [] (op_end y) (Str.len t) else [])
          = Str.slice t (op_end y) (Str.len t)) as Htail.
  { destruct (Z.ltb_spec (op_end y) (Str.len t)).
    - apply Hseg.
    - replace (op_end y) with (Str.len t) by lia.
      rewrite StrFacts.slice_nil; [done|apply len_nonneg]. }
  assert (∀ out, gather_nodes is_literal
            (if op_end y <? Str.len t
             then out ++ render_plain_segment t [] (op_end y) (Str.len t)
             else out)
          = gather_nodes is_literal out
            +:+ Str.slice t (op_end y) (Str.len t)) as Htail'.
  { intros out. destruct (op_end y <? Str.len t).
    - by rewrite gather_nodes_app, Htail.
    - rewrite <- Htail. unfold gather_nodes at 3. cbn [map Str.concat].
      by rewrite StrFacts.app_nil_r. }
  rewrite Htail', !gather_nodes_app, !gather_build_wrapper_element by done.
  rewrite Hgap, !Hseg.
  rewrite (StrFacts.slice_app t 0 (op_offset x) (op_end x)) by lia.
  rewrite StrFacts.app_assoc. f_equal.
  apply StrFacts.slice_app; lia.
Qed.

Lemma overlapping_spans_repeat_text_witness :
  ∃ nodes,
    build_inline_nodes_for_line "abcdef" [span "num" 0 4 []; span "person" 2 4 []]
    = Some nodes
    ∧ flatten_line nodes
      = Str.slice "abcdef" 0 (op_end (span "num" 0 4 []))
        +:+ Str.slice "abcdef" (op_offset (span "person" 2 4 []))
              (Str.len "abcdef").
Proof.
  apply (overlapping_spans_repeat_text "abcdef"
           (span "num" 0 4 []) (span "person" 2 4 []));
    try (split; [discriminate|reflexivity]);
    try (intros ?; discriminate);
    try (vm_compute; congruence);
    reflexivity.
Defined.

(** ** Attributes of the wrapper elements *)

(** The element of the value returned by [build_wrapper_element]. *)
Definition built_element (b : Built) : Element :=
  match b with
  | BElem e => e
  | BTuple _ e _ => e
  end.

Lemma built_element_wrap lead trail el :
  built_element (maybe_wrap_with_edge_whitespace lead trail el) = el.
Proof.
  unfold maybe_wrap_with_edge_whitespace. by destruct (_ || _).
Qed.

Lemma populated_attrib target nodes :
  subelems target = [] →
  tag (populate_target_with_nodes target nodes).1.2 = tag target
  ∧ attrib (populate_target_with_nodes target nodes).1.2 = attrib target.
Proof.
  intros Hs. split; [apply populate_tag|].
  by destruct (populate_subelems target nodes Hs) as (_ & ? & _).
Qed.

Lemma attrib_data_attrs el (attrs : list (string * string)) :
  attrib (foldl (λ seg kv, set_attr seg ("data-" +:+ kv.1) kv.2) el attrs)
  = foldl (λ d kv, dict_set ("data-" +:+ kv.1) kv.2 d) (attrib el) attrs.
Proof.
  revert el. induction attrs as [|kv attrs IH]; intros el; [done|].
  cbn [foldl]. by rewrite IH.
Qed.

Lemma dict_get_set k v d : dict_get k (dict_set k v d) = Some v.
Proof.
  induction d as [|[k1 v1] d IH]; cbn.
  - by rewrite String.eqb_refl.
  - destruct (String.eqb_spec k1 k) as [->|Hne]; cbn.
    + by rewrite String.eqb_refl.
    + by destruct (String.eqb_spec k1 k).
Qed.

Lemma dict_get_data_other key d (attrs : list (string * string)) :
  (∀ kv, kv ∈ attrs → key ≠ "data-" +:+ kv.1) →
  dict_get key (foldl (λ d kv, dict_set ("data-" +:+ kv.1) kv.2 d) d attrs)
  = dict_get key d.
Proof.
  revert d. induction attrs as [|kv attrs IH]; intros d Hk; [done|].
  cbn [foldl]. rewrite IH by (intros kv' ?; apply Hk; by right).
  apply dict_get_set_other, Hk. left.
Qed.

Lemma dict_get_data k v d (attrs : list (string * string)) :
  NoDup attrs.*1 → (k, v) ∈ attrs →
  dict_get ("data-" +:+ k)
    (foldl (λ d kv, dict_set ("data-" +:+ kv.1) kv.2 d) d attrs)
  = Some v.
Proof.
  revert d. induction attrs as [|[k1 v1] attrs IH]; intros d Hnd Hin.
  - by apply elem_of_nil in Hin.
  - cbn [fmap list_fmap fst] in Hnd. apply NoDup_cons in Hnd as [Hk1 Hnd].
    cbn [foldl fst snd]. apply elem_of_cons in Hin as [[= -> ->]|Hin].
    + rewrite dict_get_data_other; [apply dict_get_set|].
      intros [k' v'] Hin [= E]. apply Hk1. cbn [fst] in E. subst k'.
      apply list_elem_of_fmap. by exists (k1, v').
    + by apply IH.
Qed.

(** An operation of a kind that the renderer does not know is rendered as
    a [seg] element whose [type] is the kind, and every attribute of the
    operation is kept on it under its name with the prefix [data-]. *)
Theorem unknown_kind_becomes_seg t w inner :
  op_kind w ∉ ["abbrev"; "sic"; "regularised"; "num"; "person"; "place";
               "ref"; "unclear"] →
  NoDup (op_attrs w).*1 →
  let el := built_element (build_wrapper_element t w inner) in
  tag el = qn "seg"
  ∧ dict_get "type" (attrib el) = Some (op_kind w)
  ∧ ∀ k v, (k, v) ∈ op_attrs w → dict_get ("data-" +:+ k) (attrib el) = Some v.
Proof.
  intros Hk Hnd. cbv zeta. unfold build_wrapper_element. cbv zeta.
  rewrite !not_elem_of_cons in Hk.
  destruct Hk as (K1 & K2 & K3 & K4 & K5 & K6 & K7 & K8 & _).
  rewrite bool_decide_false
    by (rewrite !elem_of_cons, elem_of_nil; naive_solver).
  rewrite !(proj2 (String.eqb_neq _ _)) by done.
  set (seg := foldl _ _ (op_attrs w)).
  assert (tag seg = qn "seg" ∧ subelems seg = []) as [Htag Hsub].
  { unfold seg.
    by destruct (tag_data_attrs
                   (set_attr (new_element (qn "seg")) "type" (op_kind w))
                   (op_attrs w)) as (-> & -> & _). }
  destruct (populated_attrib seg inner Hsub) as [Ht Ha].
  destruct (populate_target_with_nodes seg inner) as [[lead el] trail].
  cbn [fst snd] in Ht, Ha. rewrite built_element_wrap, Ht, Ha.
  split; [done|]. unfold seg. rewrite attrib_data_attrs. split.
  - by rewrite dict_get_data_other.
  - intros k v Hin. by apply dict_get_data.
Qed.

Lemma unknown_kind_becomes_seg_witness :
  let w := span "gap" 2 3 [("reason", "illegible"); ("unit", "chars")] in
  let el := built_element (build_wrapper_element "ab cde fg" w [NStr "cde"]) in
  tag el = qn "seg"
  ∧ dict_get "type" (attrib el) = Some (op_kind w)
  ∧ ∀ k v, (k, v) ∈ op_attrs w → dict_get ("data-" +:+ k) (attrib el) = Some v.
Proof.
  apply (unknown_kind_becomes_seg "ab cde fg"
           (span "gap" 2 3 [("reason", "illegible"); ("unit", "chars")])
           [NStr "cde"]).
  - by_compute.
  - by_compute.
Defined.

Lemma attrs_of_dict (d : list (string * Parser.pyval)) attrs k :
  mapM (λ kv : string * Parser.pyval,
          match kv.2 with
          | Parser.VStr s => Some (kv.1, s)
          | Parser.VInt _ => None
          end)
       (filter (λ kv, kv.1 ∉ ["kind"; "offset"; "length"; "end"]) d)
  = Some attrs →
  k ∉ ["kind"; "offset"; "length"; "end"] →
  dict_get k attrs
  = match Parser.dget k d with
    | Some (Parser.VStr s) => Some s
    | _ => None
    end.
Proof.
  intros Hm Hk. apply mapM_Some in Hm. revert attrs Hm.
  induction d as [|[k1 v1] d IH]; intros attrs Hm.
  - rewrite filter_nil in Hm. by apply Forall2_nil_inv_l in Hm as ->.
  - rewrite filter_cons in Hm. cbn [Parser.dget].
    destruct (decide _) as [Hk1|Hk1]; cbn [fst] in Hk1.
    + apply Forall2_cons_inv_l in Hm as ([k2 s] & attrs' & Hf & Hm & ->).
      cbn [fst snd] in Hf. destruct v1 as [z|s']; [done|]. simplify_eq.
      cbn [dict_get]. destruct (String.eqb k2 k); [done|]. by apply IH.
    + destruct (String.eqb_spec k1 k) as [->|]; [|by apply IH].
      by destruct Hk1.
Qed.

(** The [continued] flag from the custom attribute to the element: the
    [persName] element that the renderer builds for a parsed person token
    carries [continued="true"] exactly when the token has a [continued]
    attribute with one of the spellings of true, and no [continued]
    attribute otherwise (never [continued="false"]). *)
Theorem continued_reaches_persName t kind body w inner :
  op_of_dict (Parser.parse_token kind (Parser.kv_of body)) = Some w →
  op_kind w = "person" →
  dict_get "continued"
    (attrib (built_element (build_wrapper_element t w inner)))
  = match Parser.dget "continued" (Parser.kv_of body) with
    | Some v => if Parser.parse_bool (Parser.VStr v) then Some "true" else None
    | None => None
    end.
Proof.
  intros Hw Hkind.
  assert (op_get w "continued"
          = match Parser.dget "continued" (Parser.kv_of body) with
            | Some v =>
                Some (if Parser.parse_bool (Parser.VStr v) then "true" else "false")
            | None => None
            end) as Hget.
  { unfold op_of_dict in Hw.
    destruct (Parser.dget "kind" _) as [[?|k]|]; try done.
    destruct (Parser.dget "offset" _) as [[x|?]|]; try done.
    destruct (Parser.dget "length" _) as [[l|?]|]; try done.
    destruct (Parser.dget "end" _) as [[e|?]|]; try done.
    apply fmap_Some in Hw as (attrs & Hm & ->). unfold op_get. cbn [op_attrs].
    rewrite (attrs_of_dict _ _ "continued" Hm) by by_compute.
    rewrite parse_token_unfold, dget_normalize_flag, String.eqb_refl. cbv zeta.
    assert (Parser.dget "continued"
              (if String.eqb kind "textStyle"
               then foldl (λ op k, Parser.normalize_flag k op)
                      (foldl copy_pair
                         [("kind", Parser.VStr kind);
                          ("offset", Parser.VInt (Parser.parse_int (default "0" (Parser.dget "offset" (Parser.kv_of body))) 0));
                          ("length", Parser.VInt (Parser.parse_int (default "0" (Parser.dget "length" (Parser.kv_of body))) 0));
                          ("end", Parser.VInt (Parser.parse_int (default "0" (Parser.dget "offset" (Parser.kv_of body))) 0
                                               + Parser.parse_int (default "0" (Parser.dget "length" (Parser.kv_of body))) 0))]
                         (Parser.kv_of body))
                      style_flags
               else foldl copy_pair
                      [("kind", Parser.VStr kind);
                       ("offset", Parser.VInt (Parser.parse_int (default "0" (Parser.dget "offset" (Parser.kv_of body))) 0));
                       ("length", Parser.VInt (Parser.parse_int (default "0" (Parser.dget "length" (Parser.kv_of body))) 0));
                       ("end", Parser.VInt (Parser.parse_int (default "0" (Parser.dget "offset" (Parser.kv_of body))) 0
                                            + Parser.parse_int (default "0" (Parser.dget "length" (Parser.kv_of body))) 0))]
                      (Parser.kv_of body))
            = Parser.VStr <$> Parser.dget "continued" (Parser.kv_of body)) as ->.
    { destruct (String.eqb kind "textStyle");
        rewrite ?dget_normalize_flags by (unfold style_flags; by_compute);
        (destruct (Parser.dget "continued" (Parser.kv_of body)) as [v|] eqn:E;
         [apply dget_copy; [apply kv_of_NoDup|done|by_compute]|
          rewrite dget_copy_other; [done|];
          intros Hin; apply dget_is_Some in Hin; rewrite E in Hin;
          by destruct Hin]). }
    by destruct (Parser.dget "continued" (Parser.kv_of body)). }
  unfold build_wrapper_element. cbv zeta. rewrite Hkind.
  change (bool_decide ("person" ∈ ["abbrev"; "sic"; "regularised"])) with false.
  change (String.eqb "person" "num") with false.
  change (String.eqb "person" "person") with true. cbv iota.
  destruct (populated_attrib (persName_for w) inner (subelems_persName_for w))
    as [_ Ha].
  destruct (populate_target_with_nodes (persName_for w) inner) as [[lead el] trail].
  cbn [fst snd] in Ha. rewrite built_element_wrap, Ha.
  unfold persName_for, copy_attr. rewrite Hget.
  destruct (Parser.dget "continued" (Parser.kv_of body)) as [v|].
  - destruct (Parser.parse_bool (Parser.VStr v)).
    + rewrite bool_decide_true by done. cbn [attrib set_attr]. apply dict_get_set.
    + rewrite bool_decide_false by done.
      repeat (destruct (op_get w _)); done.
  - rewrite bool_decide_false by done. repeat (destruct (op_get w _)); done.
Qed.

Lemma continued_reaches_persName_witness :
  dict_get "continued"
    (attrib (built_element
               (build_wrapper_element "Marcus"
                  (span "person" 0 6 [("type", "human"); ("continued", "true")])
                  [NStr "Marcus"])))
  = match Parser.dget "continued"
            (Parser.kv_of "offset:0; length:6; type:human; continued: Yes ;") with
    | Some v => if Parser.parse_bool (Parser.VStr v) then Some "true" else None
    | None => None
    end.
Proof.
  apply (continued_reaches_persName "Marcus" "person"
           "offset:0; length:6; type:human; continued: Yes ;").
  - reflexivity.
  - reflexivity.
Defined.

(** ** Reading tokens and attributes *)

Lemma span_while_app p a b :
  Str.all p a = true →
  (∀ c b', b = String c b' → p c = false) →
  Parser.span_while p (a +:+ b) = (a, b).
Proof.
  induction a as [|c a IH]; cbn [Str.all String.append Parser.span_while].
  - intros _ Hb. destruct b as [|c b']; [done|].
    cbn [Parser.span_while]. by rewrite (Hb c b' eq_refl).
  - intros [-> Ha]%andb_true_iff Hb. by rewrite IH.
Qed.

Lemma span_while_eq p s :
  (Parser.span_while p s).1 +:+ (Parser.span_while p s).2 = s.
Proof.
  induction s as [|c s IH]; [done|]. cbn [Parser.span_while].
  destruct (p c); [|done].
  destruct (Parser.span_while p s) as [a b]. cbn [fst snd] in *.
  cbn [String.append]. by rewrite IH.
Qed.

Lemma span_while_length p s :
  (String.length (Parser.span_while p s).2 ≤ String.length s)%nat.
Proof.
  rewrite <- (span_while_eq p s) at 2. rewrite StrFacts.length_app. lia.
Qed.

Lemma match_token_shorter s x r :
  Parser.match_token s = Some (x, r) →
  (String.length r < String.length s)%nat.
Proof.
  unfold Parser.match_token.
  pose proof (span_while_length Parser.isword s) as H1.
  destruct (Parser.span_while Parser.isword s) as [kind r1]. cbn [snd] in H1.
  destruct (Str.is_empty kind); [done|].
  pose proof (span_while_length Str.isspace r1) as H2.
  destruct (Parser.span_while Str.isspace r1).2 as [|c r3]; [done|].
  destruct (Ascii.eqb_spec c "{") as [->|]; [|by destruct c as [[] [] [] [] [] [] [] []]].
  pose proof (span_while_length (λ c, negb (Ascii.eqb c "}")) r3) as H3.
  destruct (Parser.span_while _ r3) as [body r4]. cbn [snd] in H3.
  destruct r4 as [|c r5]; [by destruct "{"%char as [[] [] [] [] [] [] [] []]|].
  cbn [String.length] in *.
  destruct (Ascii.eqb_spec c "}") as [->|];
    [|by destruct c as [[] [] [] [] [] [] [] []]].
  intros [= _ <-]. lia.
Qed.

Lemma match_pair_shorter s x r :
  Parser.match_pair s = Some (x, r) →
  (String.length r < String.length s)%nat.
Proof.
  unfold Parser.match_pair.
  pose proof (span_while_length Parser.isword s) as H1.
  destruct (Parser.span_while Parser.isword s) as [key r1]. cbn [snd] in H1.
  destruct (Str.is_empty key); [done|].
  pose proof (span_while_length Str.isspace r1) as H2.
  destruct (Parser.span_while Str.isspace r1).2 as [|c r3]; [done|].
  destruct (Ascii.eqb_spec c ":") as [->|]; [|by destruct c as [[] [] [] [] [] [] [] []]].
  pose proof (span_while_length (λ c, negb (Ascii.eqb c ";")) r3) as H3.
  destruct (Parser.span_while _ r3) as [v r4]. cbn [snd] in H3.
  destruct r4 as [|c r5]; [by destruct ":"%char as [[] [] [] [] [] [] [] []]|].
  cbn [String.length] in *.
  destruct (Ascii.eqb_spec c ";") as [->|];
    [|by destruct c as [[] [] [] [] [] [] [] []]].
  destruct (Str.is_empty v); [done|]. intros [= _ <-]. lia.
Qed.

(** Beyond the length of the string the fuel of [finditer] does not
    matter. *)
Lemma finditer_fuel {A} (m : string → option (A * string)) :
  (∀ s x r, m s = Some (x, r) → (String.length r < String.length s)%nat) →
  ∀ f1 f2 s,
    (String.length s < f1)%nat → (String.length s < f2)%nat →
    Parser.finditer m f1 s = Parser.finditer m f2 s.
Proof.
  intros Hm. induction f1 as [|f1 IH]; intros f2 s H1 H2; [lia|].
  destruct f2 as [|f2]; [lia|]. cbn [Parser.finditer].
  destruct (m s) as [[x r]|] eqn:E.
  - apply Hm in E. f_equal. apply IH; lia.
  - destruct s as [|c s]; [done|]. cbn [String.length] in *. apply IH; lia.
Qed.

Lemma isspace_not_word c : Str.isspace c = true → Parser.isword c = false.
Proof. by destruct c as [[] [] [] [] [] [] [] []]. Qed.

Lemma space_then p sp c rest :
  Str.all Str.isspace sp = true → p c = false →
  (∀ x, Str.isspace x = true → p x = false) →
  ∀ c' b', sp +:+ String c rest = String c' b' → p c' = false.
Proof.
  intros Hsp Hc Hp c' b'. destruct sp as [|x sp]; cbn [String.append].
  - by intros [= <- _].
  - cbn in Hsp. apply andb_true_iff in Hsp as [Hx _].
    intros [= <- _]. by apply Hp.
Qed.

Lemma match_token_app kind sp body rest :
  kind ≠ "" → Str.all Parser.isword kind = true →
  Str.all Str.isspace sp = true →
  Str.all (λ c, negb (Ascii.eqb c "}")) body = true →
  Parser.match_token (kind +:+ sp +:+ "{" +:+ body +:+ "}" +:+ rest)
  = Some (kind, body, rest).
Proof.
  intros Hne Hkind Hsp Hbody. unfold Parser.match_token.
  change ("{" +:+ body +:+ "}" +:+ rest)
    with (String "{" (body +:+ String "}" rest)).
  rewrite (span_while_app Parser.isword kind); [|done|].
  2:{ apply (space_then Parser.isword sp "{"); [done|done|].
      apply isspace_not_word. }
  destruct kind as [|k kind]; [done|]. cbn [Str.is_empty].
  rewrite (span_while_app Str.isspace sp); [|done|].
  2:{ by intros ?? [= <- _]. }
  cbn [snd].
  rewrite (span_while_app _ body); [done|done|].
  by intros ?? [= <- _].
Qed.

Lemma match_pair_app key sp value rest :
  key ≠ "" → Str.all Parser.isword key = true →
  Str.all Str.isspace sp = true →
  value ≠ "" → Str.all (λ c, negb (Ascii.eqb c ";")) value = true →
  Parser.match_pair (key +:+ sp +:+ ":" +:+ value +:+ ";" +:+ rest)
  = Some (key, Str.strip value, rest).
Proof.
  intros Hne Hkey Hsp Hv Hvalue. unfold Parser.match_pair.
  change (":" +:+ value +:+ ";" +:+ rest)
    with (String ":" (value +:+ String ";" rest)).
  rewrite (span_while_app Parser.isword key); [|done|].
  2:{ apply (space_then Parser.isword sp ":"); [done|done|].
      apply isspace_not_word. }
  destruct key as [|k key]; [done|]. cbn [Str.is_empty].
  rewrite (span_while_app Str.isspace sp); [|done|].
  2:{ by intros ?? [= <- _]. }
  cbn [snd].
  rewrite (span_while_app _ value); [|done|].
  2:{ by intros ?? [= <- _]. }
  by destruct value.
Qed.

Lemma finditer_cons {A} (m : string → option (A * string)) n s x r :
  m s = Some (x, r) →
  Parser.finditer m (S n) s = x :: Parser.finditer m n r.
Proof. intros H. cbn [Parser.finditer]. by rewrite H. Qed.

(** A token at the start of the custom attribute (a word, optional
    whitespace, and a body in braces that holds no closing brace) is read
    as the operation of its kind and body, and what follows it is parsed
    on its own: the operations of the whole are this operation followed by
    the operations of the rest. *)
Theorem parse_custom_ops_reads_token kind sp body rest :
  kind ≠ "" → Str.all Parser.isword kind = true →
  Str.all Str.isspace sp = true →
  Str.all (λ c, negb (Ascii.eqb c "}")) body = true →
  Parser.parse_custom_ops (kind +:+ sp +:+ "{" +:+ body +:+ "}" +:+ rest)
  = Parser.parse_token kind (Parser.kv_of body) :: Parser.parse_custom_ops rest.
Proof.
  intros Hne Hkind Hsp Hbody. unfold Parser.parse_custom_ops, Parser.tokens_of.
  rewrite (finditer_cons _ _ _ (kind, body) rest)
    by (by rewrite match_token_app).
  cbn [fst snd map]. f_equal. f_equal.
  apply finditer_fuel.
  - intros s x r H. destruct (Parser.match_token s) as [[x' r']|] eqn:E; [|done].
    cbn in H. simplify_eq. by apply match_token_shorter in E.
  - rewrite !StrFacts.length_app. cbn [String.length]. lia.
  - lia.
Qed.

Lemma parse_custom_ops_reads_token_witness :
  Parser.parse_custom_ops
    ("readingOrder" +:+ " " +:+ "{" +:+ "index:3;" +:+ "}"
     +:+ " abbrev {offset:0; length:2; expansion:Doctor;}")
  = Parser.parse_token "readingOrder" (Parser.kv_of "index:3;")
    :: Parser.parse_custom_ops " abbrev {offset:0; length:2; expansion:Doctor;}".
Proof.
  apply (parse_custom_ops_reads_token "readingOrder" " " "index:3;"
           " abbrev {offset:0; length:2; expansion:Doctor;}").
  - discriminate.
  - reflexivity.
  - reflexivity.
  - reflexivity.
Defined.

(** The text of a list of attributes as a token body holds them: every
    pair is a key, optional whitespace, a colon, a value and a
    semicolon. *)
Definition body_of (attrs : list (string * string * string)) : string :=
  Str.concat (map (λ a, a.1.1 +:+ a.1.2 +:+ ":" +:+ a.2 +:+ ";") attrs).

(** The attributes of a token body written as pairs [key:value;] (the key
    a word, the value any non-empty text without semicolon) are read back
    in order, each value without the whitespace around it; a key written
    twice keeps its first place and its last value. *)
Theorem kv_of_reads_pairs (attrs : list (string * string * string)) :
  Forall (λ a, a.1.1 ≠ "" ∧ Str.all Parser.isword a.1.1 = true
               ∧ Str.all Str.isspace a.1.2 = true
               ∧ a.2 ≠ "" ∧ Str.all (λ c, negb (Ascii.eqb c ";")) a.2 = true)
         attrs →
  Parser.kv_of (body_of attrs)
  = foldl (λ kv a, Parser.dset a.1.1 (Str.strip a.2) kv) [] attrs.
Proof.
  intros Hattrs. unfold Parser.kv_of.
  assert (Parser.pairs_of (body_of attrs)
          = map (λ a, (a.1.1, Str.strip a.2)) attrs) as ->.
  { unfold Parser.pairs_of.
    induction Hattrs as [|[[key sp] value] attrs (H1 & H2 & H3 & H4 & H5) _ IH];
      [done|].
    cbn [fst snd] in *. unfold body_of. cbn [map Str.concat fst snd].
    fold (body_of attrs). rewrite !StrFacts.app_assoc.
    rewrite (finditer_cons _ _ _ (key, Str.strip value) (body_of attrs))
      by (by rewrite match_pair_app).
    f_equal. rewrite <- IH. apply finditer_fuel.
    - intros s x r H.
      destruct (Parser.match_pair s) as [[x' r']|] eqn:E; [|done].
      cbn in H. simplify_eq. by apply match_pair_shorter in E.
    - rewrite !StrFacts.length_app. cbn [String.length]. lia.
    - lia. }
  generalize (@nil (string * string)).
  induction attrs as [|a attrs IH]; intros d; [done|].
  cbn [map foldl fst snd]. apply IH. by apply Forall_inv_tail in Hattrs.
Qed.

Lemma kv_of_reads_pairs_witness :
  Parser.kv_of
    (body_of [("offset", "", "9"); ("length", " ", " 2"); ("type", "", "a");
              ("type", "", " b c ")])
  = foldl (λ kv a, Parser.dset a.1.1 (Str.strip a.2) kv) []
      [("offset", "", "9"); ("length", " ", " 2"); ("type", "", "a");
       ("type", "", " b c ")].
Proof.
  apply (kv_of_reads_pairs
           [("offset", "", "9"); ("length", " ", " 2"); ("type", "", "a");
            ("type", "", " b c ")]).
  repeat constructor; discriminate.
Defined.

(** ** Decimal numerals *)

Lemma parse_digits_digit c acc b s :
  Parser.isdigit c = true →
  Parser.parse_digits acc b (String c s)
  = Parser.parse_digits (10 * acc + Z.of_N (Str.code c - 48)) true s.
Proof. cbn [Parser.parse_digits]. by intros ->. Qed.

Ltac digit_value :=
  match goal with
  | |- context [Z.of_N ?n] =>
      let v := eval vm_compute in (Z.of_N n) in change (Z.of_N n) with v
  end.

Lemma parse_digits_acc (l : Decimal.uint) (acc : positive) :
  Parser.parse_digits (Z.pos acc) true (NilEmpty.string_of_uint l)
  = Some (Z.pos (Pos.of_uint_acc l acc)).
Proof.
  revert acc. induction l as [|l IH|l IH|l IH|l IH|l IH|l IH|l IH|l IH|l IH|l IH];
    intros acc; [done|..];
    cbn [NilEmpty.string_of_uint Pos.of_uint_acc];
    rewrite parse_digits_digit by done; rewrite <- IH; f_equal;
    digit_value; lia.
Qed.

Lemma parse_digits_uint (l : Decimal.uint) b :
  l ≠ Decimal.Nil ∨ b = true →
  Parser.parse_digits 0 b (NilEmpty.string_of_uint l)
  = Some (Z.of_N (Pos.of_uint l)).
Proof.
  revert b. induction l as [|l IH|l IH|l IH|l IH|l IH|l IH|l IH|l IH|l IH|l IH];
    intros b Hb;
    [by destruct Hb as [?| ->]
    |cbn [NilEmpty.string_of_uint Pos.of_uint];
     rewrite parse_digits_digit by done; apply (IH true); by right
    |cbn [NilEmpty.string_of_uint Pos.of_uint];
     rewrite parse_digits_digit by done; digit_value;
     apply (parse_digits_acc l)..].
Qed.

Lemma count_digits_numeral (l : Decimal.uint) :
  Parser.count_digits (NilEmpty.string_of_uint l)
  = Z.of_nat (Decimal.nb_digits l).
Proof.
  induction l; cbn [NilEmpty.string_of_uint Parser.count_digits Decimal.nb_digits];
    [done|..];
    match goal with
    | |- context [Parser.isdigit ?c] => change (Parser.isdigit c) with true
    end; lia.
Qed.

Lemma numeral_no_space (l : Decimal.uint) :
  Str.all (λ c, negb (Parser.int_space c)) (NilEmpty.string_of_uint l) = true.
Proof. induction l; cbn; done. Qed.

Lemma rskip_no_space p s :
  Str.all (λ c, negb (p c)) s = true → Parser.rskip p s = s.
Proof.
  induction s as [|c s IH]; [done|]. cbn [Str.all Parser.rskip].
  intros [Hc Hs]%andb_true_iff. rewrite (IH Hs).
  apply negb_true_iff in Hc. rewrite Hc. by rewrite andb_false_r.
Qed.

Lemma skip_numeral (l : Decimal.uint) :
  l ≠ Decimal.Nil →
  Parser.rskip Parser.int_space
    (Parser.lskip Parser.int_space (NilEmpty.string_of_uint l))
  = NilEmpty.string_of_uint l.
Proof.
  intros Hl.
  assert (Parser.lskip Parser.int_space (NilEmpty.string_of_uint l)
          = NilEmpty.string_of_uint l) as ->.
  { by destruct l. }
  apply rskip_no_space, numeral_no_space.
Qed.

Lemma of_uint_acc_lower (l : Decimal.uint) (acc : positive) :
  Z.pos acc * 10 ^ Z.of_nat (Decimal.nb_digits l)
  ≤ Z.pos (Pos.of_uint_acc l acc).
Proof.
  revert acc. induction l as [|l IH|l IH|l IH|l IH|l IH|l IH|l IH|l IH|l IH|l IH];
    intros acc; cbn [Pos.of_uint_acc Decimal.nb_digits];
    [rewrite Z.pow_0_r; lia|..];
    rewrite Nat2Z.inj_succ, Z.pow_succ_r by lia;
    (etrans; [|apply IH]);
    pose proof (Z.pow_pos_nonneg 10 (Z.of_nat (Decimal.nb_digits l)));
    nia.
Qed.

(** A positive number is at least the power of ten of the length of its
    numeral less one: the numeral has no leading zero. *)
Lemma to_uint_lower p :
  10 ^ (Z.of_nat (Decimal.nb_digits (Pos.to_uint p)) - 1) ≤ Z.pos p.
Proof.
  pose proof (DecimalPos.Unsigned.to_uint_nonzero p) as Hnz.
  pose proof (DecimalPos.Unsigned.of_to p) as Hof.
  pose proof (DecimalPos.Unsigned.to_of (Pos.to_uint p)) as Hnorm.
  rewrite Hof in Hnorm. cbn [N.to_uint] in Hnorm.
  destruct (Pos.to_uint p) as [|l|l|l|l|l|l|l|l|l|l] eqn:E.
  1:{ pose proof (DecimalPos.Unsigned.to_uint_nonnil p). congruence. }
  1:{ exfalso. unfold Decimal.unorm in Hnorm. cbn [Decimal.nzhead] in Hnorm.
      pose proof (DecimalFacts.nb_digits_nzhead l) as Hle.
      destruct (Decimal.nzhead l) eqn:El; simplify_eq.
      cbn [Decimal.nb_digits] in Hle. lia. }
  all: cbn [Pos.of_uint] in Hof; injection Hof as <-;
    cbn [Decimal.nb_digits]; rewrite Nat2Z.inj_succ;
    replace (Z.succ (Z.of_nat (Decimal.nb_digits l)) - 1)
      with (Z.of_nat (Decimal.nb_digits l)) by lia;
    (etrans; [|apply of_uint_acc_lower]);
    pose proof (Z.pow_pos_nonneg 10 (Z.of_nat (Decimal.nb_digits l)));
    nia.
Qed.

Lemma py_int_numeral p :
  Z.pos p < 10 ^ Parser.max_str_digits →
  Parser.py_int (NilEmpty.string_of_uint (Pos.to_uint p)) = Some (Z.pos p)
  ∧ Parser.py_int (String "-" (NilEmpty.string_of_uint (Pos.to_uint p)))
    = Some (Z.neg p).
Proof.
  intros Hp.
  pose proof (DecimalPos.Unsigned.to_uint_nonnil p) as Hnil.
  pose proof (DecimalPos.Unsigned.of_to p) as Hof.
  assert (Parser.count_digits (NilEmpty.string_of_uint (Pos.to_uint p))
          <=? Parser.max_str_digits = true) as Hcount.
  { apply Z.leb_le. rewrite count_digits_numeral.
    pose proof (to_uint_lower p) as Hlow.
    assert (Z.of_nat (Decimal.nb_digits (Pos.to_uint p)) - 1
            < Parser.max_str_digits); [|lia].
    apply (Z.pow_lt_mono_r_iff 10); [lia|by vm_compute|].
    eapply Z.le_lt_trans; [exact Hlow|exact Hp]. }
  assert (Parser.parse_digits 0 false (NilEmpty.string_of_uint (Pos.to_uint p))
          = Some (Z.pos p)) as Hd.
  { rewrite parse_digits_uint by (by left). by rewrite Hof. }
  split.
  - unfold Parser.py_int. rewrite skip_numeral by done. cbv zeta.
    destruct (Pos.to_uint p) eqn:E; [done|..];
      cbn [NilEmpty.string_of_uint] in *; by rewrite Hcount, Hd.
  - unfold Parser.py_int.
    assert (Parser.rskip Parser.int_space
              (Parser.lskip Parser.int_space
                 (String "-" (NilEmpty.string_of_uint (Pos.to_uint p))))
            = String "-" (NilEmpty.string_of_uint (Pos.to_uint p))) as ->.
    { change (Parser.lskip Parser.int_space (String "-" ?s)) with (String "-" s).
      apply rskip_no_space. cbn [Str.all]. by rewrite numeral_no_space. }
    by rewrite Hcount, Hd.
Qed.

(** The decimal numeral of an integer is read back as this integer:
    [parse_int(str(z))] is [z], whatever the default is, for every integer
    [z] whose numeral has at most [sys.int_max_str_digits] digits (beyond
    this limit [str] and [int] raise [ValueError]). *)
Theorem parse_int_reads_numerals z default :
  Z.abs z < 10 ^ Parser.max_str_digits →
  Parser.parse_int (Parser.to_str (Parser.VInt z)) default = z.
Proof.
  intros Hz.
  unfold Parser.parse_int, Parser.to_str, NilZero.string_of_int, Z.to_int.
  destruct z as [|p|p].
  - done.
  - pose proof (DecimalPos.Unsigned.to_uint_nonnil p) as Hnil.
    assert (NilZero.string_of_uint (Pos.to_uint p)
            = NilEmpty.string_of_uint (Pos.to_uint p)) as ->.
    { by destruct (Pos.to_uint p). }
    by rewrite (proj1 (py_int_numeral p Hz)).
  - pose proof (DecimalPos.Unsigned.to_uint_nonnil p) as Hnil.
    assert (NilZero.string_of_uint (Pos.to_uint p)
            = NilEmpty.string_of_uint (Pos.to_uint p)) as ->.
    { by destruct (Pos.to_uint p). }
    by rewrite (proj2 (py_int_numeral p Hz)).
Qed.

Lemma parse_int_reads_numerals_witness :
  Parser.parse_int (Parser.to_str (Parser.VInt (-2024))) 7 = -2024.
Proof.
  apply (parse_int_reads_numerals (-2024) 7). vm_compute. reflexivity.
Defined.

(** * Lines of any shape *)

(** ** The styled elements of a text *)

(** The [hi] elements that [build_styled_nodes] makes of a text: one for
    every piece of [slice_text_nodes] that carries a label and is not
    reduced to punctuation, in the order of the pieces. *)
Definition styled_piece (seg : Z * Z * string * gset string) : option Element :=
  if decide (seg.2 = ∅) then None
  else if punctuation_only seg.1.2 then None
  else Some (hi_element seg.2 seg.1.2).

Definition styled_pieces (t : string) (style_ops : list op) : list Element :=
  omap styled_piece (slice_text_nodes t (style_ranges style_ops)).

Lemma subelems_styled_segments parent (segs : list (Z * Z * string * gset string)) :
  map untail (subelems (foldl (λ p seg, styled_segment p seg.1.2 seg.2)
                          parent segs))
  = map untail (subelems parent) ++ omap styled_piece segs.
Proof.
  revert parent. induction segs as [|seg segs IH]; intros parent.
  - by rewrite List.app_nil_r.
  - cbn [foldl omap list_omap]. rewrite IH. unfold styled_segment.
    assert (styled_piece seg =
            if decide (seg.2 = ∅) then None
            else if punctuation_only seg.1.2 then None
            else Some (hi_element seg.2 seg.1.2)) as -> by done.
    destruct (decide (seg.2 = ∅)); [by rewrite subelems_append_text|].
    destruct (punctuation_only seg.1.2); [by rewrite subelems_append_text|].
    cbn [append_child set_subelems subelems]. rewrite map_app.
    by rewrite <- List.app_assoc.
Qed.

(** The styled elements [build_styled_nodes] appends to its parent. *)
Lemma subelems_build_styled_nodes parent t style_ops :
  map untail (subelems (build_styled_nodes parent t style_ops))
  = map untail (subelems parent) ++ styled_pieces t style_ops.
Proof.
  unfold build_styled_nodes, styled_pieces.
  destruct (style_ranges style_ops) as [|r rs] eqn:E.
  - rewrite subelems_append_text.
    assert (omap styled_piece (slice_text_nodes t []) = []) as ->;
      [|by rewrite List.app_nil_r].
    induction (slice_text_nodes t []) as [|seg segs IH] eqn:Es; [done|].
    assert (∀ seg, seg ∈ slice_text_nodes t [] → styled_piece seg = None) as Hn.
    { intros seg' [_ Hl]%elem_of_slice_text_nodes. unfold styled_piece.
      rewrite Hl. by rewrite decide_True. }
    rewrite Es in Hn. clear Es IH.
    induction (seg :: segs) as [|x l IH']; [done|]. cbn.
    rewrite (Hn x) by left. apply IH'. intros y Hy. apply Hn. by right.
  - apply subelems_styled_segments.
Qed.

Lemma elem_of_styled_pieces t style_ops e :
  e ∈ styled_pieces t style_ops ↔
  ∃ s b labels,
    (s, b, Str.slice t s b, labels) ∈ slice_text_nodes t (style_ranges style_ops)
    ∧ labels ≠ ∅ ∧ punctuation_only (Str.slice t s b) = false
    ∧ e = hi_element labels (Str.slice t s b).
Proof.
  unfold styled_pieces. rewrite list_elem_of_omap. split.
  - intros ([[[s b] x] labels] & Hseg & Hp).
    apply elem_of_slice_text_nodes in Hseg as Hx. cbn [fst snd] in Hx.
    destruct Hx as [-> _]. unfold styled_piece in Hp. cbn [fst snd] in Hp.
    destruct (decide (labels = ∅)); [done|].
    destruct (punctuation_only _) eqn:E; [done|]. simplify_eq.
    by exists s, b, labels.
  - intros (s & b & labels & Hseg & Hl & Hp & ->).
    exists (s, b, Str.slice t s b, labels). split; [done|].
    unfold styled_piece. cbn [fst snd]. rewrite decide_False by done.
    by rewrite Hp.
Qed.

(** Two members of a strictly sorted list without a member between them
    are neighbours. *)
Lemma adjacent_sorted (l : list Z) a b :
  StronglySorted Z.lt l → a ∈ l → b ∈ l → a < b →
  (∀ x, x ∈ l → ¬ (a < x < b)) →
  (a, b) ∈ adjacent l.
Proof.
  induction l as [|x l IH]; intros Hs Ha Hb Hab Hno.
  - by apply elem_of_nil in Ha.
  - apply StronglySorted_inv in Hs as [Hs Hx]. rewrite Forall_forall in Hx.
    apply elem_of_cons in Ha as [->|Ha].
    + apply elem_of_cons in Hb as [->|Hb]; [lia|].
      destruct l as [|y l]; [by apply elem_of_nil in Hb|].
      change (adjacent (x :: y :: l)) with ((x, y) :: adjacent (y :: l)).
      assert (y = b) as ->; [|left].
      apply StronglySorted_inv in Hs as [_ Hy]. rewrite Forall_forall in Hy.
      pose proof (Hx y (list_elem_of_here _ _)).
      apply elem_of_cons in Hb as [->|Hb]; [done|].
      pose proof (Hy b Hb). destruct (Hno y); [right; left|lia].
    + apply elem_of_cons in Hb as [->|Hb].
      { pose proof (Hx a Ha). lia. }
      destruct l as [|y l]; [by apply elem_of_nil in Ha|].
      change (adjacent (x :: y :: l)) with ((x, y) :: adjacent (y :: l)).
      right. apply IH; [done..|]. intros z Hz. apply Hno. by right.
Qed.

(** A range that lies inside the text and that no boundary of a range
    cuts is one piece of the text. *)
Lemma range_is_piece t ranges a b lab :
  (a, b, lab) ∈ ranges → 0 ≤ a → a < b → b ≤ Str.len t →
  (∀ r, r ∈ ranges → ¬ (a < r.1.1 < b) ∧ ¬ (a < r.1.2 < b)) →
  (a, b, Str.slice t a b, labels_of ranges a b) ∈ slice_text_nodes t ranges
  ∧ lab ∈ labels_of ranges a b.
Proof.
  intros Hin Ha Hab Hb Hno. split.
  - rewrite slice_text_nodes_unfold. apply list_elem_of_omap.
    exists (a, b). split.
    + apply adjacent_sorted; [apply cuts_sorted| | |done|].
      * rewrite elem_of_cuts, elem_of_cut_points. right; right.
        exists (a, b, lab). split; [done|]. left. cbn. unfold clamp. lia.
      * rewrite elem_of_cuts, elem_of_cut_points. right; right.
        exists (a, b, lab). split; [done|]. right. cbn. unfold clamp. lia.
      * intros x. rewrite elem_of_cuts, elem_of_cut_points.
        intros [->|[->|(r & Hr & Hx)]]; [lia|lia|].
        destruct (Hno r Hr). unfold clamp in Hx. lia.
    + unfold segment_of. destruct (Z.eqb_spec a b); [lia|done].
  - unfold labels_of. apply elem_of_list_to_set, list_elem_of_omap.
    exists (a, b, lab). split; [done|]. cbn.
    destruct (Z.leb_spec a a); [|lia]. destruct (Z.leb_spec b b); [|lia].
    destruct (Z.ltb_spec a b); [done|lia].
Qed.

(** A style span with a rendition that lies inside the text and that no
    boundary of a style span cuts is one piece of the text, with a
    label. *)
Lemma style_span_is_piece t style_ops s :
  s ∈ style_ops → rend_of s ≠ [] →
  0 ≤ op_offset s → op_offset s < op_end s → op_end s ≤ Str.len t →
  (∀ s', s' ∈ style_ops →
         ¬ (op_offset s < op_offset s' < op_end s)
         ∧ ¬ (op_offset s < op_end s' < op_end s)) →
  ∃ labels,
    (op_offset s, op_end s, Str.slice t (op_offset s) (op_end s), labels)
      ∈ slice_text_nodes t (style_ranges style_ops)
    ∧ labels ≠ ∅.
Proof.
  intros Hs Hrend Ha Hab Hb Hno.
  destruct (range_is_piece t (style_ranges style_ops) (op_offset s) (op_end s)
              (Str.join " " (rend_of s))) as [H1 H2]; [|done..| |].
  - unfold style_ranges. apply list_elem_of_omap. exists s. split; [done|].
    by destruct (rend_of s).
  - intros r Hr. unfold style_ranges in Hr.
    apply list_elem_of_omap in Hr as (s' & Hs' & Hr).
    destruct (rend_of s'); [done|]. simplify_eq. cbn [fst snd]. by apply Hno.
  - eexists. split; [exact H1|]. intros E. rewrite E in H2.
    by apply not_elem_of_empty in H2.
Qed.

Lemma slice_text_nodes_empty ranges : slice_text_nodes "" ranges = [].
Proof.
  destruct (slice_text_nodes "" ranges) as [|[[[s e] x] l] segs] eqn:E; [done|].
  exfalso.
  assert ((s, e, x, l) ∈ slice_text_nodes "" ranges) as H by (rewrite E; left).
  rewrite slice_text_nodes_unfold in H.
  apply list_elem_of_omap in H as ([s' e'] & Hadj & Hsome).
  destruct (elem_of_adjacent Z.lt _ _ _ (cuts_sorted "" ranges) Hadj)
    as (Hs & He & Hlt).
  apply cuts_range in Hs, He. unfold Str.len in *. simpl in *. lia.
Qed.

Lemma elements_holder_nodes tmp :
  map untail (omap is_element (holder_nodes tmp)) = map untail (subelems tmp).
Proof.
  unfold holder_nodes. rewrite omap_app.
  assert (omap is_element
            (if Str.truthy_opt (text tmp)
             then [NStr (Str.or_empty (text tmp))] else []) = []) as ->
    by (by destruct (Str.truthy_opt (text tmp))).
  cbn [app]. induction (subelems tmp) as [|c cs IH]; [done|].
  cbn [map concat]. rewrite omap_app, map_app, IH. f_equal.
  unfold child_nodes. by destruct (Str.truthy_opt (tail c)).
Qed.

(** The styled elements of a line without annotation spans: the [hi]
    elements of the pieces that the style spans lying inside the text cut
    out of it. *)
Lemma elements_no_wrapper t ops :
  Forall (λ o, ¬ is_wrapper o) ops →
  ∃ nodes,
    build_inline_nodes_for_line t ops = Some nodes
    ∧ map untail (omap is_element nodes)
      = styled_pieces t
          (filter (λ s, 0 ≤ op_offset s ∧ op_end s ≤ Str.len t) (style_ops ops)).
Proof.
  intros Hops. rewrite render_no_wrapper by done. eexists. split; [done|].
  unfold render_plain_segment. rewrite StrFacts.slice_full.
  destruct (Str.is_empty t) eqn:Et.
  - apply StrFacts.is_empty_true in Et as ->. unfold styled_pieces.
    by rewrite slice_text_nodes_empty.
  - by rewrite elements_holder_nodes, subelems_build_styled_nodes.
Qed.

(** C6 (as amended): [build_styled_nodes] cuts the text at the boundaries
    of the style spans and decides for every piece on its own.  A piece
    whose text, once trimmed, is not empty and holds only punctuation is
    appended as plain text, whatever its labels; the [hi] elements added to
    the parent are those of the labelled pieces that are not of this kind,
    so none holds only punctuation, in no rendered line; the styled
    elements of a line without annotation spans are exactly these.  A style
    span whose slice is of this kind gives no styled element when the slice
    is one piece, that is, when the span lies inside the text and no style
    span begins or ends strictly inside it: alone on its line, it leaves
    the line as one plain run. *)
Theorem punctuation_only_style_is_plain :
  (∀ parent seg labels,
     punctuation_only seg = true →
     styled_segment parent seg labels = append_text parent seg)
  ∧ (∀ parent t style_ops,
       map untail (subelems (build_styled_nodes parent t style_ops))
       = map untail (subelems parent) ++ styled_pieces t style_ops)
  ∧ (∀ t style_ops e,
       e ∈ styled_pieces t style_ops →
       ∃ s b labels,
         (s, b, Str.slice t s b, labels)
           ∈ slice_text_nodes t (style_ranges style_ops)
         ∧ labels ≠ ∅ ∧ punctuation_only (Str.slice t s b) = false
         ∧ e = hi_element labels (Str.slice t s b))
  ∧ (∀ t ops nodes,
       build_inline_nodes_for_line t ops = Some nodes →
       every_node hi_ok nodes = true)
  ∧ (∀ t ops,
       Forall (λ o, ¬ is_wrapper o) ops →
       ∃ nodes,
         build_inline_nodes_for_line t ops = Some nodes
         ∧ map untail (omap is_element nodes)
           = styled_pieces t
               (filter (λ s, 0 ≤ op_offset s ∧ op_end s ≤ Str.len t)
                       (style_ops ops)))
  ∧ (∀ t style_ops s,
       s ∈ style_ops → rend_of s ≠ [] →
       0 ≤ op_offset s → op_offset s < op_end s → op_end s ≤ Str.len t →
       (∀ s', s' ∈ style_ops →
              ¬ (op_offset s < op_offset s' < op_end s)
              ∧ ¬ (op_offset s < op_end s' < op_end s)) →
       punctuation_only (Str.slice t (op_offset s) (op_end s)) = true →
       ∃ labels,
         (op_offset s, op_end s, Str.slice t (op_offset s) (op_end s), labels)
           ∈ slice_text_nodes t (style_ranges style_ops)
         ∧ styled_piece
             (op_offset s, op_end s, Str.slice t (op_offset s) (op_end s), labels)
           = None)
  ∧ (∀ t s,
       op_kind s = "textStyle" →
       punctuation_only (Str.slice t (op_offset s) (op_end s)) = true →
       build_inline_nodes_for_line t [s] = Some [NStr t]).
Proof.
  split; [|split; [|split; [|split; [|split; [|split]]]]].
  - intros parent seg labels Hp. apply styled_segment_plain. by right.
  - apply subelems_build_styled_nodes.
  - intros t style_ops e. apply elem_of_styled_pieces.
  - apply every_hi_ok.
  - apply elements_no_wrapper.
  - intros t style_ops s Hs Hrend Ha Hab Hb Hno Hp.
    destruct (style_span_is_piece t style_ops s Hs Hrend Ha Hab Hb Hno)
      as (labels & Hin & Hl).
    exists labels. split; [done|]. unfold styled_piece. cbn [fst snd].
    rewrite decide_False by done. by rewrite Hp.
  - apply punctuation_style_alone.
Qed.

Lemma punctuation_only_style_is_plain_witness :
  let t := "ab -- ef" in
  let s := span "textStyle" 3 2 [("italic", "true")] in
  ∃ labels,
    (3, 5, "--", labels)
      ∈ slice_text_nodes t
          (style_ranges [span "textStyle" 0 2 [("bold", "true")]; s])
    ∧ styled_piece (3, 5, "--", labels) = None.
Proof.
  cbn zeta.
  destruct punctuation_only_style_is_plain as (_ & _ & _ & _ & _ & H & _).
  apply (H "ab -- ef"
           [span "textStyle" 0 2 [("bold", "true")];
            span "textStyle" 3 2 [("italic", "true")]]
           (span "textStyle" 3 2 [("italic", "true")])).
  - apply list_elem_of_further, list_elem_of_here.
  - done.
  - done.
  - done.
  - done.
  - intros s' Hs'. rewrite !elem_of_cons, elem_of_nil in Hs'.
    destruct Hs' as [->|[->|[]]]; cbn; lia.
  - reflexivity.
Defined.

(** C6 (as stated) fails when another style span begins or ends inside
    the slice: italic over [" -- "] and bold over ["--"] cut the slice of
    the first span into three pieces, and the two blanks are rendered as
    styled elements. *)
Lemma punctuation_style_cut_in_pieces :
  punctuation_only (Str.slice "ab -- ef" 2 6) = true
  ∧ build_inline_nodes_for_line "ab -- ef"
      [span "textStyle" 2 4 [("italic", "true")];
       span "textStyle" 3 2 [("bold", "true")]]
    = Some [NStr "ab";
            NElem (Elem (qn "hi") [("rend", "italic")] (Some " ") [] None);
            NStr "--";
            NElem (Elem (qn "hi") [("rend", "italic")] (Some " ") [] None);
            NStr "ef"].
Proof. split; reflexivity. Qed.





(** ** Whitespace at the edges of every wrapper *)

(** The element that receives the inner content of the wrapper [w], given
    the wrapper element [el]: the first part of the choice for an
    abbreviation or a correction, the second one for a regularised span,
    and otherwise the wrapper element itself, a [placeName] receiving its
    literal sub-elements after the content. *)
Definition holds_content (w : op) (content el : Element) : Prop :=
  if bool_decide (op_kind w ∈ ["abbrev"; "sic"])
  then tag el = qn "choice" ∧ subelems el !! 0%nat = Some content
  else if String.eqb (op_kind w) "regularised"
  then tag el = qn "choice" ∧ subelems el !! 1%nat = Some content
  else if String.eqb (op_kind w) "place"
  then tag el = tag content ∧ text el = text content
       ∧ ∃ literal, subelems el = subelems content ++ literal
                    ∧ Forall (λ e, is_literal (tag e) = true
                                   ∧ subelems e = [] ∧ tail e = None) literal
  else el = content.

Lemma place_sub_elements w el attrs :
  Forall (λ a, is_literal (qn a) = true) attrs →
  let el' := foldl (λ el attr, match op_get w attr with
                               | Some v => sub_element_with_text el attr v
                               | None => el
                               end) el attrs in
  tag el' = tag el ∧ text el' = text el
  ∧ ∃ literal, subelems el' = subelems el ++ literal
               ∧ Forall (λ e, is_literal (tag e) = true
                              ∧ subelems e = [] ∧ tail e = None) literal.
Proof.
  intros Hattrs. revert el. induction Hattrs as [|a attrs Ha _ IH]; intros el.
  - cbn. split; [done|]. split; [done|]. exists []. by rewrite List.app_nil_r.
  - cbn [foldl]. destruct (op_get w a) as [v|]; [|apply IH].
    destruct (IH (sub_element_with_text el a v)) as (-> & -> & lit & -> & Hlit).
    split; [done|]. split; [done|].
    exists (set_text (new_element (qn a)) (Some v) :: lit).
    split; [cbn; by rewrite <- List.app_assoc|].
    constructor; [|done]. done.
Qed.

Section Hoist.
Import Str StrFacts.

(** The facts of [populate_hoists_whitespace] about a populated target. *)
Definition hoisted (inner : list Node) (lead : string) (content : Element)
    (trail : string) : Prop :=
  all isspace lead = true ∧ all isspace trail = true
  ∧ starts_with_space (or_empty (text content)) = false
  ∧ ends_with_space (last_text content) = false
  ∧ lead +:+ itertext content +:+ trail = flatten inner.

Lemma hoisted_populate target inner :
  subelems target = [] → text target = None →
  ∃ lead content trail,
    populate_target_with_nodes target inner = (lead, content, trail)
    ∧ hoisted inner lead content trail ∧ tag content = tag target.
Proof.
  intros H1 H2. pose proof (populate_hoists_whitespace target inner H1 H2) as H.
  pose proof (populate_tag target inner) as Ht.
  destruct (populate_target_with_nodes target inner) as [[lead el] trail].
  by exists lead, el, trail.
Qed.

Ltac hoist inner :=
  match goal with
  | |- context [populate_target_with_nodes ?tg inner] =>
      let H := fresh "Hpop" in
      destruct (hoisted_populate tg inner) as (lead & c & trail & -> & H & Htag)
  end.

Lemma wrapper_hoists t w inner :
  keeps_inner w →
  ∃ lead content el trail,
    build_wrapper_element t w inner
    = maybe_wrap_with_edge_whitespace lead trail el
    ∧ holds_content w content el
    ∧ hoisted inner lead content trail.
Proof.
  intros Hkeep. unfold build_wrapper_element, holds_content.
  destruct (bool_decide (op_kind w ∈ ["abbrev"; "sic"; "regularised"])) eqn:Ek.
  - apply bool_decide_eq_true in Ek.
    rewrite !elem_of_cons, elem_of_nil in Ek.
    destruct Ek as [Ek|[Ek|[Ek|[]]]]; rewrite Ek.
    + change (String.eqb "abbrev" "abbrev") with true.
      change (String.eqb "abbrev" "regularised") with false. cbn iota beta zeta.
      hoist inner; [done|done|]. rewrite bool_decide_true by by_compute.
      by eexists lead, c, _, trail.
    + change (String.eqb "sic" "abbrev") with false.
      change (String.eqb "sic" "sic") with true.
      change (String.eqb "sic" "regularised") with false. cbn iota beta zeta.
      hoist inner; [done|done|]. rewrite bool_decide_true by by_compute.
      by eexists lead, c, _, trail.
    + change (String.eqb "regularised" "abbrev") with false.
      change (String.eqb "regularised" "sic") with false.
      change (String.eqb "regularised" "regularised") with true.
      cbn iota beta zeta. rewrite (Hkeep Ek).
      hoist inner; [done|done|]. rewrite bool_decide_false by by_compute.
      by eexists lead, c, _, trail.
  - apply bool_decide_eq_false in Ek.
    rewrite !elem_of_cons, elem_of_nil in Ek.
    rewrite bool_decide_false
      by (rewrite !elem_of_cons, elem_of_nil; naive_solver).
    destruct (String.eqb_spec (op_kind w) "regularised") as [E|_];
      [naive_solver|].
    destruct (String.eqb_spec (op_kind w) "num") as [E|_].
    { hoist inner; [by rewrite !children_copy_attr|by rewrite !text_copy_attr|]. rewrite E.
      change (String.eqb "num" "place") with false.
      by eexists lead, c, _, trail. }
    destruct (String.eqb_spec (op_kind w) "person") as [E|_].
    { hoist inner; [apply subelems_persName_for|apply text_persName_for|].
      rewrite E. change (String.eqb "person" "place") with false.
      by eexists lead, c, _, trail. }
    destruct (String.eqb_spec (op_kind w) "place") as [E|_].
    { hoist inner; [done|done|].
      eexists lead, c, _, trail. split; [reflexivity|]. split; [|done].
      apply place_sub_elements. repeat constructor. }
    destruct (String.eqb_spec (op_kind w) "ref") as [E|_].
    { hoist inner; [by rewrite !children_copy_attr|by rewrite !text_copy_attr|]. by eexists lead, c, _, trail. }
    destruct (String.eqb_spec (op_kind w) "unclear") as [E|_].
    { hoist inner; [by rewrite !children_copy_attr|by rewrite !text_copy_attr|]. by eexists lead, c, _, trail. }
    destruct (tag_data_attrs (set_attr (new_element (qn "seg")) "type" (op_kind w))
                (op_attrs w)) as (T1 & T2 & T3 & T4).
    hoist inner; [by rewrite T2|by rewrite T3|].
    by eexists lead, c, _, trail.
Qed.

End Hoist.

Lemma built_nodes_wrap lead trail el :
  built_nodes (maybe_wrap_with_edge_whitespace lead trail el)
  = (if Str.truthy lead then [NStr lead] else [])
    ++ [NElem el] ++ (if Str.truthy trail then [NStr trail] else []).
Proof.
  unfold maybe_wrap_with_edge_whitespace.
  destruct (Str.truthy lead) eqn:E1, (Str.truthy trail) eqn:E2;
    cbn [orb built_nodes]; by rewrite ?E1, ?E2.
Qed.

(** C5 (as amended): for every wrapper other than a regularised span with
    an explicit regularised value, [build_wrapper_element] takes the
    leading whitespace of the first plain text of the inner content and the
    trailing whitespace of its last plain text (the tail of the last child
    element, or the text when there is no child) out of the element and
    returns them, so that they are emitted as plain text before and after
    the wrapper element; no character is lost, and the element that
    receives the content (the wrapper element, or the [abbr], [sic] or
    [reg] part of a choice) has a text that does not begin with whitespace
    and a last text that does not end with whitespace.  Whitespace inside
    a child element is not moved.  The span [{offset:2, length:4}] over
    ["ab cd ef"] is rendered as ["ab"], [" "], the element around ["cd"],
    [" "], ["ef"]. *)
Theorem edge_whitespace_is_hoisted t w inner :
  keeps_inner w →
  (∃ lead content el trail,
     built_nodes (build_wrapper_element t w inner)
     = (if Str.truthy lead then [NStr lead] else [])
       ++ [NElem el] ++ (if Str.truthy trail then [NStr trail] else [])
     ∧ holds_content w content el
     ∧ Str.all Str.isspace lead = true ∧ Str.all Str.isspace trail = true
     ∧ StrFacts.starts_with_space (Str.or_empty (text content)) = false
     ∧ StrFacts.ends_with_space (last_text content) = false
     ∧ lead +:+ itertext content +:+ trail = flatten inner)
  ∧ build_inline_nodes_for_line "ab cd ef" [span "num" 2 4 []]
    = Some [NStr "ab"; NStr " ";
            NElem (Elem (qn "num") [] (Some "cd") [] None);
            NStr " "; NStr "ef"].
Proof.
  intros Hkeep. split; [|reflexivity].
  destruct (wrapper_hoists t w inner Hkeep)
    as (lead & content & el & trail & -> & Hc & H).
  exists lead, content, el, trail. split; [apply built_nodes_wrap|].
  split; [done|]. exact H.
Qed.

Lemma edge_whitespace_is_hoisted_witness :
  (∃ lead content el trail,
     built_nodes (build_wrapper_element "ab cd ef"
                    (span "abbrev" 2 4 [("expansion", "cedilla")])
                    [NStr " cd "])
     = (if Str.truthy lead then [NStr lead] else [])
       ++ [NElem el] ++ (if Str.truthy trail then [NStr trail] else [])
     ∧ holds_content (span "abbrev" 2 4 [("expansion", "cedilla")]) content el
     ∧ Str.all Str.isspace lead = true ∧ Str.all Str.isspace trail = true
     ∧ StrFacts.starts_with_space (Str.or_empty (text content)) = false
     ∧ StrFacts.ends_with_space (last_text content) = false
     ∧ lead +:+ itertext content +:+ trail = flatten [NStr " cd "])
  ∧ build_inline_nodes_for_line "ab cd ef" [span "num" 2 4 []]
    = Some [NStr "ab"; NStr " ";
            NElem (Elem (qn "num") [] (Some "cd") [] None);
            NStr " "; NStr "ef"].
Proof.
  apply (edge_whitespace_is_hoisted "ab cd ef"
           (span "abbrev" 2 4 [("expansion", "cedilla")]) [NStr " cd "]).
  intros Hk. vm_compute in Hk. discriminate.
Defined.

(** ** The person around the choice *)















(** *** Wrapper elements keep the elements they receive *)






(** *** The element of every wrapper is in the output *)


Section Rendered.
Variable t : string.
Variable styles : list op.
Variable ws : list op.
Variable children : gmap nat (list nat).









End Rendered.



(** *** The repair pass keeps the [persName] elements *)

Section OccursWrap.
Variable d : Element.
Hypothesis tag_d : tag d = qn "persName".






End OccursWrap.




